(** * ambench: alert identity hashing, event merge, batching and reporting

    A shallow embedding of the load-generation and event-correlation engine
    of ambench (receive.go, the load test driver and the command entry
    point), with the properties of its specification stated over it.

    Conventions.
    - Go [int] and [uint64] values are integers of [Z]; slice positions that
      the code only ever uses as in-range positions are [nat].
    - A [map[string]string] is a [gmap string string]; a slice is a [list].
    - A run-time panic (index out of range, slice bounds out of range) is an
      explicit result of the embedding, never a missing case.
    - Functions of other packages (xxhash.Sum64, textparse, time.Format,
      filepath.Join) are section variables; a concrete stand-in is supplied
      where an example has to be evaluated. *)

From Stdlib Require Import ZArith List Lia Bool.
From Stdlib Require Import Strings.String Strings.Ascii Strings.Byte Strings.HexString.
From Stdlib Require DecimalString.
From stdpp Require Import base option list sorting gmap strings.

Local Open Scope Z_scope.

(** ** The 64-bit hash of the alert buffers *)

(** XXH64 with seed 0, the function [Sum64] of github.com/cespare/xxhash
    computes.  The properties below hold for any function in its place; this
    one is what the examples are evaluated with. *)
Module Xxhash.

Definition u64 (z : Z) : Z := z mod 2 ^ 64.

Definition rol (x r : Z) : Z :=
  u64 (Z.lor (Z.shiftl x r) (Z.shiftr x (64 - r))).

Definition prime1 : Z := 11400714785074694791.
Definition prime2 : Z := 14029467366897019727.
Definition prime3 : Z := 1609587929392839161.
Definition prime4 : Z := 9650029242287828579.
Definition prime5 : Z := 2870177450012600261.

Definition round (acc input : Z) : Z :=
  let acc := u64 (acc + input * prime2) in
  let acc := rol acc 31 in
  u64 (acc * prime1).

Definition mergeRound (acc val : Z) : Z :=
  let val := round 0 val in
  let acc := Z.lxor acc val in
  u64 (acc * prime1 + prime4).

(** The little-endian value of a run of bytes. *)
Definition le (bs : list byte) : Z :=
  foldr (λ x acc, Z.of_N (Byte.to_N x) + 256 * acc) 0 bs.

(** The loop over the 32-byte stripes. *)
Fixpoint stripes (n : nat) (b : list byte) (v : Z * Z * Z * Z)
  : list byte * (Z * Z * Z * Z) :=
  match n with
  | O => (b, v)
  | S n =>
      if (32 <=? length b)%nat then
        let '(v1, v2, v3, v4) := v in
        stripes n (drop 32 b)
          (round v1 (le (take 8 b)), round v2 (le (take 8 (drop 8 b))),
           round v3 (le (take 8 (drop 16 b))), round v4 (le (take 8 (drop 24 b))))
      else (b, v)
  end.

(** The loop over the remaining 8-byte words. *)
Fixpoint words (n : nat) (b : list byte) (h : Z) : list byte * Z :=
  match n with
  | O => (b, h)
  | S n =>
      if (8 <=? length b)%nat then
        let k1 := round 0 (le (take 8 b)) in
        let h := Z.lxor h k1 in
        words n (drop 8 b) (u64 (rol h 27 * prime1 + prime4))
      else (b, h)
  end.

Definition Sum64 (b : list byte) : Z :=
  let n := length b in
  let '(b, h) :=
    if (32 <=? n)%nat then
      let '(b, (v1, v2, v3, v4)) :=
        stripes n b (u64 (prime1 + prime2), prime2, 0, u64 (- prime1)) in
      let h := u64 (rol v1 1 + rol v2 7 + rol v3 12 + rol v4 18) in
      (b, mergeRound (mergeRound (mergeRound (mergeRound h v1) v2) v3) v4)
    else (b, prime5) in
  let h := u64 (h + Z.of_nat n) in
  let '(b, h) := words (length b) b h in
  let '(b, h) :=
    if (4 <=? length b)%nat then
      let h := Z.lxor h (u64 (le (take 4 b) * prime1)) in
      (drop 4 b, u64 (rol h 23 * prime2 + prime3))
    else (b, h) in
  let h := foldl (λ h x,
             u64 (rol (Z.lxor h (u64 (Z.of_N (Byte.to_N x) * prime5))) 11 * prime1))
             h b in
  let h := Z.lxor h (Z.shiftr h 33) in
  let h := u64 (h * prime2) in
  let h := Z.lxor h (Z.shiftr h 29) in
  let h := u64 (h * prime3) in
  Z.lxor h (Z.shiftr h 32).

(** Known digests of XXH64 with seed 0. *)
Example Sum64_digests :
  Sum64 [] = 0xef46db3751d8e999 ∧
  Sum64 (list_byte_of_string "a") = 0xd24ec4f1a98c6e5b ∧
  Sum64 (list_byte_of_string "asdf") = 0x415872f599cea71e ∧
  Sum64 (list_byte_of_string
           "Call me Ishmael. Some years ago--never mind how long precisely-")
  = 0x02a2e85470d6fd96.
Proof. by vm_compute. Qed.

End Xxhash.

(** ** Alert identity hashing (receive.go) *)

Module Hashing.

(** [type Alert struct { Labels map[string]string }].  The code handles
    alerts through pointers; a [list Alert] is a [[]*Alert] none of whose
    pointers is nil. *)
Record Alert : Type := mkAlert { Labels : gmap string string }.

(** One element of a [labels.Labels] value, as ranged over by [makeAlerts]. *)
Record Label : Type := mkLabel { Name : string; Value : string }.

(** [const sep = '\xff'] *)
Definition sep : byte := xff.

(** The conversion [string(s)...] appended to a [[]byte]. *)
Definition bytesOf (s : string) : list byte := list_byte_of_string s.

(** [a.Labels[ln]]: the zero value when the key is absent. *)
Definition labelValue (a : Alert) (ln : string) : string :=
  default EmptyString (Labels a !! ln).

(** [sort.Strings]: ascending in the byte-wise order of Go strings. *)
Definition sortStrings (names : list string) : list string :=
  merge_sort String.le names.

(** Body of the second loop of [hashAlert]: its four [append]s. *)
Definition appendLabel (a : Alert) (b : list byte) (ln : string) : list byte :=
  let b := b ++ bytesOf ln in
  let b := b ++ [sep] in
  let b := b ++ bytesOf (labelValue a ln) in
  b ++ [sep].

(** The names in the order in which [range a.Labels] yields them.  Go leaves
    that order unspecified; [hashAlertRanged] takes it as an argument and
    [hashAlert] fixes one enumeration of the keys. *)
Definition rangeLabels (a : Alert) : list string := (map_to_list (Labels a)).*1.

(** An alert set in three orders. *)

Definition twoAlerts_first : list Label :=
  [mkLabel "alertname" "HighLoad"; mkLabel "instance" "a"]%string.

Definition twoAlerts_second : list Label := [mkLabel "alertname" "Down"]%string.

Definition twoAlerts : list (list Label) := [twoAlerts_first; twoAlerts_second].

Definition twoAlerts_labels_swapped : list (list Label) :=
  [[mkLabel "instance" "a"; mkLabel "alertname" "HighLoad"];
   [mkLabel "alertname" "Down"]]%string.

Definition twoAlerts_swapped : list (list Label) :=
  [[mkLabel "alertname" "Down"];
   [mkLabel "instance" "a"; mkLabel "alertname" "HighLoad"]]%string.

Section WithSum64.

(** [xxhash.Sum64] of github.com/cespare/xxhash. *)
Variable Sum64 : list byte → Z.

(** [hashAlert], for the order [ranged] in which the first loop meets the
    names; the buffer taken from the pool is empty. *)
Definition hashAlertRanged (ranged : list string) (a : Alert) : Z :=
  let names := foldl (λ names ln, names ++ [ln]) [] ranged in
  let names := sortStrings names in
  let b := foldl (appendLabel a) [] names in
  Sum64 b.

(** [hashAlert] *)
Definition hashAlert (a : Alert) : Z := hashAlertRanged (rangeLabels a) a.

(** [alertHashes] *)
Definition alertHashes (a : list Alert) : list Z :=
  foldl (λ res x, res ++ [hashAlert x]) [] a.

(** [hashHashes] *)
Definition hashHashes (h : list Z) : Z :=
  foldl (λ res x, Z.lxor res x) 0 h.

(** [hashAlerts] *)
Definition hashAlerts (a : list Alert) : Z :=
  foldl (λ res x, Z.lxor res (hashAlert x)) 0 a.

(** The alert built by [makeAlerts] from one label set: the labels are
    inserted into a fresh map in the order of the slice. *)
Definition alertOfLabels (ls : list Label) : Alert :=
  mkAlert (foldl (λ m l, <[Name l := Value l]> m) ∅ ls).

(** The bytes one (name, value) pair contributes to the hashed buffer. *)
Definition pairBytes (p : string * string) : list byte :=
  bytesOf p.1 ++ [sep] ++ bytesOf p.2 ++ [sep].

(** *** Sorting the names *)

Lemma collect_names (acc ranged : list string) :
  foldl (λ names ln, names ++ [ln]) acc ranged = acc ++ ranged.
Proof.
  revert acc. induction ranged as [|ln ranged IH]; intros acc; simpl.
  - by rewrite app_nil_r.
  - rewrite IH, <- app_assoc. done.
Qed.

Lemma sortStrings_sorted (names : list string) :
  StronglySorted String.le (sortStrings names).
Proof. apply StronglySorted_merge_sort; apply _. Qed.

Lemma sortStrings_perm (names : list string) : sortStrings names ≡ₚ names.
Proof. apply merge_sort_Permutation. Qed.

Lemma sortStrings_order_irrelevant (l1 l2 : list string) :
  l1 ≡ₚ l2 → sortStrings l1 = sortStrings l2.
Proof.
  intros Hp. apply (StronglySorted_unique String.le).
  - apply sortStrings_sorted.
  - apply sortStrings_sorted.
  - by rewrite !sortStrings_perm.
Qed.

(** *** The hashed buffer *)

Lemma appendLabel_fold (a : Alert) (names : list string) (b : list byte) :
  foldl (appendLabel a) b names
  = b ++ mjoin ((λ ln, pairBytes (ln, labelValue a ln)) <$> names).
Proof.
  revert b. induction names as [|ln names IH]; intros b; simpl.
  - by rewrite app_nil_r.
  - rewrite IH. unfold appendLabel, pairBytes. csimpl.
    rewrite <- !app_assoc. simpl. by rewrite <- !app_assoc.
Qed.

Lemma pairs_of_keys (m : gmap string string) (l : list (string * string)) :
  (∀ k v, (k, v) ∈ l → m !! k = Some v) →
  (λ ln, (ln, default EmptyString (m !! ln))) <$> l.*1 = l.
Proof.
  induction l as [|[k v] l IH]; intros Hl; [done|]. csimpl.
  rewrite (Hl k v) by left. simpl. f_equal.
  apply IH. intros k' v' Hin. apply Hl. by right.
Qed.

Lemma hashAlertRanged_pairs (ranged : list string) (a : Alert) :
  hashAlertRanged ranged a
  = Sum64 (mjoin (pairBytes <$>
       ((λ ln, (ln, labelValue a ln)) <$> sortStrings ranged))).
Proof.
  unfold hashAlertRanged. rewrite (collect_names [] ranged). simpl.
  rewrite appendLabel_fold. simpl. by rewrite <- list_fmap_compose.
Qed.

(** Any order in which the map is ranged over gives the same hash. *)
Lemma hashAlert_range_order (ranged : list string) (a : Alert) :
  ranged ≡ₚ rangeLabels a → hashAlertRanged ranged a = hashAlert a.
Proof.
  intros Hp. unfold hashAlert. rewrite !hashAlertRanged_pairs.
  by rewrite (sortStrings_order_irrelevant _ _ Hp).
Qed.

(** The hash is taken over the pairs of the map, ascending by name. *)
Lemma hashAlert_sorted_pairs (a : Alert) :
  ∃ pairs : list (string * string),
    pairs ≡ₚ map_to_list (Labels a) ∧
    StronglySorted String.le pairs.*1 ∧
    NoDup pairs.*1 ∧
    hashAlert a = Sum64 (mjoin (pairBytes <$> pairs)).
Proof.
  exists ((λ ln, (ln, labelValue a ln)) <$> sortStrings (rangeLabels a)).
  assert (Hfst : ((λ ln, (ln, labelValue a ln)) <$> sortStrings (rangeLabels a)).*1
                 = sortStrings (rangeLabels a)).
  { rewrite <- list_fmap_compose. apply list_fmap_id. }
  split; [|split; [|split]].
  - rewrite sortStrings_perm. unfold rangeLabels, labelValue.
    rewrite pairs_of_keys; [done|].
    intros k v. apply elem_of_map_to_list.
  - rewrite Hfst. apply sortStrings_sorted.
  - rewrite Hfst, sortStrings_perm. apply NoDup_fst_map_to_list.
  - apply hashAlertRanged_pairs.
Qed.

(** *** Combining the hashes *)

Lemma alertHashes_fold (a : list Alert) (res : list Z) :
  foldl (λ res x, res ++ [hashAlert x]) res a = res ++ (hashAlert <$> a).
Proof.
  revert res. induction a as [|x a IH]; intros res; simpl.
  - by rewrite app_nil_r.
  - rewrite IH, <- app_assoc. done.
Qed.

Lemma alertHashes_map (a : list Alert) : alertHashes a = hashAlert <$> a.
Proof. apply (alertHashes_fold a []). Qed.

Lemma xor_fold (h : list Z) (res : Z) :
  foldl (λ res x, Z.lxor res x) res h = Z.lxor res (foldr Z.lxor 0 h).
Proof.
  revert res. induction h as [|x h IH]; intros res; simpl.
  - by rewrite Z.lxor_0_r.
  - rewrite IH. by rewrite Z.lxor_assoc.
Qed.

Lemma hashHashes_foldr (h : list Z) : hashHashes h = foldr Z.lxor 0 h.
Proof. unfold hashHashes. by rewrite xor_fold, Z.lxor_0_l. Qed.

Lemma hashAlerts_hashHashes (a : list Alert) :
  hashAlerts a = hashHashes (alertHashes a).
Proof.
  unfold hashAlerts, hashHashes. rewrite alertHashes_map.
  generalize 0. induction a as [|x a IH]; intros res; simpl; [done|apply IH].
Qed.

Lemma hashHashes_app (h1 h2 : list Z) :
  hashHashes (h1 ++ h2) = Z.lxor (hashHashes h1) (hashHashes h2).
Proof.
  rewrite !hashHashes_foldr, foldr_app.
  induction h1 as [|x h1 IH]; simpl.
  - by rewrite Z.lxor_0_l.
  - by rewrite IH, Z.lxor_assoc.
Qed.

Lemma hashHashes_perm (h1 h2 : list Z) :
  h1 ≡ₚ h2 → hashHashes h1 = hashHashes h2.
Proof.
  intros Hp. rewrite !hashHashes_foldr.
  induction Hp as [|x l l' _ IH|x y l|l l' l'' _ IH1 _ IH2]; simpl.
  - done.
  - by rewrite IH.
  - rewrite <- !Z.lxor_assoc. f_equal. apply Z.lxor_comm.
  - congruence.
Qed.

(** *** Building an alert from a label set *)

Lemma insertLabels_lookup (ls : list Label) (m : gmap string string) k v :
  NoDup (Name <$> ls) →
  foldl (λ m l, <[Name l := Value l]> m) m ls !! k = Some v
  ↔ (mkLabel k v ∈ ls ∨ (¬ (k ∈ Name <$> ls) ∧ m !! k = Some v)).
Proof.
  revert m. induction ls as [|[n w] ls IH]; intros m Hnd; csimpl.
  - rewrite elem_of_nil. split; [intros ?; right; split; [apply not_elem_of_nil|done]|].
    intros [[]|[_ ?]]; done.
  - apply NoDup_cons in Hnd as [Hn Hnd]. rewrite (IH _ Hnd).
    rewrite elem_of_cons, not_elem_of_cons, lookup_insert.
    split.
    + intros [?|[Hk Hm]]; [by left; right|].
      case_decide as Hnk; simplify_eq; [by left; left|by right].
    + intros [[Heq|?]|[[Hne Hk] Hm]]; [|by left|].
      * simplify_eq. right. split; [done|]. by rewrite decide_True.
      * right. split; [done|]. by rewrite decide_False.
Qed.

Lemma alertOfLabels_perm (ls1 ls2 : list Label) :
  NoDup (Name <$> ls1) → ls1 ≡ₚ ls2 → alertOfLabels ls1 = alertOfLabels ls2.
Proof.
  intros Hnd Hp. unfold alertOfLabels. f_equal.
  assert (Hnd2 : NoDup (Name <$> ls2)) by by rewrite <- Hp.
  apply map_eq. intros k. apply option_eq. intros v.
  rewrite !insertLabels_lookup by done. by rewrite Hp.
Qed.

Lemma alertsOfLabels_perm (A B : list (list Label)) :
  Forall (λ ls, NoDup (Name <$> ls)) A →
  Forall2 (≡ₚ) A B →
  alertOfLabels <$> A = alertOfLabels <$> B.
Proof.
  intros Hnd Hp. induction Hp as [|ls1 ls2 A B Hp _ IH]; [done|].
  apply Forall_cons in Hnd as [Hnd1 Hnd]. csimpl.
  by rewrite (alertOfLabels_perm ls1 ls2), IH.
Qed.

Lemma hashAlerts_perm (a1 a2 : list Alert) :
  a1 ≡ₚ a2 → hashAlerts a1 = hashAlerts a2.
Proof.
  intros Hp. rewrite !hashAlerts_hashHashes, !alertHashes_map.
  apply hashHashes_perm. by rewrite Hp.
Qed.

(** *** The properties of the specification *)

(** C1.  The hash of an alert is [Sum64] of the bytes of its (name, value)
    pairs taken in ascending order of the names, whatever the order in which
    the map is ranged over; the fingerprint of a set is the XOR of the hashes
    of its members; so alert sets that differ only in the order in which the
    labels were inserted into each alert and in the order of the alerts have
    the same fingerprint. *)
Theorem fingerprint_order_independent (A B C : list (list Label)) :
  Forall (λ ls, NoDup (Name <$> ls)) A →
  Forall2 (≡ₚ) A B →
  B ≡ₚ C →
  (∀ a : Alert, ∃ pairs : list (string * string),
      pairs ≡ₚ map_to_list (Labels a) ∧
      StronglySorted String.le pairs.*1 ∧ NoDup pairs.*1 ∧
      hashAlert a = Sum64 (mjoin (pairBytes <$> pairs))) ∧
  (∀ (a : Alert) (ranged : list string),
      ranged ≡ₚ rangeLabels a → hashAlertRanged ranged a = hashAlert a) ∧
  (∀ al : list Alert,
      hashAlerts al = foldr Z.lxor 0 (hashAlert <$> al) ∧
      hashHashes (alertHashes al) = foldr Z.lxor 0 (hashAlert <$> al)) ∧
  hashAlerts (alertOfLabels <$> A) = hashAlerts (alertOfLabels <$> C) ∧
  hashHashes (alertHashes (alertOfLabels <$> A))
  = hashHashes (alertHashes (alertOfLabels <$> C)).
Proof.
  intros Hnd HAB HBC.
  assert (Hset : hashAlerts (alertOfLabels <$> A) = hashAlerts (alertOfLabels <$> C)).
  { rewrite (alertsOfLabels_perm A B Hnd HAB).
    apply hashAlerts_perm. by rewrite HBC. }
  split; [apply hashAlert_sorted_pairs|].
  split; [intros a ranged; apply hashAlert_range_order|].
  split; [|split; [done|by rewrite <- !hashAlerts_hashHashes]].
  intros al. rewrite hashAlerts_hashHashes, alertHashes_map.
  split; apply hashHashes_foldr.
Qed.

(** C2.  The fingerprint of an alert set followed by itself is 0, which is
    also the fingerprint of the empty set. *)
Theorem fingerprint_duplicates_cancel (A : list Alert) :
  hashAlerts (A ++ A) = 0 ∧
  hashHashes (alertHashes (A ++ A)) = 0 ∧
  hashAlerts [] = 0 ∧
  hashHashes (alertHashes []) = 0.
Proof.
  assert (H : hashHashes (alertHashes (A ++ A)) = 0).
  { rewrite alertHashes_map, fmap_app, hashHashes_app. apply Z.lxor_nilpotent. }
  rewrite hashAlerts_hashHashes. done.
Qed.

End WithSum64.

Lemma fingerprint_order_independent_witness :
  Forall (λ ls, NoDup (Name <$> ls)) twoAlerts ∧
  Forall2 (≡ₚ) twoAlerts twoAlerts_labels_swapped ∧
  twoAlerts_labels_swapped ≡ₚ twoAlerts_swapped ∧
  (∀ a : Alert, ∃ pairs : list (string * string),
      pairs ≡ₚ map_to_list (Labels a) ∧
      StronglySorted String.le pairs.*1 ∧ NoDup pairs.*1 ∧
      hashAlert Xxhash.Sum64 a = Xxhash.Sum64 (mjoin (pairBytes <$> pairs))) ∧
  (∀ (a : Alert) (ranged : list string),
      ranged ≡ₚ rangeLabels a →
      hashAlertRanged Xxhash.Sum64 ranged a = hashAlert Xxhash.Sum64 a) ∧
  (∀ al : list Alert,
      hashAlerts Xxhash.Sum64 al = foldr Z.lxor 0 (hashAlert Xxhash.Sum64 <$> al) ∧
      hashHashes (alertHashes Xxhash.Sum64 al)
      = foldr Z.lxor 0 (hashAlert Xxhash.Sum64 <$> al)) ∧
  hashAlerts Xxhash.Sum64 (alertOfLabels <$> twoAlerts)
  = hashAlerts Xxhash.Sum64 (alertOfLabels <$> twoAlerts_swapped) ∧
  hashHashes (alertHashes Xxhash.Sum64 (alertOfLabels <$> twoAlerts))
  = hashHashes (alertHashes Xxhash.Sum64 (alertOfLabels <$> twoAlerts_swapped)).
Proof.
  assert (H1 : Forall (λ ls, NoDup (Name <$> ls)) twoAlerts).
  { apply (bool_decide_unpack _). by vm_compute. }
  assert (H2 : Forall2 (≡ₚ) twoAlerts twoAlerts_labels_swapped).
  { repeat constructor. }
  assert (H3 : twoAlerts_labels_swapped ≡ₚ twoAlerts_swapped) by apply perm_swap.
  split; [exact H1|]. split; [exact H2|]. split; [exact H3|].
  exact (fingerprint_order_independent Xxhash.Sum64
           twoAlerts twoAlerts_labels_swapped twoAlerts_swapped H1 H2 H3).
Defined.

(** The fingerprint of the set above, and of the set taken twice. *)
Example twoAlerts_fingerprint :
  hashAlerts Xxhash.Sum64 (alertOfLabels <$> twoAlerts)
  = hashAlerts Xxhash.Sum64 (alertOfLabels <$> twoAlerts_swapped) ∧
  hashAlerts Xxhash.Sum64 (alertOfLabels <$> twoAlerts) ≠ 0 ∧
  hashAlerts Xxhash.Sum64 (alertOfLabels <$> (twoAlerts ++ twoAlerts)) = 0.
Proof. by vm_compute. Qed.

End Hashing.

(** ** Results of Go code that may panic *)

Module Go.

(** What a call does: it returns a value or it panics.  [OutOfFuel] is the
    third result of a loop of the embedding that was given too few steps; it
    stands for no behaviour of the program and is shown not to occur. *)
Inductive outcome (A : Type) : Type :=
  | Returns (a : A)
  | Panics
  | OutOfFuel.
Arguments Returns {A} a.
Arguments Panics {A}.
Arguments OutOfFuel {A}.

Definition bind {A B : Type} (m : outcome A) (k : A → outcome B) : outcome B :=
  match m with
  | Returns a => k a
  | Panics => Panics
  | OutOfFuel => OutOfFuel
  end.

(** [s[i]]: a run-time panic when [i] is out of range. *)
Definition index {A : Type} (s : list A) (i : nat) : outcome A :=
  match s !! i with
  | Some x => Returns x
  | None => Panics
  end.

(** [for i := range ...] over the positions [range], threading the variables
    of the enclosing function that the body assigns. *)
Fixpoint forRange {S : Type} (body : S → nat → outcome S) (range : list nat)
    (s : S) : outcome S :=
  match range with
  | [] => Returns s
  | i :: range => bind (body s i) (forRange body range)
  end.

End Go.

#[global] Instance outcome_bind : MBind Go.outcome := λ A B k m, Go.bind m k.

(** Closes a goal whose premise equates two different results. *)
Ltac other_result := let E := fresh "E" in intros E; discriminate E.

(** ** The chronological merge of event sequences *)

Module Merge.
Import Go.

(** The streams of the specification's example. *)
Definition streamA : list (Z * string) := [(1, "A"%string); (3, "A"%string)].
Definition streamB : list (Z * string) := [(2, "B"%string); (3, "B"%string)].

Section WithEvent.

(** The [Event] interface as far as the merge uses it: [e.Timestamp()], a
    [time.Time] taken as its instant, and [Before] on instants. *)
Context {Event : Type}.
Variable Timestamp : Event → Z.

Definition Before (t u : Z) : bool := t <? u.

(** The variables of [mergeSortEvents] that live across iterations. *)
Record vars : Type := mkVars {
  e : list (list Event);
  indices : list nat;
  min : nat;
  events : list Event
}.

(** Body of the inner loop [for i := range e]; [continue] leaves [min]. *)
Definition scanStep (e : list (list Event)) (indices : list nat)
    (min i : nat) : outcome nat :=
  curIndex ← index indices i;
  curEvents ← index e i;
  if (length curEvents =? 0)%nat then Returns min else
  cur ← index curEvents curIndex;
  curMinEvents ← index e min;
  minIndex ← index indices min;
  curMin ← index curMinEvents minIndex;
  if Before (Timestamp cur) (Timestamp curMin) then Returns i else Returns min.

Definition scan (e : list (list Event)) (indices : list nat) (min : nat)
  : outcome nat :=
  forRange (scanStep e indices) (seq 0 (length e)) min.

(** One iteration of the outer loop [for len(e) != 0]. *)
Definition iteration (v : vars) : outcome vars :=
  min ← scan (e v) (indices v) (min v);
  minEvents ← index (e v) min;
  minIndex ← index (indices v) min;
  events ← (if Z.of_nat (length minEvents) - 1 >=? Z.of_nat minIndex
            then x ← index minEvents minIndex; Returns (events v ++ [x])
            else Returns (events v));
  let indices := <[min := S minIndex]> (indices v) in
  if (length minEvents <=? S minIndex)%nat
  then Returns (mkVars (take min (e v) ++ drop (S min) (e v))
                       (take min indices ++ drop (S min) indices)
                       0 events)
  else Returns (mkVars (e v) indices min events).

Fixpoint loop (fuel : nat) (v : vars) : outcome (list Event) :=
  match e v with
  | [] => Returns (events v)
  | _ :: _ =>
      match fuel with
      | O => OutOfFuel
      | S fuel => v ← iteration v; loop fuel v
      end
  end.

(** Every iteration emits an event or drops a sequence. *)
Definition steps (e : list (list Event)) : nat :=
  (length (mjoin e) + length e)%nat.

Definition mergeSortEvents (e : list (list Event)) : outcome (list Event) :=
  loop (steps e) (mkVars e (replicate (length e) 0%nat) 0 []).

(** The element sequence [i] stands at: [e[i][indices[i]]]. *)
Definition current (e : list (list Event)) (indices : list nat) (i : nat)
  : option Event :=
  es ← e !! i; k ← indices !! i; es !! k.

(** What the scan of the first [k] sequences has selected. *)
Definition selected e indices (min k m : nat) : Prop :=
  ∃ x, current e indices m = Some x ∧
    (∀ i y, (i < k)%nat → current e indices i = Some y → Timestamp x ≤ Timestamp y) ∧
    (∀ y, current e indices min = Some y → Timestamp x ≤ Timestamp y) ∧
    (m = min ∨
     ((m < k)%nat ∧
      (∀ y, current e indices min = Some y → Timestamp x < Timestamp y) ∧
      (∀ i y, (i < m)%nat → current e indices i = Some y → Timestamp x < Timestamp y))).

(** The events not emitted yet. *)
Definition remaining (v : vars) : list Event :=
  mjoin (zip_with drop (indices v) (e v)).

Definition measure (v : vars) : nat :=
  (length (remaining v) + length (e v))%nat.

Definition leT (x y : Event) : Prop := Timestamp x ≤ Timestamp y.

(** Every sequence stands at one of its elements and is in ascending order
    of timestamps; the selected position is one of the sequences. *)
Definition ready (v : vars) : Prop :=
  Forall2 (λ k es, (k < length es)%nat ∧ StronglySorted leT es) (indices v) (e v) ∧
  ((min v < length (e v))%nat ∨ e v = []).

(** *** The selection step *)

Lemma forRange_app {S : Type} (body : S → nat → outcome S) (r1 r2 : list nat) s :
  forRange body (r1 ++ r2) s = forRange body r1 s ≫= forRange body r2.
Proof.
  revert s. induction r1 as [|i r1 IH]; intros s; simpl; [done|].
  destruct (body s i); simpl; [apply IH|done|done].
Qed.

Lemma index_Some {A : Type} (s : list A) (i : nat) (x : A) :
  s !! i = Some x → index s i = Returns x.
Proof. unfold index. by intros ->. Qed.

Lemma current_Some e indices i x :
  current e indices i = Some x →
  ∃ es k, e !! i = Some es ∧ indices !! i = Some k ∧ es !! k = Some x.
Proof.
  unfold current. intros H.
  destruct (e !! i) as [es|]; [|done]. simpl in H.
  destruct (indices !! i) as [k|]; [|done]. simpl in H. eauto.
Qed.

Lemma scanStep_current e indices min i c cm :
  current e indices i = Some c →
  current e indices min = Some cm →
  scanStep e indices min i
  = Returns (if Before (Timestamp c) (Timestamp cm) then i else min).
Proof.
  intros (es & k & He & Hk & Hc)%current_Some (ms & km & Hme & Hmk & Hm)%current_Some.
  unfold scanStep.
  rewrite (index_Some _ _ _ Hk). simpl.
  rewrite (index_Some _ _ _ He). simpl.
  destruct es as [|x es]; [done|]. simpl.
  rewrite (index_Some _ _ _ Hc). simpl.
  rewrite (index_Some _ _ _ Hme). simpl.
  rewrite (index_Some _ _ _ Hmk). simpl.
  rewrite (index_Some _ _ _ Hm). simpl.
  by destruct (Before _ _).
Qed.

Lemma scan_prefix e indices min k :
  (∀ i, (i < length e)%nat → is_Some (current e indices i)) →
  (min < length e)%nat →
  (k ≤ length e)%nat →
  ∃ m, forRange (scanStep e indices) (seq 0 k) min = Returns m ∧
       selected e indices min k m.
Proof.
  intros Hcur Hmin. induction k as [|k IH]; intros Hk.
  - exists min. split; [done|].
    destruct (Hcur min Hmin) as [x Hx]. exists x.
    split; [done|]. split; [lia|]. split; [|by left].
    intros y Hy. rewrite Hx in Hy. injection Hy as ->. lia.
  - destruct IH as (m & Hrun & x & Hx & Hle & Hlemin & Hfirst); [lia|].
    destruct (Hcur k ltac:(lia)) as [c Hc].
    rewrite seq_S, forRange_app, Hrun. simpl.
    rewrite (scanStep_current _ _ _ _ c x Hc Hx). simpl.
    unfold Before. destruct (Z.ltb_spec (Timestamp c) (Timestamp x)) as [Hlt|Hge].
    + exists k. split; [done|]. exists c. split; [done|].
      split; [|split].
      * intros i y Hi Hy. destruct (decide (i = k)) as [->|Hne].
        -- rewrite Hc in Hy. injection Hy as ->. lia.
        -- specialize (Hle i y ltac:(lia) Hy). lia.
      * intros y Hy. specialize (Hlemin y Hy). lia.
      * destruct (decide (k = min)) as [->|Hne]; [by left|right].
        split; [lia|]. split.
        -- intros y Hy. specialize (Hlemin y Hy). lia.
        -- intros i y Hi Hy. specialize (Hle i y Hi Hy). lia.
    + exists m. split; [done|]. exists x. split; [done|].
      split; [|split; [done|]].
      * intros i y Hi Hy. destruct (decide (i = k)) as [->|Hne].
        -- rewrite Hc in Hy. injection Hy as ->. lia.
        -- apply (Hle i y); [lia|done].
      * destruct Hfirst as [->|(Hmk & Hltmin & Hlt)]; [by left|right].
        split; [lia|]. done.
Qed.

(** The scan keeps the sequence it starts from unless another one stands at
    a strictly earlier timestamp; among those it takes the first. *)
Lemma scan_selects e indices min :
  (∀ i, (i < length e)%nat → is_Some (current e indices i)) →
  (min < length e)%nat →
  ∃ m x, scan e indices min = Returns m ∧
    current e indices m = Some x ∧
    (∀ i y, current e indices i = Some y → Timestamp x ≤ Timestamp y) ∧
    (∀ y, current e indices min = Some y → Timestamp y = Timestamp x → m = min) ∧
    (m ≠ min →
     ∀ i y, (i < m)%nat → current e indices i = Some y → Timestamp x < Timestamp y).
Proof.
  intros Hcur Hmin.
  destruct (scan_prefix e indices min (length e) Hcur Hmin ltac:(lia))
    as (m & Hrun & x & Hx & Hle & Hlemin & Hfirst).
  exists m, x. split; [done|]. split; [done|]. split; [|split].
  - intros i y Hy. apply (Hle i y); [|done].
    apply current_Some in Hy as (es & k & He & _). by apply lookup_lt_Some in He.
  - intros y Hy Heq. destruct Hfirst as [->|(_ & Hlt & _)]; [done|].
    specialize (Hlt y Hy). lia.
  - intros Hne. destruct Hfirst as [->|(_ & _ & Hlt)]; [done|]. done.
Qed.

(** *** One iteration of the outer loop *)

Lemma iteration_selected v m es k :
  scan (e v) (indices v) (min v) = Returns m →
  e v !! m = Some es →
  indices v !! m = Some k →
  iteration v = Returns
    (let events := match es !! k with
                   | Some x => events v ++ [x]
                   | None => events v
                   end in
     if (length es <=? S k)%nat
     then mkVars (delete m (e v)) (delete m (indices v)) 0 events
     else mkVars (e v) (<[m := S k]> (indices v)) m events).
Proof.
  intros Hscan He Hk. unfold iteration. rewrite Hscan. simpl.
  rewrite (index_Some _ _ _ He), (index_Some _ _ _ Hk). simpl.
  rewrite !delete_take_drop.
  rewrite take_insert_ge by lia. rewrite drop_insert_lt by lia.
  destruct (es !! k) as [x|] eqn:Hx.
  - apply lookup_lt_Some in Hx as Hlt.
    destruct (Z.geb_spec (Z.of_nat (length es) - 1) (Z.of_nat k)); [|lia].
    rewrite (index_Some _ _ _ Hx). simpl. by destruct (_ <=? _)%nat.
  - apply lookup_ge_None in Hx as Hge.
    destruct (Z.geb_spec (Z.of_nat (length es) - 1) (Z.of_nat k)); [lia|].
    simpl. by destruct (_ <=? _)%nat.
Qed.

Lemma iteration_Returns v v' :
  iteration v = Returns v' →
  ∃ m es k, scan (e v) (indices v) (min v) = Returns m ∧
            e v !! m = Some es ∧ indices v !! m = Some k.
Proof.
  unfold iteration. destruct (scan _ _ _) as [m| |]; simpl; [|done|done].
  unfold index.
  destruct (e v !! m) as [es|] eqn:He; simpl; [|done].
  destruct (indices v !! m) as [k|] eqn:Hk; simpl; [|done].
  intros _. by exists m, es, k.
Qed.

Lemma forRange_fuel {S : Type} (body : S → nat → outcome S) (range : list nat) s :
  (∀ s i, body s i ≠ OutOfFuel) → forRange body range s ≠ OutOfFuel.
Proof.
  intros Hbody. revert s. induction range as [|i range IH]; intros s; simpl; [done|].
  specialize (Hbody s i). destruct (body s i); simpl; [apply IH|done|done].
Qed.

Lemma scanStep_fuel e indices min i : scanStep e indices min i ≠ OutOfFuel.
Proof.
  unfold scanStep, index.
  repeat (match goal with
          | |- context [match ?l !! ?i with _ => _ end] => destruct (l !! i)
          | |- context [if ?b then _ else _] => destruct b
          end; simpl; try done).
Qed.

Lemma iteration_fuel v : iteration v ≠ OutOfFuel.
Proof.
  destruct (iteration v) as [v'| |] eqn:Hit; [done|done|].
  exfalso. revert Hit. unfold iteration.
  pose proof (forRange_fuel (scanStep (e v) (indices v))
                (seq 0 (length (e v))) (min v) (scanStep_fuel _ _)) as Hscan.
  fold (scan (e v) (indices v) (min v)) in Hscan.
  destruct (scan _ _ _) as [m| |]; simpl; [|done|done].
  unfold index.
  repeat (match goal with
          | |- context [match ?l !! ?i with _ => _ end] => destruct (l !! i)
          | |- context [if ?b then _ else _] => destruct b
          end; simpl; try done).
Qed.

Lemma remaining_middle (i1 i2 : list nat) (e1 e2 : list (list Event)) k es :
  length i1 = length e1 →
  mjoin (zip_with drop (i1 ++ k :: i2) (e1 ++ es :: e2))
  = mjoin (zip_with drop i1 e1) ++ drop k es ++ mjoin (zip_with drop i2 e2).
Proof. intros Hlen. by rewrite zip_with_app, join_app. Qed.

Lemma remaining_delete (i1 i2 : list nat) (e1 e2 : list (list Event)) :
  length i1 = length e1 →
  mjoin (zip_with drop (i1 ++ i2) (e1 ++ e2))
  = mjoin (zip_with drop i1 e1) ++ mjoin (zip_with drop i2 e2).
Proof. intros Hlen. by rewrite zip_with_app, join_app. Qed.

(** The variables after an iteration, with the sequences and their
    positions split at the selected sequence. *)
Lemma iteration_split v v' :
  length (indices v) = length (e v) →
  iteration v = Returns v' →
  ∃ m es k e1 e2 i1 i2,
    scan (e v) (indices v) (min v) = Returns m ∧
    e v = e1 ++ es :: e2 ∧ indices v = i1 ++ k :: i2 ∧
    length e1 = m ∧ length i1 = m ∧
    events v' = match es !! k with
                | Some x => events v ++ [x]
                | None => events v
                end ∧
    (((length es ≤ S k)%nat ∧ e v' = e1 ++ e2 ∧ indices v' = i1 ++ i2 ∧ min v' = 0%nat) ∨
     ((S k < length es)%nat ∧ e v' = e v ∧ indices v' = i1 ++ S k :: i2 ∧ min v' = m)).
Proof.
  intros Hlen Hit.
  destruct (iteration_Returns v v' Hit) as (m & es & k & Hscan & He & Hk).
  rewrite (iteration_selected v m es k Hscan He Hk) in Hit.
  injection Hit as <-.
  apply lookup_lt_Some in He as Hm. apply lookup_lt_Some in Hk as Hm'.
  exists m, es, k, (take m (e v)), (drop (S m) (e v)),
         (take m (indices v)), (drop (S m) (indices v)).
  split; [done|].
  split; [by rewrite take_drop_middle|].
  split; [by rewrite take_drop_middle|].
  split; [rewrite length_take; lia|].
  split; [rewrite length_take; lia|].
  simpl. destruct (Nat.leb_spec (length es) (S k)); simpl.
  - split; [done|]. left. by rewrite !delete_take_drop.
  - split; [done|]. right. split; [lia|]. split; [done|].
    split; [|done]. by apply insert_take_drop.
Qed.

Lemma iteration_measure v v' :
  length (indices v) = length (e v) →
  iteration v = Returns v' →
  length (indices v') = length (e v') ∧ (measure v' < measure v)%nat.
Proof.
  intros Hlen Hit.
  destruct (iteration_split v v' Hlen Hit)
    as (m & es & k & e1 & e2 & i1 & i2 & _ & He & Hi & Hl1 & Hl2 & _ & Hcase).
  assert (Hl12 : length i1 = length e1) by lia.
  assert (Hl22 : length i2 = length e2).
  { rewrite He, Hi in Hlen. rewrite !length_app in Hlen. simpl in Hlen. lia. }
  unfold measure, remaining. rewrite He, Hi, remaining_middle by done.
  destruct Hcase as [(Hk & -> & -> & _)|(Hk & -> & -> & _)].
  - rewrite remaining_delete by done. rewrite !length_app. simpl. lia.
  - rewrite He, remaining_middle by done.
    rewrite !length_app, !length_drop. simpl. lia.
Qed.

(** The next iteration starts its scan from the sequence selected by this
    one, or from the first sequence when a sequence was dropped. *)
Lemma iteration_carries v v' :
  length (indices v) = length (e v) →
  iteration v = Returns v' →
  ∃ m, scan (e v) (indices v) (min v) = Returns m ∧
       ((e v' = e v ∧ min v' = m) ∨
        (S (length (e v')) = length (e v) ∧ min v' = 0%nat)).
Proof.
  intros Hlen Hit.
  destruct (iteration_split v v' Hlen Hit)
    as (m & es & k & e1 & e2 & i1 & i2 & Hscan & He & _ & _ & _ & _ & Hcase).
  exists m. split; [done|].
  destruct Hcase as [(_ & -> & _ & ->)|(_ & -> & _ & ->)]; [right|by left].
  split; [|done]. rewrite He, !length_app. simpl. lia.
Qed.

(** The loop is given enough steps on every input. *)
Lemma loop_fuel (fuel : nat) (v : vars) :
  length (indices v) = length (e v) →
  (measure v ≤ fuel)%nat →
  loop fuel v ≠ OutOfFuel.
Proof.
  revert v. induction fuel as [|fuel IH]; intros v Hlen Hm.
  - unfold measure in Hm. destruct (e v) as [|es e'] eqn:He; simpl; rewrite He; [done|].
    simpl in Hm. lia.
  - pose proof (iteration_fuel v) as Hf.
    destruct (iteration v) as [v'| |] eqn:Hit; [| |done].
    + destruct (iteration_measure v v' Hlen Hit) as [Hlen' Hm'].
      simpl. rewrite Hit. destruct (e v); [done|]. simpl. apply IH; [done|lia].
    + simpl. rewrite Hit. by destruct (e v).
Qed.

Lemma measure_initial (e : list (list Event)) :
  measure (mkVars e (replicate (length e) 0%nat) 0 []) = steps e.
Proof.
  unfold measure, remaining, steps. simpl. f_equal. f_equal. f_equal.
  induction e as [|es e IH]; simpl; [done|]. by rewrite IH.
Qed.

Lemma mergeSortEvents_fuel (e : list (list Event)) :
  mergeSortEvents e ≠ OutOfFuel.
Proof.
  apply loop_fuel; simpl.
  - apply length_replicate.
  - by rewrite measure_initial.
Qed.

(** *** The selection step when the selected sequence is empty *)

Lemma scanStep_empty_min e indices i :
  e !! 0%nat = Some [] →
  (scanStep e indices 0 i = Returns 0%nat ∨ scanStep e indices 0 i = Panics) ∧
  (∀ x es, e !! i = Some (x :: es) → scanStep e indices 0 i = Panics).
Proof.
  intros H0. unfold scanStep, index. rewrite H0.
  destruct (indices !! i) as [k|]; simpl; [|by split; [right|]].
  destruct (e !! i) as [[|x es]|]; simpl; [by split; [left|]| |by split; [right|]].
  assert (Hp : (cur ← match (x :: es) !! k with
                      | Some c => Returns c
                      | None => Panics
                      end;
                minIndex ← match indices !! 0%nat with
                           | Some j => Returns j
                           | None => Panics
                           end;
                curMin ← match @nil Event !! minIndex with
                         | Some c => Returns c
                         | None => Panics
                         end;
                if Before (Timestamp cur) (Timestamp curMin)
                then Returns i else Returns 0%nat) = Panics).
  { destruct ((x :: es) !! k); simpl; [|done].
    destruct (indices !! 0%nat); simpl; done. }
  split; [by right|]. intros; done.
Qed.

Lemma scan_empty_min e indices range :
  e !! 0%nat = Some [] →
  (∃ i x es, i ∈ range ∧ e !! i = Some (x :: es)) →
  forRange (scanStep e indices) range 0%nat = Panics.
Proof.
  intros H0. induction range as [|j range IH]; intros (i & x & es & Hi & He).
  - by apply elem_of_nil in Hi.
  - simpl. destruct (scanStep_empty_min e indices j H0) as [[Hj|Hj] Hne].
    + rewrite Hj. simpl. apply IH.
      apply elem_of_cons in Hi as [->|Hi]; [|by eauto].
      rewrite (Hne x es He) in Hj. done.
    + by rewrite Hj.
Qed.

Lemma loop_scan_panics (fuel : nat) (v : vars) es e' :
  e v = es :: e' →
  scan (e v) (indices v) (min v) = Panics →
  loop (S fuel) v = Panics.
Proof. intros He Hs. simpl. rewrite He. unfold iteration. by rewrite Hs. Qed.

(** *** Sequences that all have a current element *)

#[local] Instance leT_trans : Transitive leT.
Proof. unfold leT. intros x y z ??. lia. Qed.

Lemma ready_current (idx : list nat) (es : list (list Event)) i :
  Forall2 (λ k es, (k < length es)%nat ∧ StronglySorted leT es) idx es →
  (i < length es)%nat →
  is_Some (current es idx i).
Proof.
  intros HF Hi. unfold current.
  destruct (lookup_lt_is_Some_2 es i Hi) as [s Hs]. rewrite Hs. simpl.
  destruct (Forall2_lookup_r _ _ _ _ _ HF Hs) as (k & Hk & Hlt & _).
  rewrite Hk. simpl. by apply lookup_lt_is_Some_2.
Qed.

Lemma ready_bound (idx : list nat) (es : list (list Event)) x :
  Forall2 (λ k es, (k < length es)%nat ∧ StronglySorted leT es) idx es →
  (∀ i y, current es idx i = Some y → Timestamp x ≤ Timestamp y) →
  Forall (leT x) (mjoin (zip_with drop idx es)).
Proof.
  intros HF. induction HF as [|k s idx es [Hk Hs] HF IH]; intros Hcur; simpl.
  - constructor.
  - apply Forall_app. split.
    + destruct (lookup_lt_is_Some_2 s k Hk) as [h Hh].
      rewrite <- (take_drop k s) in Hs. apply StronglySorted_app_1_r in Hs.
      rewrite (drop_S _ _ _ Hh) in Hs |- *.
      apply StronglySorted_inv in Hs as [_ Hs].
      assert (Hxh : leT x h) by (apply (Hcur 0%nat); exact Hh).
      constructor; [done|].
      eapply Forall_impl; [exact Hs|]. intros y Hy. by transitivity h.
    + apply IH. intros i y Hy. apply (Hcur (S i)). exact Hy.
Qed.

Lemma iteration_ready v :
  ready v → e v ≠ [] →
  ∃ v' x, iteration v = Returns v' ∧ ready v' ∧
          events v' = events v ++ [x] ∧
          remaining v ≡ₚ x :: remaining v' ∧
          Forall (leT x) (remaining v).
Proof.
  intros [HF Hmin] Hne. destruct Hmin as [Hmin|]; [|done].
  destruct (scan_selects (e v) (indices v) (min v)
              (λ i, ready_current _ _ i HF) Hmin)
    as (m & x & Hscan & Hx & Hle & _ & _).
  destruct (current_Some _ _ _ _ Hx) as (es & k & He & Hk & Hes).
  pose proof (iteration_selected v m es k Hscan He Hk) as Hit.
  rewrite Hes in Hit. cbv zeta in Hit.
  pose proof (Forall2_length _ _ _ HF) as Hlen.
  pose proof (ready_bound _ _ x HF Hle) as Hbound.
  apply lookup_lt_Some in He as Hm. apply lookup_lt_Some in Hk as Hm'.
  pose proof (take_drop_middle _ _ _ He) as Hesplit.
  pose proof (take_drop_middle _ _ _ Hk) as Hisplit.
  assert (Hl1 : length (take m (indices v)) = length (take m (e v))).
  { rewrite !length_take. lia. }
  rewrite <- Hesplit, <- Hisplit in HF.
  apply Forall2_app_inv in HF as [HF1 HF2]; [|done].
  apply Forall2_cons in HF2 as [[Hklt Hsorted] HF2].
  assert (Hrem : remaining v
                 = mjoin (zip_with drop (take m (indices v)) (take m (e v)))
                   ++ (x :: drop (S k) es)
                   ++ mjoin (zip_with drop (drop (S m) (indices v)) (drop (S m) (e v)))).
  { unfold remaining. rewrite <- Hesplit, <- Hisplit at 1.
    rewrite remaining_middle by done. by rewrite (drop_S _ _ _ Hes). }
  destruct (Nat.leb_spec (length es) (S k)) as [Hend|Hmore].
  - eexists _, x. split; [exact Hit|]. split; [|split; [done|split; [|done]]].
    + split; simpl.
      * rewrite !delete_take_drop. by apply Forall2_app.
      * destruct (delete m (e v)); [by right|left; simpl; lia].
    + rewrite Hrem. unfold remaining. simpl. rewrite !delete_take_drop.
      rewrite remaining_delete by done.
      rewrite (drop_ge es (S k)) by done. simpl.
      by rewrite <- Permutation_middle.
  - eexists _, x. split; [exact Hit|]. split; [|split; [done|split; [|done]]].
    + split; simpl; [|by left].
      rewrite insert_take_drop by done. rewrite <- Hesplit.
      apply Forall2_app; [done|]. apply Forall2_cons. done.
    + rewrite Hrem. unfold remaining. simpl.
      rewrite insert_take_drop by done.
      replace (zip_with drop (take m (indices v) ++ S k :: drop (S m) (indices v)) (e v))
        with (zip_with drop (take m (indices v) ++ S k :: drop (S m) (indices v))
                (take m (e v) ++ es :: drop (S m) (e v)))
        by (by rewrite Hesplit).
      rewrite remaining_middle by done.
      by rewrite <- Permutation_middle.
Qed.

Lemma loop_ready (fuel : nat) (v : vars) :
  ready v → (measure v ≤ fuel)%nat →
  ∃ out, loop fuel v = Returns (events v ++ out) ∧
         out ≡ₚ remaining v ∧ StronglySorted leT out.
Proof.
  revert v. induction fuel as [|fuel IH]; intros v Hready Hm.
  - exists []. unfold measure, remaining in *.
    destruct (e v) as [|es e'] eqn:He; simpl in *; rewrite He; [|lia].
    rewrite zip_with_nil_r, app_nil_r. split; [done|]. split; [done|constructor].
  - destruct (decide (e v = [])) as [He|Hne].
    + exists []. unfold remaining. simpl. rewrite He.
      rewrite zip_with_nil_r, app_nil_r. split; [done|]. split; [done|constructor].
    + destruct (iteration_ready v Hready Hne)
        as (v' & x & Hit & Hready' & Hev & Hperm & Hbound).
      destruct (iteration_measure v v' (Forall2_length _ _ _ (proj1 Hready)) Hit)
        as [_ Hm'].
      destruct (IH v' Hready' ltac:(lia)) as (out & Hloop & Hout & Hsorted).
      exists (x :: out). split; [|split].
      * simpl. destruct (e v); [done|]. rewrite Hit. simpl.
        rewrite Hloop, Hev, <- app_assoc. done.
      * by rewrite Hperm, Hout.
      * constructor; [done|]. rewrite Hout.
        rewrite Hperm in Hbound. by apply Forall_cons in Hbound as [_ ?].
Qed.

Lemma remaining_initial (e : list (list Event)) :
  remaining (mkVars e (replicate (length e) 0%nat) 0 []) = mjoin e.
Proof.
  unfold remaining. simpl. f_equal.
  induction e as [|es e IH]; simpl; [done|]. by rewrite IH.
Qed.

(** Sequences none of which is empty, each ascending, are merged into one
    ascending sequence with the same events. *)
Lemma mergeSortEvents_nonempty (e : list (list Event)) :
  Forall (λ es, es ≠ [] ∧ StronglySorted leT es) e →
  ∃ out, mergeSortEvents e = Returns out ∧
         out ≡ₚ mjoin e ∧ StronglySorted leT out.
Proof.
  intros He. unfold mergeSortEvents.
  destruct (loop_ready (steps e) (mkVars e (replicate (length e) 0%nat) 0 []))
    as (out & Hloop & Hperm & Hsorted).
  - split; simpl.
    + apply Forall2_replicate_l; [done|].
      eapply Forall_impl; [exact He|]. intros es [Hne Hs]. split; [|done].
      destruct es; [done|simpl; lia].
    + destruct e; [by right|left; simpl; lia].
  - by rewrite measure_initial.
  - exists out. rewrite remaining_initial in Hperm. done.
Qed.

(** *** The properties of the specification *)

(** C10.  When the first input sequence is empty and another one is not,
    the selection step of the first iteration reads the current element of
    the empty first sequence, which is out of range: the scan panics and so
    does the merge, which returns no merged sequence. *)
Theorem merge_panics_when_first_is_empty (rest : list (list Event)) :
  (∃ x es, (x :: es) ∈ rest) →
  index (@nil Event) 0 = Panics ∧
  scan ([] :: rest) (replicate (length ([] :: rest)) 0%nat) 0 = Panics ∧
  mergeSortEvents ([] :: rest) = Panics.
Proof.
  intros (x & es & Hin).
  assert (Hscan : scan ([] :: rest) (replicate (length ([] :: rest)) 0%nat) 0 = Panics).
  { apply scan_empty_min; [done|].
    apply list_elem_of_lookup in Hin as [j Hj].
    exists (S j), x, es. split; [|done].
    apply elem_of_seq. apply lookup_lt_Some in Hj. simpl. lia. }
  split; [done|]. split; [done|].
  unfold mergeSortEvents.
  destruct (steps ([] :: rest)) as [|fuel] eqn:Hsteps.
  - unfold steps in Hsteps. rewrite length_cons in Hsteps. lia.
  - by apply (loop_scan_panics fuel _ [] rest).
Qed.

End WithEvent.

Lemma merge_panics_when_first_is_empty_witness :
  (∃ x es, (x :: es) ∈ [streamB]) ∧
  index (@nil (Z * string)) 0 = Panics ∧
  scan fst ([] :: [streamB]) (replicate (length ([] :: [streamB])) 0%nat) 0 = Panics ∧
  mergeSortEvents fst ([] :: [streamB]) = Panics.
Proof.
  assert (H : ∃ x es, (x :: es) ∈ [streamB]).
  { exists (2, "B"%string), [(3, "B"%string)]. apply list_elem_of_here. }
  split; [exact H|]. exact (merge_panics_when_first_is_empty fst [streamB] H).
Defined.

(** C3 fails on the code: with an empty first sequence the merge panics
    instead of returning the events of the other sequences. *)
Theorem merge_of_empty_and_stream_panics :
  StronglySorted (leT fst) (@nil (Z * string)) ∧
  StronglySorted (leT fst) streamB ∧
  mergeSortEvents fst [[]; streamB] = Panics ∧
  mergeSortEvents fst [[(1, "C"%string)]; []; streamB] = Panics.
Proof.
  split; [constructor|]. split; [|by vm_compute].
  unfold streamB. repeat constructor; unfold leT; simpl; lia.
Qed.

(** The example of C4 as stated: the merge does not return the order in
    which the first-listed stream wins the tie at t=3. *)
Lemma merge_tie_not_first_listed :
  mergeSortEvents fst [streamA; streamB]
  ≠ Returns [(1, "A"); (2, "B"); (3, "A"); (3, "B")]%string.
Proof. by vm_compute. Qed.

(** C4, amended.  The merge starts from the first sequence.  The
    selection step keeps the sequence it starts from and replaces it only by
    a sequence standing at a strictly earlier timestamp; among several such
    it takes the first in input order.  The next selection starts from the
    sequence just selected, or from the first sequence when a sequence was
    used up and dropped.  So a tie is won by the sequence carried over when
    it takes part in the tie, and by the first-listed one otherwise.  On
    the example the merge returns (1,A), (2,B), (3,B), (3,A). *)
Theorem merge_tie_break {Event : Type} (Timestamp : Event → Z)
    (e : list (list Event)) (indices : list nat) (min : nat) :
  (∀ i, (i < length e)%nat → is_Some (current e indices i)) →
  (min < length e)%nat →
  (∃ m x, scan Timestamp e indices min = Returns m ∧
     current e indices m = Some x ∧
     (∀ i y, current e indices i = Some y → Timestamp x ≤ Timestamp y) ∧
     (∀ y, current e indices min = Some y → Timestamp y = Timestamp x → m = min) ∧
     (m ≠ min →
      ∀ i y, (i < m)%nat → current e indices i = Some y → Timestamp x < Timestamp y)) ∧
  (∃ fuel, mergeSortEvents Timestamp e
           = loop Timestamp fuel (mkVars e (replicate (length e) 0%nat) 0 [])) ∧
  (∀ v v' : vars,
     length (Merge.indices v) = length (Merge.e v) →
     iteration Timestamp v = Returns v' →
     ∃ m, scan Timestamp (Merge.e v) (Merge.indices v) (Merge.min v) = Returns m ∧
          ((Merge.e v' = Merge.e v ∧ Merge.min v' = m) ∨
           (S (length (Merge.e v')) = length (Merge.e v) ∧ Merge.min v' = 0%nat))) ∧
  mergeSortEvents fst [streamA; streamB]
  = Returns [(1, "A"); (2, "B"); (3, "B"); (3, "A")]%string.
Proof.
  intros Hcur Hmin. split; [by apply scan_selects|].
  split; [by eexists|]. split; [apply iteration_carries|by vm_compute].
Qed.

Lemma merge_tie_break_witness :
  (∀ i, (i < length [streamA; streamB])%nat →
        is_Some (current [streamA; streamB] [1%nat; 1%nat] i)) ∧
  (1 < length [streamA; streamB])%nat ∧
  (∃ m x, scan fst [streamA; streamB] [1%nat; 1%nat] 1 = Returns m ∧
     current [streamA; streamB] [1%nat; 1%nat] m = Some x ∧
     (∀ i y, current [streamA; streamB] [1%nat; 1%nat] i = Some y → x.1 ≤ y.1) ∧
     (∀ y, current [streamA; streamB] [1%nat; 1%nat] 1 = Some y → y.1 = x.1 → m = 1%nat) ∧
     (m ≠ 1%nat →
      ∀ i y, (i < m)%nat → current [streamA; streamB] [1%nat; 1%nat] i = Some y → x.1 < y.1)).
Proof.
  assert (H1 : ∀ i, (i < length [streamA; streamB])%nat →
                    is_Some (current [streamA; streamB] [1%nat; 1%nat] i)).
  { intros [|[|i]] Hi; [by eexists|by eexists|simpl in Hi; lia]. }
  assert (H2 : (1 < length [streamA; streamB])%nat) by (simpl; lia).
  split; [exact H1|]. split; [exact H2|].
  exact (proj1 (merge_tie_break fst [streamA; streamB] [1%nat; 1%nat] 1 H1 H2)).
Defined.

(** In the state of the example where both streams stand at t=3 and the
    second one was emitted from last, the second one is selected. *)
Example scan_tie_carried_over :
  scan fst [streamA; streamB] [1%nat; 1%nat] 1 = Returns 1%nat ∧
  scan fst [streamA; streamB] [1%nat; 1%nat] 0 = Returns 0%nat.
Proof. by vm_compute. Qed.

End Merge.

(** ** The dataset and the alert batcher (load test driver) *)

Module Batcher.
Import Go Hashing.

(** A [labels.Labels] value: the label set of one sample. *)
Definition Labels : Type := list Label.

(** Go [int] arithmetic: 64 bits, two's complement. *)
Definition wrap (z : Z) : Z := (z + 2 ^ 63) mod 2 ^ 64 - 2 ^ 63.

(** What [Get] does to its line source and to the parser. *)
Inductive effect : Type :=
  | ScanLine (line : string)      (* [Scan] returned true, [Text] is [line] *)
  | ScanEnd                       (* [Scan] returned false *)
  | Parse (b : list byte).        (* [textparse.New(b)] and its [Next] loop *)

(** [type Dataset struct]: the scanner as the lines it has not delivered
    yet, the slice [dataset] as its elements and the capacity it has beyond
    its length.  The mutex is not part of the sequential embedding. *)
Record Dataset : Type := mkDataset {
  scanner : list string;
  dataset : list Labels;
  spare : nat
}.

(** [NewDataset] *)
Definition NewDataset (lines : list string) : Dataset := mkDataset lines [] 0.

(** The slice expression [d.dataset[from:to]] on a slice of pointers: the
    bounds are checked against the capacity, and the entries between the
    length and the capacity, which were never assigned, are nil ([None]). *)
Definition slice (s : list Labels) (spare : nat) (from to : Z)
  : outcome (list (option Labels)) :=
  if (0 <=? from) && (from <=? to) && (to <=? Z.of_nat (length s + spare))
  then Returns (take (Z.to_nat (to - from))
                  (drop (Z.to_nat from) ((Some <$> s) ++ replicate spare None)))
  else Panics.

(** The loop [for d.scanner.Scan() { ... }] of [Get]. *)
Fixpoint readLines (scanner : list string) (linesToRead : Z) (b : list byte)
  : list string * list byte * list effect :=
  match scanner with
  | [] => ([], b, [ScanEnd])
  | line :: scanner =>
      let b := (b ++ bytesOf line) ++ [x0a] in
      let linesToRead := linesToRead - 1 in
      if linesToRead =? 0 then (scanner, b, [ScanLine line])
      else let '(scanner, b, effects) := readLines scanner linesToRead b in
           (scanner, b, ScanLine line :: effects)
  end.

(** The bytes [Get] hands to the parser for the lines it has read. *)
Definition rawBytes (lines : list string) : list byte :=
  mjoin ((λ line, bytesOf line ++ [x0a]) <$> lines).

(** The lines a call took from the source, and the inputs of the parser. *)
Definition linesRead (effects : list effect) : list string :=
  omap (λ f, match f with ScanLine line => Some line | _ => None end) effects.

Definition parserInputs (effects : list effect) : list (list byte) :=
  omap (λ f, match f with Parse b => Some b | _ => None end) effects.

(** [type AlertProducer struct]; the dataset it points to is passed along. *)
Record AlertProducer : Type := mkAlertProducer {
  index : Z;
  batch : Z;
  interval : Z;
  batchRepeated : Z
}.

Definition inInt (z : Z) : Prop := - 2 ^ 63 ≤ z < 2 ^ 63.

(** The statement [if p.batchRepeated == p.interval { ... }] that opens
    [makeAlerts]. *)
Definition rotated (p : AlertProducer) : AlertProducer :=
  if batchRepeated p =? interval p
  then mkAlertProducer (wrap (index p + batch p)) (batch p) (interval p) 0
  else p.

(** The alerts of the window [from, to) of the materialized label sets. *)
Definition window (materialized : list Labels) (from to : Z) : list Alert :=
  alertOfLabels <$> take (Z.to_nat (to - from)) (drop (Z.to_nat from) materialized).

(** *** A parser and a growth policy to run the embedding with *)

(** The lines of [b], each up to its line feed. *)
Fixpoint sampleLines (b : list byte) (cur : list byte) : list (list byte) :=
  match b with
  | [] => []
  | x :: b =>
      if Byte.eqb x x0a then cur :: sampleLines b []
      else sampleLines b (cur ++ [x])
  end.

(** A stand-in for the exposition-format parser on inputs whose every line
    is one sample: the label set of a line is its text under [__name__]. *)
Definition bareMetrics (b : list byte) : list Labels :=
  (λ line, [mkLabel "__name__" (string_of_list_byte line)]) <$> sampleLines b [].

(** A stand-in for the growth of [append]: the capacity doubles when that
    is enough, and is the needed length otherwise. *)
Definition doubling (cap needed : nat) : nat := (Nat.max (2 * cap) needed - needed)%nat.

Definition noLineFeed (line : string) : Prop := x0a ∉ bytesOf line.

(** Ten samples, and the batcher of the specification's example. *)
Definition tenLines : list string :=
  ["m0"; "m1"; "m2"; "m3"; "m4"; "m5"; "m6"; "m7"; "m8"; "m9"]%string.

Definition fiveByThree : AlertProducer := mkAlertProducer 0 5 3 0.

Section WithParser.

(** [textparse.New(b)] with the loop over [Next] and [Metric]: the label
    sets of the samples of [b], in order. *)
Variable parse : list byte → list Labels.

(** The capacity [append] leaves beyond the new length when it has to move
    a slice of the given capacity to hold the given length. *)
Variable grow : nat → nat → nat.

(** [append(s, new...)] as far as length and capacity go. *)
Definition appendSpare (len spare new : nat) : nat :=
  if (new <=? spare)%nat then (spare - new)%nat
  else grow (len + spare) (len + new).

(** [Dataset.Get]: the dataset after the call, what the call did to the
    source and the parser, and its result. *)
Definition Get (d : Dataset) (from to : Z)
  : Dataset * list effect * outcome (list (option Labels)) :=
  if to <=? Z.of_nat (length (dataset d))
  then (d, [], slice (dataset d) (spare d) from to)
  else
    let linesToRead := to - Z.of_nat (length (dataset d)) in
    let '(scanner, b, effects) := readLines (scanner d) linesToRead [] in
    let labelsets := parse b in
    let d := mkDataset scanner (dataset d ++ labelsets)
               (appendSpare (length (dataset d)) (spare d) (length labelsets)) in
    (d, effects ++ [Parse b], slice (dataset d) (spare d) from to).

(** The loop of [makeAlerts] over the label sets; [*labels] panics on nil. *)
Fixpoint alertsOf (labelsets : list (option Labels)) (alerts : list Alert)
  : outcome (list Alert) :=
  match labelsets with
  | [] => Returns alerts
  | None :: _ => Panics
  | Some labels :: labelsets => alertsOf labelsets (alerts ++ [alertOfLabels labels])
  end.

(** [AlertProducer.makeAlerts] *)
Definition makeAlerts (p : AlertProducer) (d : Dataset)
  : outcome (list Alert * AlertProducer * Dataset) :=
  let p := rotated p in
  let '(d, _, labelsets) := Get d (index p) (wrap (index p + batch p)) in
  labelsets ← labelsets;
  alerts ← alertsOf labelsets [];
  Returns (alerts,
           mkAlertProducer (index p) (batch p) (interval p) (wrap (batchRepeated p + 1)),
           d).

(** [n] calls of [makeAlerts] in a row, as [fireAlerts] makes them: the
    batches returned, oldest first, and the state after the last call. *)
Fixpoint calls (n : nat) (p : AlertProducer) (d : Dataset)
  : outcome (list (list Alert) * AlertProducer * Dataset) :=
  match n with
  | O => Returns ([], p, d)
  | S n =>
      '(alerts, p, d) ← makeAlerts p d;
      '(batches, p, d) ← calls n p d;
      Returns (alerts :: batches, p, d)
  end.

(** The parser returns one label set for each line of any run of [lines]. *)
Definition onePerLine (lines : list string) : Prop :=
  ∀ i n, length (parse (rawBytes (take n (drop i lines))))
         = length (take n (drop i lines)).

(** The parser returns the label set [f line] for each line of any run of
    [lines]. *)
Definition lineWise (f : string → Labels) (lines : list string) : Prop :=
  ∀ i n, parse (rawBytes (take n (drop i lines))) = f <$> take n (drop i lines).

(** The label sets a dataset holds or can still read, with such a parser:
    those it has materialized, then those of the lines left in the source. *)
Definition supply (f : string → Labels) (d : Dataset) : list Labels :=
  dataset d ++ (f <$> scanner d).

(** The dataset [d'] is [d] after calls of [Get]: runs of lines were taken
    from the front of the source, one run after the other, and what the
    parser returned for the bytes of each run was appended to the
    materialized label sets. *)
Definition drawn (d d' : Dataset) : Prop :=
  ∃ runs : list (list string),
    scanner d = mjoin runs ++ scanner d' ∧
    dataset d' = dataset d ++ mjoin ((λ run, parse (rawBytes run)) <$> runs).

(** *** Reading on demand *)

Lemma readLines_enough (scanner : list string) (k : Z) (b : list byte) :
  1 ≤ k → k ≤ Z.of_nat (length scanner) →
  readLines scanner k b
  = (drop (Z.to_nat k) scanner,
     b ++ rawBytes (take (Z.to_nat k) scanner),
     ScanLine <$> take (Z.to_nat k) scanner).
Proof.
  revert k b. induction scanner as [|line scanner IH]; intros k b Hk Hlen.
  - simpl in Hlen. lia.
  - simpl. destruct (Z.eqb_spec (k - 1) 0) as [Hone|Hmore].
    + replace (Z.to_nat k) with 1%nat by lia. unfold rawBytes. simpl.
      rewrite drop_0, app_nil_r. by rewrite <- app_assoc.
    + rewrite (IH (k - 1) _) by (simpl in Hlen; lia).
      replace (Z.to_nat k) with (S (Z.to_nat (k - 1))) by lia.
      unfold rawBytes. simpl. by rewrite <- !app_assoc.
Qed.

Lemma readLines_short (scanner : list string) (k : Z) (b : list byte) :
  Z.of_nat (length scanner) < k →
  readLines scanner k b
  = ([], b ++ rawBytes scanner, (ScanLine <$> scanner) ++ [ScanEnd]).
Proof.
  revert k b. induction scanner as [|line scanner IH]; intros k b Hlen.
  - unfold rawBytes. simpl. by rewrite app_nil_r.
  - simpl. simpl in Hlen. destruct (Z.eqb_spec (k - 1) 0) as [Hone|Hmore]; [lia|].
    rewrite (IH (k - 1) _) by lia.
    unfold rawBytes. simpl. by rewrite <- !app_assoc.
Qed.

Lemma linesRead_scanned (lines : list string) (rest : list effect) :
  linesRead ((ScanLine <$> lines) ++ rest) = lines ++ linesRead rest.
Proof. induction lines as [|line lines IH]; simpl; [done|]. by rewrite <- IH. Qed.

Lemma parserInputs_scanned (lines : list string) (rest : list effect) :
  parserInputs ((ScanLine <$> lines) ++ rest) = parserInputs rest.
Proof. induction lines as [|line lines IH]; simpl; done. Qed.

Lemma Get_cached (d : Dataset) (from to : Z) :
  to ≤ Z.of_nat (length (dataset d)) →
  Get d from to = (d, [], slice (dataset d) (spare d) from to).
Proof. intros Hto. unfold Get. by destruct (Z.leb_spec to (Z.of_nat (length (dataset d)))); [|lia]. Qed.

Lemma Get_grows (d : Dataset) (from to : Z) :
  Z.of_nat (length (dataset d)) < to →
  to - Z.of_nat (length (dataset d)) ≤ Z.of_nat (length (scanner d)) →
  let k := Z.to_nat (to - Z.of_nat (length (dataset d))) in
  let new := take k (scanner d) in
  let labelsets := parse (rawBytes new) in
  let sp := appendSpare (length (dataset d)) (spare d) (length labelsets) in
  Get d from to
  = (mkDataset (drop k (scanner d)) (dataset d ++ labelsets) sp,
     (ScanLine <$> new) ++ [Parse (rawBytes new)],
     slice (dataset d ++ labelsets) sp from to).
Proof.
  intros Hto Hlines. unfold Get.
  destruct (Z.leb_spec to (Z.of_nat (length (dataset d)))); [lia|].
  rewrite readLines_enough; [reflexivity|lia|lia].
Qed.

(** When the source runs out, every remaining line is read. *)
Lemma Get_exhausts (d : Dataset) (from to : Z) :
  Z.of_nat (length (scanner d)) < to - Z.of_nat (length (dataset d)) →
  ∃ d' res,
    Get d from to
    = (d', (ScanLine <$> scanner d) ++ [ScanEnd; Parse (rawBytes (scanner d))], res) ∧
    scanner d' = [] ∧ dataset d' = dataset d ++ parse (rawBytes (scanner d)).
Proof.
  intros Hlines. unfold Get.
  destruct (Z.leb_spec to (Z.of_nat (length (dataset d)))); [lia|].
  rewrite readLines_short; [|lia]. simpl.
  eexists _, _. split; [by rewrite <- app_assoc|]. done.
Qed.

(** *** Serving a window *)

Lemma wrap_id (z : Z) : - 2 ^ 63 ≤ z < 2 ^ 63 → wrap z = z.
Proof. intros Hz. unfold wrap. rewrite Z.mod_small; lia. Qed.

Lemma onePerLine_drop (lines : list string) (j : nat) :
  onePerLine lines → onePerLine (drop j lines).
Proof. intros H i n. rewrite drop_drop. apply H. Qed.

Lemma slice_materialized (s : list Labels) (sp : nat) (from to : Z) :
  0 ≤ from → from ≤ to → to ≤ Z.of_nat (length s) →
  slice s sp from to
  = Returns (Some <$> take (Z.to_nat (to - from)) (drop (Z.to_nat from) s)).
Proof.
  intros Hfrom Hto Hlen. unfold slice.
  destruct (Z.leb_spec 0 from); [|lia].
  destruct (Z.leb_spec from to); [|lia].
  destruct (Z.leb_spec to (Z.of_nat (length s + sp))); [|lia]. simpl.
  f_equal. rewrite drop_app_le by (rewrite length_fmap; lia).
  rewrite take_app_le by (rewrite length_drop, length_fmap; lia).
  by rewrite fmap_take, fmap_drop.
Qed.

Lemma alertsOf_Some (ls : list Labels) (alerts : list Alert) :
  alertsOf (Some <$> ls) alerts = Returns (alerts ++ (alertOfLabels <$> ls)).
Proof.
  revert alerts. induction ls as [|l ls IH]; intros alerts; simpl.
  - by rewrite app_nil_r.
  - rewrite IH. by rewrite <- app_assoc.
Qed.

Lemma window_stable (D extra : list Labels) (from to : Z) :
  0 ≤ from → to ≤ Z.of_nat (length D) ∨ to ≤ from →
  window (D ++ extra) from to = window D from to.
Proof.
  intros Hfrom Hto. unfold window. f_equal.
  destruct (Z.lt_ge_cases from to) as [Hlt|Hge].
  - rewrite drop_app_le by lia. rewrite take_app_le; [done|].
    rewrite length_drop. lia.
  - by replace (Z.to_nat (to - from)) with 0%nat by lia.
Qed.

(** A window that the materialized label sets and the source together can
    supply is returned, and the dataset only grows at its end. *)
Lemma Get_serves (d : Dataset) (from to : Z) :
  onePerLine (scanner d) →
  0 ≤ from → from ≤ to →
  to ≤ Z.of_nat (length (dataset d) + length (scanner d)) →
  ∃ d' effects,
    Get d from to
    = (d', effects,
       Returns (Some <$> take (Z.to_nat (to - from)) (drop (Z.to_nat from) (dataset d')))) ∧
    (∃ extra, dataset d' = dataset d ++ extra) ∧
    onePerLine (scanner d') ∧
    (length (dataset d') + length (scanner d') = length (dataset d) + length (scanner d))%nat ∧
    to ≤ Z.of_nat (length (dataset d')).
Proof.
  intros Hparse Hfrom Hto Havail.
  destruct (Z.le_gt_cases to (Z.of_nat (length (dataset d)))) as [Hcache|Hgrow].
  - exists d, []. rewrite Get_cached by done.
    rewrite slice_materialized by done.
    split; [done|]. split; [by exists []; rewrite app_nil_r|]. done.
  - eexists _, _. rewrite Get_grows by lia. cbv zeta.
    pose proof (Hparse 0%nat (Z.to_nat (to - Z.of_nat (length (dataset d))))) as Hk.
    rewrite drop_0, length_take in Hk.
    rewrite slice_materialized; [|done|done|rewrite length_app, Hk; lia].
    split; [apply (f_equal2 pair); reflexivity|]. simpl. split; [by eexists|].
    split; [by apply onePerLine_drop|].
    rewrite length_app, Hk, length_drop. lia.
Qed.

(** A call that does not rotate. *)
Lemma makeAlerts_repeats (p : AlertProducer) (d : Dataset) :
  batchRepeated p ≠ interval p →
  onePerLine (scanner d) →
  0 ≤ index p → 0 ≤ batch p → index p + batch p < 2 ^ 63 →
  index p + batch p ≤ Z.of_nat (length (dataset d) + length (scanner d)) →
  0 ≤ batchRepeated p < 2 ^ 63 - 1 →
  ∃ d',
    makeAlerts p d
    = Returns (window (dataset d') (index p) (index p + batch p),
               mkAlertProducer (index p) (batch p) (interval p) (batchRepeated p + 1),
               d') ∧
    (∃ extra, dataset d' = dataset d ++ extra) ∧
    onePerLine (scanner d') ∧
    (length (dataset d') + length (scanner d') = length (dataset d) + length (scanner d))%nat ∧
    index p + batch p ≤ Z.of_nat (length (dataset d')).
Proof.
  intros Hrot Hparse Hc Hb Hmax Havail Hrep. unfold makeAlerts, rotated.
  destruct (Z.eqb_spec (batchRepeated p) (interval p)); [done|].
  rewrite !wrap_id by lia.
  destruct (Get_serves d (index p) (index p + batch p) Hparse)
    as (d' & effects & HGet & Hext & Hparse' & Hcons & Hlen); [lia..|].
  exists d'. rewrite HGet. simpl. rewrite alertsOf_Some. simpl.
  split; [done|]. done.
Qed.

(** A call that rotates. *)
Lemma makeAlerts_rotates (p : AlertProducer) (d : Dataset) :
  batchRepeated p = interval p →
  onePerLine (scanner d) →
  0 ≤ index p → 0 ≤ batch p → index p + 2 * batch p < 2 ^ 63 →
  index p + 2 * batch p ≤ Z.of_nat (length (dataset d) + length (scanner d)) →
  ∃ d',
    makeAlerts p d
    = Returns (window (dataset d') (index p + batch p) (index p + 2 * batch p),
               mkAlertProducer (index p + batch p) (batch p) (interval p) 1,
               d') ∧
    (∃ extra, dataset d' = dataset d ++ extra) ∧
    onePerLine (scanner d') ∧
    (length (dataset d') + length (scanner d') = length (dataset d) + length (scanner d))%nat ∧
    index p + 2 * batch p ≤ Z.of_nat (length (dataset d')).
Proof.
  intros Hrot Hparse Hc Hb Hmax Havail. unfold makeAlerts, rotated.
  destruct (Z.eqb_spec (batchRepeated p) (interval p)); [|done].
  simpl. rewrite !wrap_id by lia.
  destruct (Get_serves d (index p + batch p) (index p + batch p + batch p) Hparse)
    as (d' & effects & HGet & Hext & Hparse' & Hcons & Hlen); [lia..|].
  exists d'. rewrite HGet. simpl. rewrite alertsOf_Some. simpl.
  replace (index p + batch p + batch p) with (index p + 2 * batch p) in * by lia.
  split; [done|]. done.
Qed.

Lemma calls_app (n m : nat) (p : AlertProducer) (d : Dataset) :
  calls (n + m) p d
  = '(b1, p, d) ← calls n p d;
    '(b2, p, d) ← calls m p d;
    Returns (b1 ++ b2, p, d).
Proof.
  revert p d. induction n as [|n IH]; intros p d; simpl.
  - destruct (calls m p d) as [[[b2 p2] d2]| |]; done.
  - destruct (makeAlerts p d) as [[[a p1] d1]| |]; simpl; [|done|done].
    rewrite IH.
    destruct (calls n p1 d1) as [[[b1 p2] d2]| |]; simpl; [|done|done].
    destruct (calls m p2 d2) as [[[b2 p3] d3]| |]; done.
Qed.

(** [n] calls none of which rotates serve the same window [n] times. *)
Lemma calls_repeat (n : nat) (p : AlertProducer) (d : Dataset) :
  batchRepeated p + Z.of_nat n ≤ interval p →
  interval p < 2 ^ 63 →
  onePerLine (scanner d) →
  0 ≤ index p → 0 ≤ batch p → index p + batch p < 2 ^ 63 →
  index p + batch p ≤ Z.of_nat (length (dataset d) + length (scanner d)) →
  0 ≤ batchRepeated p →
  ∃ d',
    calls n p d
    = Returns (replicate n (window (dataset d') (index p) (index p + batch p)),
               mkAlertProducer (index p) (batch p) (interval p)
                 (batchRepeated p + Z.of_nat n),
               d') ∧
    (∃ extra, dataset d' = dataset d ++ extra) ∧
    onePerLine (scanner d') ∧
    (length (dataset d') + length (scanner d') = length (dataset d) + length (scanner d))%nat ∧
    (n ≠ 0%nat → index p + batch p ≤ Z.of_nat (length (dataset d'))).
Proof.
  revert p d. induction n as [|n IH]; intros p d Hn Hint Hparse Hc Hb Hmax Havail Hrep.
  - exists d. simpl. rewrite Z.add_0_r. destruct p. simpl.
    split; [done|]. split; [by exists []; rewrite app_nil_r|]. done.
  - destruct (makeAlerts_repeats p d) as (d1 & Hcall & [ex1 Hex1] & Hp1 & Hcons1 & Hlen1);
      [lia|done|done|done|done|done|lia|].
    destruct (IH (mkAlertProducer (index p) (batch p) (interval p) (batchRepeated p + 1)) d1)
      as (d2 & Hcalls & [ex2 Hex2] & Hp2 & Hcons2 & Hlen2); simpl; [lia|done|done|done|done|done|lia|lia|].
    assert (HW : window (dataset d1) (index p) (index p + batch p)
                 = window (dataset d2) (index p) (index p + batch p)).
    { rewrite Hex2. symmetry. apply window_stable; [done|by left]. }
    exists d2. simpl in *. rewrite Hcall. simpl. rewrite Hcalls. simpl.
    split; [|split; [|split; [done|split; [lia|]]]].
    + rewrite HW.
      by replace (batchRepeated p + 1 + Z.of_nat n)
           with (batchRepeated p + Z.of_nat (S n)) by lia.
    + exists (ex1 ++ ex2). by rewrite Hex2, Hex1, <- app_assoc.
    + intros _. rewrite Hex2, length_app. lia.
Qed.

(** *** What a call that returns has served *)

Lemma slice_Returns (s : list Labels) (sp : nat) (from to : Z) l :
  slice s sp from to = Returns l →
  0 ≤ from ∧ from ≤ to ∧ to ≤ Z.of_nat (length s + sp) ∧
  l = take (Z.to_nat (to - from))
        (drop (Z.to_nat from) ((Some <$> s) ++ replicate sp None)).
Proof.
  unfold slice.
  destruct (Z.leb_spec 0 from); [|other_result].
  destruct (Z.leb_spec from to); [|other_result].
  destruct (Z.leb_spec to (Z.of_nat (length s + sp))); [|other_result].
  simpl. intros [= <-]. done.
Qed.

Lemma alertsOf_Returns (l : list (option Labels)) (acc alerts : list Alert) :
  alertsOf l acc = Returns alerts →
  ∃ ls, l = Some <$> ls ∧ alerts = acc ++ (alertOfLabels <$> ls).
Proof.
  revert acc. induction l as [|[labels|] l IH]; intros acc; simpl.
  - intros [= <-]. exists []. by rewrite app_nil_r.
  - intros (ls & -> & ->)%IH. exists (labels :: ls). by rewrite <- app_assoc.
  - other_result.
Qed.

(** A slice without nil entries lies within the length, or is empty. *)
Lemma slice_no_nil (s : list Labels) (sp : nat) (from to : Z) (ls : list Labels) :
  0 ≤ from → from ≤ to → to ≤ Z.of_nat (length s + sp) →
  take (Z.to_nat (to - from))
    (drop (Z.to_nat from) ((Some <$> s) ++ replicate sp None)) = Some <$> ls →
  ls = take (Z.to_nat (to - from)) (drop (Z.to_nat from) s) ∧
  (to ≤ Z.of_nat (length s) ∨ to = from).
Proof.
  intros Hfrom Hto Hcap Heq.
  destruct (Z.le_gt_cases to (Z.of_nat (length s))) as [Hlen|Hlen].
  - split; [|by left]. apply (inj (fmap Some)). rewrite <- Heq.
    rewrite drop_app_le by (rewrite length_fmap; lia).
    rewrite take_app_le by (rewrite length_drop, length_fmap; lia).
    by rewrite fmap_take, fmap_drop.
  - destruct (decide (to = from)) as [->|Hne].
    + split; [|by right]. rewrite Z.sub_diag in Heq |- *. simpl in *.
      symmetry in Heq. by apply fmap_nil_inv in Heq.
    + exfalso.
      assert (Hlast : (take (Z.to_nat (to - from))
                         (drop (Z.to_nat from) ((Some <$> s) ++ replicate sp None)))
                      !! (Z.to_nat (to - from) - 1)%nat = Some None).
      { rewrite lookup_take_lt by lia. rewrite lookup_drop.
        rewrite lookup_app_r by (rewrite length_fmap; lia).
        apply lookup_replicate_2. rewrite length_fmap. lia. }
      rewrite Heq, list_lookup_fmap in Hlast.
      destruct (ls !! _); discriminate Hlast.
Qed.

Lemma Get_result (d d' : Dataset) (from to : Z) effects res :
  Get d from to = (d', effects, res) →
  (∃ extra, dataset d' = dataset d ++ extra) ∧
  res = slice (dataset d') (spare d') from to.
Proof.
  unfold Get. destruct (to <=? Z.of_nat (length (dataset d))).
  - intros [= <- _ <-]. split; [by exists []; rewrite app_nil_r|done].
  - destruct (readLines _ _ _) as [[sc b] eff].
    intros [= <- _ <-]. simpl. split; [by eexists|done].
Qed.

Lemma wrap_inInt (z : Z) : inInt (wrap z).
Proof.
  unfold inInt, wrap.
  pose proof (Z.mod_pos_bound (z + 2 ^ 63) (2 ^ 64)). lia.
Qed.

(** The sum of two [int] values either is an [int] or wraps around once. *)
Lemma wrap_add (a b : Z) :
  inInt a → inInt b →
  (inInt (a + b) ∧ wrap (a + b) = a + b) ∨
  (2 ^ 63 ≤ a + b ∧ wrap (a + b) = a + b - 2 ^ 64) ∨
  (a + b < - 2 ^ 63 ∧ wrap (a + b) = a + b + 2 ^ 64).
Proof.
  unfold inInt, wrap. intros Ha Hb.
  destruct (Z.lt_ge_cases (a + b) (- 2 ^ 63)) as [Hlow|Hlow].
  - right. right. split; [done|].
    rewrite <- (Z.mod_unique_pos (a + b + 2 ^ 63) (2 ^ 64) (-1) (a + b + 2 ^ 63 + 2 ^ 64));
      lia.
  - destruct (Z.lt_ge_cases (a + b) (2 ^ 63)) as [Hhigh|Hhigh].
    + left. split; [lia|]. rewrite Z.mod_small; lia.
    + right. left. split; [done|].
      rewrite <- (Z.mod_unique_pos (a + b + 2 ^ 63) (2 ^ 64) 1 (a + b + 2 ^ 63 - 2 ^ 64));
        lia.
Qed.

Lemma rotated_fields (p : AlertProducer) :
  inInt (index p) →
  inInt (index (rotated p)) ∧ batch (rotated p) = batch p ∧
  interval (rotated p) = interval p.
Proof.
  intros Hi. unfold rotated. destruct (_ =? _); simpl; [|done].
  split; [apply wrap_inInt|done].
Qed.

Lemma makeAlerts_Returns (p p' : AlertProducer) (d d' : Dataset) alerts :
  inInt (index p) → inInt (batch p) →
  makeAlerts p d = Returns (alerts, p', d') →
  let q := rotated p in
  0 ≤ index q ∧ 0 ≤ batch q ∧ index q + batch q < 2 ^ 63 ∧
  alerts = window (dataset d') (index q) (index q + batch q) ∧
  (index q + batch q ≤ Z.of_nat (length (dataset d')) ∨ batch q = 0) ∧
  p' = mkAlertProducer (index q) (batch q) (interval q) (wrap (batchRepeated q + 1)) ∧
  (∃ extra, dataset d' = dataset d ++ extra).
Proof.
  intros Hi Hb. unfold makeAlerts.
  destruct (rotated_fields p Hi) as (Hiq & Hbq & _).
  rewrite <- Hbq in Hb. clear Hbq Hi.
  set (q := rotated p) in *. cbv zeta.
  destruct (Get d (index q) (wrap (index q + batch q))) as [[d1 effects] res] eqn:HGet.
  apply Get_result in HGet as [Hext ->].
  destruct (slice _ _ _ _) as [l| |] eqn:Hslice; simpl; [|other_result..].
  destruct (alertsOf l []) as [out| |] eqn:Hal; simpl; [|other_result..].
  intros [= <- <- <-].
  apply slice_Returns in Hslice as (Hfrom & Hto & Hcap & ->).
  apply alertsOf_Returns in Hal as (ls & Hls & ->).
  destruct (slice_no_nil _ _ _ _ ls Hfrom Hto Hcap Hls) as [-> Hin].
  destruct (wrap_add (index q) (batch q) Hiq Hb)
    as [[Hsum Hwrap]|[[Hsum Hwrap]|[Hsum Hwrap]]];
    unfold inInt in *; rewrite Hwrap in *; [|lia|lia].
  split; [done|]. split; [lia|]. split; [lia|]. split; [done|].
  split; [|done]. destruct Hin as [?|?]; [by left|right; lia].
Qed.

(** *** What the calls take from the source *)

Lemma readLines_conserves (scanner : list string) (k : Z) (b : list byte) :
  let '(scanner', b', effects) := readLines scanner k b in
  scanner = linesRead effects ++ scanner' ∧
  b' = b ++ rawBytes (linesRead effects) ∧
  parserInputs effects = [].
Proof.
  revert k b. induction scanner as [|line scanner IH]; intros k b; simpl.
  - unfold rawBytes. simpl. by rewrite app_nil_r.
  - destruct (k - 1 =? 0).
    + unfold rawBytes. simpl. by rewrite app_nil_r, <- app_assoc.
    + specialize (IH (k - 1) ((b ++ bytesOf line) ++ [x0a])).
      destruct (readLines scanner (k - 1) ((b ++ bytesOf line) ++ [x0a]))
        as [[scanner' b'] effects].
      destruct IH as (-> & -> & Hnone). simpl.
      split; [done|]. split; [|done].
      unfold rawBytes. simpl. by rewrite <- !app_assoc.
Qed.

Lemma linesRead_app (f1 f2 : list effect) :
  linesRead (f1 ++ f2) = linesRead f1 ++ linesRead f2.
Proof. unfold linesRead. apply omap_app. Qed.

Lemma parserInputs_app (f1 f2 : list effect) :
  parserInputs (f1 ++ f2) = parserInputs f1 ++ parserInputs f2.
Proof. unfold parserInputs. apply omap_app. Qed.

Lemma Get_conserves (d : Dataset) (from to : Z) :
  let '(d', effects, res) := Get d from to in
  scanner d = linesRead effects ++ scanner d' ∧
  parserInputs effects
  = (if to <=? Z.of_nat (length (dataset d)) then [] else [rawBytes (linesRead effects)]) ∧
  dataset d' = dataset d ++ mjoin (parse <$> parserInputs effects) ∧
  (effects = [] ↔ to ≤ Z.of_nat (length (dataset d))).
Proof.
  unfold Get. destruct (Z.leb_spec to (Z.of_nat (length (dataset d)))) as [Hto|Hto].
  - simpl. rewrite app_nil_r. done.
  - pose proof (readLines_conserves (scanner d)
                  (to - Z.of_nat (length (dataset d))) []) as Hread.
    destruct (readLines _ _ _) as [[scanner' b] effects].
    destruct Hread as (Hlines & -> & Hnone). simpl.
    rewrite linesRead_app, parserInputs_app, Hnone. simpl.
    rewrite !app_nil_r. split; [done|]. split; [done|]. split; [done|].
    split; [intros Heq; by destruct effects|intros ?; lia].
Qed.

Lemma makeAlerts_dataset (p p' : AlertProducer) (d d' : Dataset) alerts :
  makeAlerts p d = Returns (alerts, p', d') →
  ∃ effects res,
    Get d (index (rotated p))
      (wrap (index (rotated p) + batch (rotated p))) = (d', effects, res).
Proof.
  unfold makeAlerts.
  destruct (Get d _ _) as [[d1 effects] res].
  destruct res as [l| |]; simpl; [|other_result..].
  destruct (alertsOf l []); simpl; [|other_result..].
  intros [= _ _ <-]. by eexists _, _.
Qed.

Lemma drawn_refl (d : Dataset) : drawn d d.
Proof. exists []. simpl. by rewrite app_nil_r. Qed.

Lemma drawn_trans (d1 d2 d3 : Dataset) : drawn d1 d2 → drawn d2 d3 → drawn d1 d3.
Proof.
  intros (runs1 & Hs1 & Hd1) (runs2 & Hs2 & Hd2). exists (runs1 ++ runs2).
  rewrite join_app, fmap_app, join_app, <- !app_assoc.
  split; [by rewrite Hs1, Hs2|by rewrite Hd2, Hd1, <- app_assoc].
Qed.

Lemma Get_drawn (d d' : Dataset) (from to : Z) effects res :
  Get d from to = (d', effects, res) → drawn d d'.
Proof.
  intros HGet. pose proof (Get_conserves d from to) as Hcons.
  rewrite HGet in Hcons. destruct Hcons as (Hlines & Hinputs & Hdata & Hnone).
  destruct (Z.leb_spec to (Z.of_nat (length (dataset d)))) as [Hto|Hto].
  - exists []. rewrite Hinputs in Hdata. apply Hnone in Hto. subst effects. done.
  - exists [linesRead effects]. rewrite Hinputs in Hdata. simpl in *.
    by rewrite !app_nil_r in *.
Qed.

Lemma makeAlerts_drawn (p p' : AlertProducer) (d d' : Dataset) alerts :
  makeAlerts p d = Returns (alerts, p', d') → drawn d d'.
Proof.
  intros Hcall. destruct (makeAlerts_dataset _ _ _ _ _ Hcall) as (effects & res & HGet).
  by apply Get_drawn in HGet.
Qed.

Lemma calls_drawn (n : nat) (p p' : AlertProducer) (d d' : Dataset) batches :
  calls n p d = Returns (batches, p', d') → drawn d d'.
Proof.
  revert p p' d d' batches. induction n as [|n IH]; intros p p' d d' batches; simpl.
  - intros [= _ _ <-]. apply drawn_refl.
  - destruct (makeAlerts p d) as [[[a p1] d1]| |] eqn:Hcall; simpl; [|other_result..].
    destruct (calls n p1 d1) as [[[bs p2] d2]| |] eqn:Hcalls; simpl; [|other_result..].
    intros [= _ _ <-].
    apply (drawn_trans d d1 d2); [by apply makeAlerts_drawn in Hcall|by apply IH in Hcalls].
Qed.

(** With a parser that works line by line, what is drawn from the source
    is what the source was to supply. *)
Lemma lineWise_runs (f : string → Labels) (runs : list (list string))
    (lines rest : list string) :
  lineWise f lines → lines = mjoin runs ++ rest →
  mjoin ((λ run, parse (rawBytes run)) <$> runs) ++ (f <$> rest) = f <$> lines ∧
  lineWise f rest.
Proof.
  revert lines. induction runs as [|run runs IH]; intros lines Hf Hl.
  - simpl in *. by subst lines.
  - simpl in Hl. rewrite <- app_assoc in Hl. subst lines.
    assert (Hrun : parse (rawBytes run) = f <$> run).
    { specialize (Hf 0%nat (length run)).
      by rewrite drop_0, take_app_length in Hf. }
    destruct (IH (mjoin runs ++ rest)) as [Hrest Hf']; [|done|].
    { intros i n. specialize (Hf (length run + i)%nat n).
      by rewrite <- drop_drop, drop_app_length in Hf. }
    split; [|done]. rewrite fmap_cons, fmap_app, <- Hrest, <- Hrun.
    simpl. by rewrite <- app_assoc.
Qed.

Lemma drawn_supply (f : string → Labels) (d d' : Dataset) :
  lineWise f (scanner d) → drawn d d' →
  supply f d' = supply f d ∧ lineWise f (scanner d').
Proof.
  intros Hf (runs & Hs & Hd).
  destruct (lineWise_runs f runs (scanner d) (scanner d') Hf Hs) as [Heq Hf'].
  split; [|done]. unfold supply. by rewrite Hd, <- app_assoc, Heq.
Qed.

Lemma window_length (D : list Labels) (from to : Z) :
  0 ≤ from → from ≤ to → to ≤ Z.of_nat (length D) ∨ to = from →
  Z.of_nat (length (window D from to)) = to - from.
Proof.
  intros Hfrom Hto Hlen. unfold window.
  rewrite length_fmap, length_take, length_drop.
  unfold Labels in *. lia.
Qed.

(** A window that is full does not change when label sets are appended. *)
Lemma window_full (D extra : list Labels) (from b : Z) :
  Z.of_nat (length (window D from (from + b))) = b →
  window (D ++ extra) from (from + b) = window D from (from + b).
Proof.
  unfold window. rewrite length_fmap, length_take, length_drop. intros Hlen.
  f_equal. replace (from + b - from) with b in * by lia.
  destruct (decide (b = 0)) as [->|Hb]; [done|].
  unfold Labels in *.
  rewrite drop_app_le by lia. rewrite take_app_le; [done|].
  rewrite length_drop. lia.
Qed.

(** A full window of the materialized label sets is the window of what the
    dataset was to supply before the calls. *)
Lemma window_supply (f : string → Labels) (d d' : Dataset) (from b : Z) :
  lineWise f (scanner d) → drawn d d' →
  Z.of_nat (length (window (dataset d') from (from + b))) = b →
  window (dataset d') from (from + b) = window (supply f d) from (from + b).
Proof.
  intros Hf Hdrawn Hlen.
  destruct (drawn_supply f d d' Hf Hdrawn) as [<- _].
  unfold supply. symmetry. by apply window_full.
Qed.

(** Every batch that a run of calls returns has [batch] alerts. *)
Lemma calls_lengths (n : nat) (p p' : AlertProducer) (d d' : Dataset) batches :
  inInt (index p) → inInt (batch p) →
  calls n p d = Returns (batches, p', d') →
  Forall (λ alerts, Z.of_nat (length alerts) = batch p) batches.
Proof.
  revert p p' d d' batches.
  induction n as [|n IH]; intros p p' d d' batches Hi Hb; simpl.
  - intros [= <- _ _]. constructor.
  - destruct (makeAlerts p d) as [[[a p1] d1]| |] eqn:Hcall; simpl; [|other_result..].
    destruct (calls n p1 d1) as [[[bs p2] d2]| |] eqn:Hcalls; simpl; [|other_result..].
    intros [= <- _ _].
    destruct (rotated_fields p Hi) as (Hiq & Hbq & _).
    apply makeAlerts_Returns in Hcall as (Hc & Hb0 & Hmax & -> & Hin & -> & _);
      [|done|done].
    apply IH in Hcalls; simpl; [|done|by rewrite Hbq].
    simpl in Hcalls. rewrite Hbq in *. constructor; [|done].
    rewrite window_length; [lia|done|lia|]. destruct Hin; [by left|right; lia].
Qed.

(** The batches of a run of calls, as windows of what the dataset was to
    supply. *)
Lemma replicate_window_supply (f : string → Labels) (d d' : Dataset) (n : nat)
    (from b : Z) (batches : list (list Alert)) :
  lineWise f (scanner d) → drawn d d' →
  Forall (λ alerts, Z.of_nat (length alerts) = b) batches →
  replicate n (window (dataset d') from (from + b)) ⊆ batches →
  replicate n (window (dataset d') from (from + b))
  = replicate n (window (supply f d) from (from + b)).
Proof.
  intros Hf Hdrawn Hall Hsub. destruct n as [|n]; [done|].
  f_equal. apply window_supply; [done|done|].
  apply (proj1 (Forall_forall _ _) Hall), Hsub. simpl. left.
Qed.

(** *** The properties of the specification *)

(** [n] calls that return and none of which rotates have served the same
    window [n] times. *)
Lemma calls_Returns_repeat (n : nat) (p p' : AlertProducer) (d d' : Dataset) batches :
  inInt (index p) → inInt (batch p) → interval p < 2 ^ 63 →
  0 ≤ batchRepeated p → batchRepeated p + Z.of_nat n ≤ interval p →
  calls n p d = Returns (batches, p', d') →
  batches = replicate n (window (dataset d') (index p) (index p + batch p)) ∧
  index p' = index p ∧ batch p' = batch p ∧ interval p' = interval p ∧
  batchRepeated p' = batchRepeated p + Z.of_nat n ∧
  (∃ extra, dataset d' = dataset d ++ extra) ∧
  (n ≠ 0%nat →
   0 ≤ index p ∧ 0 ≤ batch p ∧ index p + batch p < 2 ^ 63 ∧
   (index p + batch p ≤ Z.of_nat (length (dataset d')) ∨ batch p = 0)).
Proof.
  revert p d batches. induction n as [|n IH]; intros p d batches Hi Hb Hint Hrep Hn; simpl.
  - intros [= <- <- <-]. rewrite Z.add_0_r.
    repeat (split; [done|]). split; [by exists []; rewrite app_nil_r|done].
  - destruct (makeAlerts p d) as [[[a p1] d1]| |] eqn:Hcall; simpl; [|other_result..].
    destruct (calls n p1 d1) as [[[bs p2] d2]| |] eqn:Hcalls; simpl; [|other_result..].
    intros [= <- <- <-].
    apply makeAlerts_Returns in Hcall as (Hc & Hb0 & Hmax & -> & Hin & -> & [ex1 Hex1]);
      [|done|done].
    assert (Hq : rotated p = p).
    { unfold rotated. destruct (Z.eqb_spec (batchRepeated p) (interval p)); [lia|done]. }
    rewrite Hq in *. rewrite wrap_id in Hcalls by lia.
    apply IH in Hcalls as (-> & Hi2 & Hb2 & Hint2 & Hrep2 & [ex2 Hex2] & _);
      simpl; [|done|done|done|lia|lia].
    simpl in *. split; [|split; [done|split; [done|split; [done|split; [lia|split]]]]].
    + f_equal. rewrite Hex2. symmetry. apply window_stable; [done|].
      destruct Hin; [by left|right; lia].
    + exists (ex1 ++ ex2). by rewrite Hex2, Hex1, <- app_assoc.
    + intros _. repeat (split; [done|]).
      destruct Hin as [Hin|?]; [left|by right]. rewrite Hex2, length_app. lia.
Qed.

(** The [2r] calls of a batcher that has not served yet, when they
    return, have served [c, c+b) and then [c+b, c+2b), [r] times each. *)
Lemma calls_rotation_served (p p' : AlertProducer) (d d' : Dataset) batches :
  batchRepeated p = 0 →
  inInt (index p) → inInt (batch p) → inInt (interval p) →
  let c := index p in
  let b := batch p in
  let r := Z.to_nat (interval p) in
  calls (r + r) p d = Returns (batches, p', d') →
  batches = replicate r (window (dataset d') c (c + b))
            ++ replicate r (window (dataset d') (c + b) (c + 2 * b)) ∧
  (r ≠ 0%nat → index p' = c + b ∧ batchRepeated p' = interval p).
Proof.
  intros Hrep Hi Hb Hint c b r.
  destruct r as [|r'] eqn:Hr.
  - simpl. intros [= <- <- <-]. done.
  - assert (Hiv : interval p = Z.of_nat (S r')) by lia.
    rewrite calls_app.
    destruct (calls (S r') p d) as [[[b1 p1] d1]| |] eqn:Hcalls1; simpl; [|other_result..].
    destruct (makeAlerts p1 d1) as [[[a p2] d2]| |] eqn:Hcall2; simpl; [|other_result..].
    destruct (calls r' p2 d2) as [[[b3 p3] d3]| |] eqn:Hcalls3; simpl; [|other_result..].
    intros [= <- <- <-].
    apply calls_Returns_repeat in Hcalls1
      as (-> & Hi1 & Hb1 & Hint1 & Hrep1 & [ex1 Hex1] & Hserved);
      [|done|done|unfold inInt in Hint; lia|lia|lia].
    destruct (Hserved ltac:(done)) as (Hc & Hb0 & Hmax & Hin1).
    apply makeAlerts_Returns in Hcall2
      as (Hc2 & _ & Hmax2 & -> & Hin2 & -> & [ex2 Hex2]);
      [|by rewrite Hi1|by rewrite Hb1].
    assert (Hq : rotated p1
                 = mkAlertProducer (c + b) b (interval p) 0).
    { unfold rotated. rewrite Hrep1, Hint1, Hrep, Hi1, Hb1.
      destruct (Z.eqb_spec (0 + Z.of_nat (S r')) (interval p)); [|lia].
      unfold inInt in *. rewrite wrap_id by (unfold c, b; lia). done. }
    rewrite Hq in *. simpl in *. rewrite wrap_id in Hcalls3 by lia.
    apply calls_Returns_repeat in Hcalls3
      as (-> & Hi3 & Hb3 & Hint3 & Hrep3 & [ex3 Hex3] & _); simpl;
      [|unfold inInt in *; lia|done|unfold inInt in Hint; lia|lia|lia].
    simpl in *. split; [|intros _; split; [done|lia]].
    replace (c + b + b) with (c + 2 * b) in * by lia.
    assert (HW1 : window (dataset d1) (index p) (index p + batch p)
                  = window (dataset d3) c (c + b)).
    { rewrite Hex3, Hex2, <- app_assoc. symmetry.
      apply window_stable; [done|]. destruct Hin1; [by left|right; lia]. }
    assert (HW2 : window (dataset d2) (c + b) (c + 2 * b)
                  = window (dataset d3) (c + b) (c + 2 * b)).
    { rewrite Hex3. symmetry. apply window_stable; [lia|].
      destruct Hin2; [left; lia|right; lia]. }
    by rewrite HW1, HW2.
Qed.

(** Over a dataset that can supply [c + 2b] label sets the [2r] calls
    return. *)
Lemma calls_rotation_return (p : AlertProducer) (d : Dataset) :
  batchRepeated p = 0 →
  interval p < 2 ^ 63 →
  onePerLine (scanner d) →
  0 ≤ index p → 0 ≤ batch p → index p + 2 * batch p < 2 ^ 63 →
  index p + 2 * batch p ≤ Z.of_nat (length (dataset d) + length (scanner d)) →
  let c := index p in
  let b := batch p in
  let r := Z.to_nat (interval p) in
  ∃ p' d',
    calls (r + r) p d
    = Returns (replicate r (window (dataset d') c (c + b))
               ++ replicate r (window (dataset d') (c + b) (c + 2 * b)),
               p', d') ∧
    (r ≠ 0%nat → index p' = c + b ∧ batchRepeated p' = interval p) ∧
    (∃ extra, dataset d' = dataset d ++ extra).
Proof.
  intros Hrep Hint Hparse Hc Hb Hmax Havail c b r.
  destruct r as [|r'] eqn:Hr.
  - exists p, d. simpl. split; [done|]. split; [done|].
    by exists []; rewrite app_nil_r.
  - assert (Hiv : interval p = Z.of_nat (S r')) by lia.
    rewrite calls_app.
    destruct (calls_repeat (S r') p d)
      as (d1 & Hcalls1 & [ex1 Hex1] & Hp1 & Hcons1 & Hlen1);
      [lia|lia|done|lia|lia|lia|lia|lia|].
    specialize (Hlen1 ltac:(done)).
    rewrite Hcalls1. simpl.
    destruct (makeAlerts_rotates
                (mkAlertProducer (index p) (batch p) (interval p)
                   (batchRepeated p + Z.of_nat (S r'))) d1)
      as (d2 & Hcall2 & [ex2 Hex2] & Hp2 & Hcons2 & Hlen2);
      simpl; [lia|done|lia|lia|lia|lia|].
    simpl in Hcall2, Hlen2. rewrite Hcall2. simpl.
    destruct (calls_repeat r'
                (mkAlertProducer (index p + batch p) (batch p) (interval p) 1) d2)
      as (d3 & Hcalls3 & [ex3 Hex3] & Hp3 & Hcons3 & Hlen3);
      simpl; [lia|lia|done|lia|lia|lia|lia|lia|].
    simpl in Hcalls3. rewrite Hcalls3. simpl.
    exists (mkAlertProducer (index p + batch p) (batch p) (interval p)
              (1 + Z.of_nat r')), d3.
    assert (HW1 : window (dataset d1) (index p) (index p + batch p)
                  = window (dataset d3) c (c + b)).
    { rewrite Hex3, Hex2, <- app_assoc. symmetry. apply window_stable; [done|by left]. }
    assert (HW2 : window (dataset d2) (index p + batch p) (index p + 2 * batch p)
                  = window (dataset d3) (c + b) (c + 2 * b)).
    { rewrite Hex3. symmetry. apply window_stable; [lia|left; lia]. }
    replace (index p + batch p + batch p) with (c + 2 * b) by (unfold c, b; lia).
    rewrite HW1, HW2. split; [done|]. split.
    + intros _. simpl. split; [done|lia].
    + exists (ex1 ++ ex2 ++ ex3). by rewrite Hex3, Hex2, Hex1, <- !app_assoc.
Qed.

(** C5.  A batcher that has not served yet, with cursor [c], batch size
    [b] and rotation interval [r]: whenever its first [2r] calls return,
    the first [r] of them have returned the alerts of the window [c, c+b)
    and the next [r] those of [c+b, c+2b), and the cursor has advanced by
    [b], once.  Every one of these batches holds [b] alerts; the label sets
    of the windows are those the dataset held before the calls, followed by
    what the parser returned for the lines the calls took from the front of
    the source; so with a parser that works line by line the windows are
    those of the label sets the dataset held and the label sets of the lines
    its source held, in order.  And the calls do return over a dataset that
    can supply [c + 2b] label sets. *)
Theorem makeAlerts_rotation (p : AlertProducer) (d : Dataset) :
  batchRepeated p = 0 →
  inInt (index p) → inInt (batch p) → inInt (interval p) →
  let c := index p in
  let b := batch p in
  let r := Z.to_nat (interval p) in
  (∀ batches p' d',
     calls (r + r) p d = Returns (batches, p', d') →
     batches = replicate r (window (dataset d') c (c + b))
               ++ replicate r (window (dataset d') (c + b) (c + 2 * b)) ∧
     (r ≠ 0%nat → index p' = c + b ∧ batchRepeated p' = interval p) ∧
     drawn d d' ∧
     Forall (λ alerts, Z.of_nat (length alerts) = b) batches ∧
     (∀ f, lineWise f (scanner d) →
        batches = replicate r (window (supply f d) c (c + b))
                  ++ replicate r (window (supply f d) (c + b) (c + 2 * b)))) ∧
  (onePerLine (scanner d) →
   0 ≤ c → 0 ≤ b → c + 2 * b < 2 ^ 63 →
   c + 2 * b ≤ Z.of_nat (length (dataset d) + length (scanner d)) →
   ∃ batches p' d', calls (r + r) p d = Returns (batches, p', d')).
Proof.
  intros Hrep Hi Hb Hint c b r. split.
  - intros batches p' d' Hcalls.
    pose proof (calls_drawn _ _ _ _ _ _ Hcalls) as Hdrawn.
    pose proof (calls_lengths _ _ _ _ _ _ Hi Hb Hcalls) as Hfull.
    destruct (calls_rotation_served p p' d d' batches Hrep Hi Hb Hint Hcalls)
      as [Hserved Hcursor].
    split; [done|]. split; [done|]. split; [done|]. split; [done|].
    intros f Hf. fold c b r in Hserved. rewrite Hserved at 1.
    replace (c + 2 * b) with (c + b + b) in * by lia.
    f_equal; apply (replicate_window_supply f d d' r _ b batches Hf Hdrawn Hfull);
      rewrite Hserved; intros x Hx; apply elem_of_app; [by left|by right].
  - intros Hparse Hc Hb0 Hmax Havail.
    destruct (calls_rotation_return p d) as (p' & d' & Hcalls & _);
      [done|unfold inInt in Hint; lia|done..|].
    by eexists _, _, _.
Qed.

(** C6, amended.  A call [Get(from, to)] whose [to] does not exceed the
    materialized length is served from the cache: it reads no line and does
    not invoke the parser.  Otherwise, provided the source still holds
    [to] minus the materialized length lines, exactly that many new lines are
    read, the parser is invoked once, on the raw bytes of just those lines,
    and its label sets are appended in order; when the source holds fewer
    lines, all of them are read.  So on a new dataset whose source holds
    [2n] lines and whose parser returns one label set for each of the first
    [n] lines, [Get(0, n)] followed by [Get(n, 2n)] reads on the second
    call exactly the [n] lines after the first [n]. *)
Theorem Get_reads_new_lines (d : Dataset) (from to : Z)
    (lines : list string) (n : Z) :
  0 ≤ n →
  2 * n ≤ Z.of_nat (length lines) →
  length (parse (rawBytes (take (Z.to_nat n) lines))) = Z.to_nat n →
  (to ≤ Z.of_nat (length (dataset d)) →
   Get d from to = (d, [], slice (dataset d) (spare d) from to)) ∧
  (Z.of_nat (length (dataset d)) < to →
   to - Z.of_nat (length (dataset d)) ≤ Z.of_nat (length (scanner d)) →
   let new := take (Z.to_nat (to - Z.of_nat (length (dataset d)))) (scanner d) in
   Z.of_nat (length new) = to - Z.of_nat (length (dataset d)) ∧
   ∃ sp res,
     Get d from to
     = (mkDataset (drop (length new) (scanner d))
                  (dataset d ++ parse (rawBytes new)) sp,
        (ScanLine <$> new) ++ [Parse (rawBytes new)],
        res)) ∧
  (Z.of_nat (length (scanner d)) < to - Z.of_nat (length (dataset d)) →
   ∃ d' res,
     Get d from to
     = (d', (ScanLine <$> scanner d) ++ [ScanEnd; Parse (rawBytes (scanner d))], res) ∧
     scanner d' = [] ∧ dataset d' = dataset d ++ parse (rawBytes (scanner d))) ∧
  (let '(d1, effects1, _) := Get (NewDataset lines) 0 n in
   let '(_, effects2, _) := Get d1 n (2 * n) in
   linesRead effects1 = take (Z.to_nat n) lines ∧
   linesRead effects2 = take (Z.to_nat n) (drop (Z.to_nat n) lines) ∧
   Z.of_nat (length (linesRead effects2)) = n ∧
   parserInputs effects2
   = if n =? 0 then [] else [rawBytes (take (Z.to_nat n) (drop (Z.to_nat n) lines))]).
Proof.
  intros Hn H2n Hparse. split; [apply Get_cached|]. split; [|split].
  - intros Hto Hlines. cbv zeta.
    assert (Hlen : length (take (Z.to_nat (to - Z.of_nat (length (dataset d)))) (scanner d))
                   = Z.to_nat (to - Z.of_nat (length (dataset d)))).
    { rewrite length_take. lia. }
    split; [lia|]. rewrite Hlen.
    eexists _, _. by apply Get_grows.
  - apply Get_exhausts.
  - destruct (Z.eqb_spec n 0) as [->|Hpos].
    + rewrite Get_cached by (simpl; lia). rewrite Get_cached by (simpl; lia).
      done.
    + rewrite Get_grows by (simpl; lia). cbv zeta. simpl scanner. simpl dataset.
      replace (Z.to_nat (n - Z.of_nat (length (@nil Labels)))) with (Z.to_nat n)
        by (simpl; lia).
      rewrite Get_grows; simpl dataset; simpl scanner;
        rewrite ?length_app, ?Hparse, ?length_drop; simpl; [|lia|lia].
      replace (Z.to_nat (2 * n - Z.of_nat (Z.to_nat n))) with (Z.to_nat n) by lia.
      rewrite !linesRead_scanned, !parserInputs_scanned. simpl.
      rewrite !app_nil_r. split; [done|]. split; [done|]. split; [|done].
      rewrite length_take, length_drop. lia.
Qed.

End WithParser.

Lemma sampleLines_line (l rest cur : list byte) :
  x0a ∉ l →
  sampleLines (l ++ x0a :: rest) cur = (cur ++ l) :: sampleLines rest [].
Proof.
  revert cur. induction l as [|x l IH]; intros cur Hl; simpl.
  - by rewrite app_nil_r.
  - apply not_elem_of_cons in Hl as [Hx Hl].
    destruct (Byte.eqb x x0a) eqn:Heq.
    + apply Byte.byte_dec_bl in Heq. congruence.
    + rewrite IH by done. by rewrite <- app_assoc.
Qed.

Lemma sampleLines_rawBytes (lines : list string) :
  Forall noLineFeed lines →
  sampleLines (rawBytes lines) [] = bytesOf <$> lines.
Proof.
  induction 1 as [|line lines Hline _ IH]; [done|].
  change (rawBytes (line :: lines))
    with ((bytesOf line ++ [x0a]) ++ rawBytes lines).
  rewrite <- app_assoc. simpl.
  rewrite sampleLines_line by done. by rewrite IH.
Qed.

Lemma bareMetrics_onePerLine (lines : list string) :
  Forall noLineFeed lines → onePerLine bareMetrics lines.
Proof.
  intros Hlines i n. unfold bareMetrics.
  rewrite sampleLines_rawBytes; [by rewrite !length_fmap|].
  by apply Forall_take, Forall_drop.
Qed.

Lemma tenLines_noLineFeed : Forall noLineFeed tenLines.
Proof.
  unfold tenLines, noLineFeed.
  repeat (apply Forall_cons; split; [by vm_compute; intros ?%list_elem_of_In; simpl in *; intuition discriminate|]).
  constructor.
Qed.

Lemma makeAlerts_rotation_witness :
  batchRepeated fiveByThree = 0 ∧
  inInt (index fiveByThree) ∧ inInt (batch fiveByThree) ∧
  inInt (interval fiveByThree) ∧
  (∀ batches p' d',
     calls bareMetrics doubling (3 + 3) fiveByThree (NewDataset tenLines)
     = Returns (batches, p', d') →
     batches = replicate 3 (window (dataset d') 0 (0 + 5))
               ++ replicate 3 (window (dataset d') (0 + 5) (0 + 2 * 5)) ∧
     (3%nat ≠ 0%nat → index p' = 0 + 5 ∧ batchRepeated p' = 3) ∧
     drawn bareMetrics (NewDataset tenLines) d' ∧
     Forall (λ alerts, Z.of_nat (length alerts) = 5) batches ∧
     (∀ f, lineWise bareMetrics f (scanner (NewDataset tenLines)) →
        batches = replicate 3 (window (supply f (NewDataset tenLines)) 0 (0 + 5))
                  ++ replicate 3 (window (supply f (NewDataset tenLines))
                                    (0 + 5) (0 + 2 * 5)))) ∧
  (onePerLine bareMetrics (scanner (NewDataset tenLines)) →
   0 ≤ 0 → 0 ≤ 5 → 0 + 2 * 5 < 2 ^ 63 →
   0 + 2 * 5 ≤ Z.of_nat (length (dataset (NewDataset tenLines))
                         + length (scanner (NewDataset tenLines))) →
   ∃ batches p' d',
     calls bareMetrics doubling (3 + 3) fiveByThree (NewDataset tenLines)
     = Returns (batches, p', d')).
Proof.
  assert (H1 : batchRepeated fiveByThree = 0) by reflexivity.
  assert (H2 : inInt (index fiveByThree)) by (unfold inInt; simpl; lia).
  assert (H3 : inInt (batch fiveByThree)) by (unfold inInt; simpl; lia).
  assert (H4 : inInt (interval fiveByThree)) by (unfold inInt; simpl; lia).
  repeat (split; [assumption|]).
  exact (makeAlerts_rotation bareMetrics doubling fiveByThree (NewDataset tenLines)
           H1 H2 H3 H4).
Defined.

(** The first call after the rotation interval serves the next window. *)
Example fiveByThree_windows :
  match calls bareMetrics doubling 6 fiveByThree (NewDataset tenLines) with
  | Returns (batches, p', d') =>
      batches = replicate 3 (window (dataset d') 0 5)
                ++ replicate 3 (window (dataset d') 5 10) ∧
      window (dataset d') 0 5 ≠ window (dataset d') 5 10 ∧
      index p' = 5 ∧ length (dataset d') = 10%nat
  | _ => False
  end.
Proof.
  vm_compute. split; [reflexivity|]. split; [discriminate|]. done.
Qed.

(** The stand-in parser works line by line on lines without a line feed. *)
Lemma bareMetrics_lineWise (lines : list string) :
  Forall noLineFeed lines →
  lineWise bareMetrics (λ line, [mkLabel "__name__" line]) lines.
Proof.
  intros Hlines i n. unfold bareMetrics.
  rewrite sampleLines_rawBytes by (by apply Forall_take, Forall_drop).
  rewrite <- list_fmap_compose. apply list_fmap_ext. intros _ line _. simpl.
  unfold bytesOf. by rewrite string_of_list_byte_of_string.
Qed.

(** The batches of the example by the lines of the source: the samples m0
    to m4 three times, then m5 to m9 three times. *)
Example fiveByThree_lines :
  match calls bareMetrics doubling 6 fiveByThree (NewDataset tenLines) with
  | Returns (batches, p', d') =>
      fmap (λ a : Alert, Hashing.Labels a !! "__name__"%string) <$> batches
      = replicate 3 (Some <$> take 5 tenLines) ++ replicate 3 (Some <$> drop 5 tenLines)
  | _ => False
  end.
Proof. by vm_compute. Qed.

(** C6 as stated fails when the source runs out: the call [Get(0, 2)] on a
    new dataset over a source of one line reads one line, not two. *)
Lemma Get_reads_fewer_lines :
  let d := NewDataset ["up"%string] in
  let '(_, effects, _) := Get bareMetrics doubling d 0 2 in
  Z.of_nat (length (dataset d)) < 2 ∧
  linesRead effects = ["up"%string] ∧
  Z.of_nat (length (linesRead effects)) ≠ 2 - Z.of_nat (length (dataset d)).
Proof. vm_compute. split; [done|]. split; [done|]. discriminate. Qed.

Lemma Get_reads_new_lines_witness :
  let d := NewDataset tenLines in
  0 ≤ 5 ∧
  2 * 5 ≤ Z.of_nat (length tenLines) ∧
  length (bareMetrics (rawBytes (take (Z.to_nat 5) tenLines))) = Z.to_nat 5 ∧
  (2 ≤ Z.of_nat (length (dataset d)) →
   Get bareMetrics doubling d 0 2 = (d, [], slice (dataset d) (spare d) 0 2)) ∧
  (Z.of_nat (length (dataset d)) < 2 →
   2 - Z.of_nat (length (dataset d)) ≤ Z.of_nat (length (scanner d)) →
   let new := take (Z.to_nat (2 - Z.of_nat (length (dataset d)))) (scanner d) in
   Z.of_nat (length new) = 2 - Z.of_nat (length (dataset d)) ∧
   ∃ sp res,
     Get bareMetrics doubling d 0 2
     = (mkDataset (drop (length new) (scanner d))
                  (dataset d ++ bareMetrics (rawBytes new)) sp,
        (ScanLine <$> new) ++ [Parse (rawBytes new)],
        res)) ∧
  (Z.of_nat (length (scanner d)) < 2 - Z.of_nat (length (dataset d)) →
   ∃ d' res,
     Get bareMetrics doubling d 0 2
     = (d', (ScanLine <$> scanner d) ++ [ScanEnd; Parse (rawBytes (scanner d))], res) ∧
     scanner d' = [] ∧ dataset d' = dataset d ++ bareMetrics (rawBytes (scanner d))) ∧
  (let '(d1, effects1, _) := Get bareMetrics doubling (NewDataset tenLines) 0 5 in
   let '(_, effects2, _) := Get bareMetrics doubling d1 5 (2 * 5) in
   linesRead effects1 = take (Z.to_nat 5) tenLines ∧
   linesRead effects2 = take (Z.to_nat 5) (drop (Z.to_nat 5) tenLines) ∧
   Z.of_nat (length (linesRead effects2)) = 5 ∧
   parserInputs effects2
   = if 5 =? 0 then [] else [rawBytes (take (Z.to_nat 5) (drop (Z.to_nat 5) tenLines))]).
Proof.
  intros d.
  assert (H1 : 0 ≤ 5) by lia.
  assert (H2 : 2 * 5 ≤ Z.of_nat (length tenLines)) by (simpl; lia).
  assert (H3 : length (bareMetrics (rawBytes (take (Z.to_nat 5) tenLines))) = Z.to_nat 5)
    by reflexivity.
  repeat (split; [assumption|]).
  exact (Get_reads_new_lines bareMetrics doubling d 0 2 tenLines 5 H1 H2 H3).
Defined.

(** The second call of the example reads the lines m5 to m9. *)
Example Get_twice :
  let '(d1, _, _) := Get bareMetrics doubling (NewDataset tenLines) 0 5 in
  let '(_, effects2, _) := Get bareMetrics doubling d1 5 10 in
  linesRead effects2 = ["m5"; "m6"; "m7"; "m8"; "m9"]%string ∧
  length (parserInputs effects2) = 1%nat.
Proof. by vm_compute. Qed.

End Batcher.

(** ** Events and their report lines *)

Module Report.
Import Hashing.

Local Open Scope string_scope.

(** [var TimeFormat] *)
Definition TimeFormat : string := "2006-01-02T15:04:05.000000000Z07:00".

(** The string ["\n"]. *)
Definition newline : string := String (ascii_of_byte x0a) "".

(** [fmt.Fprint(out, operands...)] on string operands, which are written
    one after the other with nothing between them; the writer is the text
    written to it so far. *)
Definition Fprint (out : string) (operands : list string) : string :=
  out ++ String.concat "" operands.

(** The verb [%x] on a [uint64]: lower-case digits, no padding. *)
Definition hex (h : Z) : string :=
  match h with
  | Z0 => "0"
  | Zpos p => HexString.Raw.of_pos p ""
  | Zneg _ => ""
  end.

(** [fmt.Fprintf(out, " %x", h)] and [fmt.Fprintf(out, "%x", h)]. *)
Definition Fprintf_sp_x (out : string) (h : Z) : string := out ++ " " ++ hex h.
Definition Fprintf_x (out : string) (h : Z) : string := out ++ hex h.

(** [type alertsFiredEvent struct] *)
Record alertsFiredEvent : Type := mkFired {
  alertmanager : string;
  alerts : list Alert;
  timestamp : Z
}.

(** [type notification struct]; its fields are prefixed where they share
    a name with those of [alertsFiredEvent]. *)
Record notification : Type := mkNotification {
  n_timestamp : Z;
  n_alertmanager : string;
  groupKey : string;
  notificationHash : Z;
  n_alerts : list Z
}.

(** The values of the interface [Event]. *)
Inductive Event : Type :=
  | Fired (e : alertsFiredEvent)
  | Notified (n : notification).

(** [Timestamp()] of either kind of event. *)
Definition Timestamp (ev : Event) : Z :=
  match ev with
  | Fired e => timestamp e
  | Notified n => n_timestamp n
  end.

(** *** The layout of the program, for running the embedding *)

(** [n] in decimal, in [width] digits. *)
Fixpoint pad (width : nat) (n : Z) (acc : string) : string :=
  match width with
  | O => acc
  | S width =>
      pad width (n / 10)
        (String (ascii_of_N (48 + Z.to_N (n mod 10))) acc)
  end.

(** Year, month and day of the day number [days] counted from 1970-01-01. *)
Definition civil (days : Z) : Z * Z * Z :=
  let z := days + 719468 in
  let era := z / 146097 in
  let doe := z - era * 146097 in
  let yoe := (doe - doe / 1460 + doe / 36524 - doe / 146096) / 365 in
  let doy := doe - (365 * yoe + yoe / 4 - yoe / 100) in
  let mp := (5 * doy + 2) / 153 in
  let d := doy - (153 * mp + 2) / 5 + 1 in
  let m := if (mp <? 10)%Z then mp + 3 else mp - 9 in
  let y := yoe + era * 400 in
  (if (m <=? 2)%Z then y + 1 else y, m, d).

(** A stand-in for [t.UTC().Format(layout)] that renders [TimeFormat], the
    one layout of the program, for an instant [t] given in nanoseconds
    since 1970-01-01T00:00:00Z in the years 0 to 9999. *)
Definition formatUTC (t : Z) (layout : string) : string :=
  if String.eqb layout TimeFormat then
    let secs := t / 10 ^ 9 in
    let '(y, m, d) := civil (secs / 86400) in
    let rem := secs mod 86400 in
    pad 4 y ("-" ++ pad 2 m ("-" ++ pad 2 d ("T" ++ pad 2 (rem / 3600)
      (":" ++ pad 2 (rem mod 3600 / 60) (":" ++ pad 2 (rem mod 60)
      ("." ++ pad 9 (t mod 10 ^ 9) "Z"))))))
  else layout.

(** A delivery of two alerts to one target. *)
Definition delivery : alertsFiredEvent :=
  mkFired "http://localhost:9093/api/v1/alerts"
    (alertOfLabels <$> twoAlerts) (1500000000 * 10 ^ 9).

Section WithFormat.

(** [xxhash.Sum64] *)
Variable Sum64 : list byte → Z.

(** [t.UTC().Format(layout)] of package time, for the instant [t]. *)
Variable Format : Z → string → string.

(** [alertsFiredEvent.Print] *)
Definition printFired (e : alertsFiredEvent) (out : string) : string :=
  let out := Fprint out ["ALERTS       "] in
  let out := Fprint out [Format (timestamp e) TimeFormat; " "] in
  let out := Fprint out [alertmanager e; " "] in
  let hashes := alertHashes Sum64 (alerts e) in
  let out := foldl Fprintf_sp_x out hashes in
  Fprint out [newline].

(** [notification.Print] *)
Definition printNotification (n : notification) (out : string) : string :=
  let out := Fprint out ["NOTIFICATION "] in
  let out := Fprint out [Format (n_timestamp n) TimeFormat; " "] in
  let out := Fprint out [n_alertmanager n; " "] in
  let out := Fprint out [groupKey n; " "] in
  let out := Fprintf_x out (notificationHash n) in
  let out := foldl Fprintf_sp_x out (n_alerts n) in
  Fprint out [newline].

(** [Print(out)] of either kind of event. *)
Definition Print (ev : Event) (out : string) : string :=
  match ev with
  | Fired e => printFired e out
  | Notified n => printNotification n out
  end.

(** The line of a fired event as the specification words it: the tag and
    one space, the timestamp, one space, the target, then each hash after
    one space, and a line feed. *)
Definition specFiredLine (e : alertsFiredEvent) : string :=
  "ALERTS " ++ Format (timestamp e) TimeFormat ++ " " ++ alertmanager e
  ++ String.concat "" ((λ a, " " ++ hex (hashAlert Sum64 a)) <$> alerts e)
  ++ newline.

(** *** The text written by [Print] *)

Lemma append_assoc (a b c : string) : (a ++ b) ++ c = a ++ (b ++ c).
Proof.
  induction a as [|x a IH]; [done|].
  change (String x ((a ++ b) ++ c) = String x (a ++ (b ++ c))). by rewrite IH.
Qed.

Lemma append_nil_r (a : string) : a ++ "" = a.
Proof.
  induction a as [|x a IH]; [done|].
  change (String x (a ++ "") = String x a). by rewrite IH.
Qed.

Lemma concat_cons (x : string) (xs : list string) :
  String.concat "" (x :: xs) = x ++ String.concat "" xs.
Proof. destruct xs; simpl; [by rewrite append_nil_r|done]. Qed.

Lemma Fprintf_sp_x_fold (hashes : list Z) (out : string) :
  foldl Fprintf_sp_x out hashes
  = out ++ String.concat "" ((λ h, " " ++ hex h) <$> hashes).
Proof.
  revert out. induction hashes as [|h hashes IH]; intros out.
  - simpl. by rewrite append_nil_r.
  - cbn [foldl]. rewrite IH. rewrite fmap_cons, concat_cons.
    unfold Fprintf_sp_x. by rewrite !append_assoc.
Qed.

(** *** The properties of the specification *)

(** C8, amended.  The line of a fired event is the tag [ALERTS] followed
    by seven spaces, which fills it to the width of [NOTIFICATION ], the UTC
    timestamp in the layout [TimeFormat], one space, the target, one space,
    then the hash of each delivered alert in hexadecimal after one more
    space, and a line feed. *)
Theorem printFired_line (e : alertsFiredEvent) (out : string) :
  printFired e out
  = out ++ "ALERTS" ++ "       "
    ++ Format (timestamp e) TimeFormat ++ " "
    ++ alertmanager e ++ " "
    ++ String.concat "" ((λ a, " " ++ hex (hashAlert Sum64 a)) <$> alerts e)
    ++ newline ∧
  String.length "ALERTS       " = String.length "NOTIFICATION ".
Proof.
  split; [|done]. unfold printFired, Fprint.
  rewrite Fprintf_sp_x_fold, alertHashes_map, <- list_fmap_compose.
  cbn [String.concat]. rewrite !append_assoc. done.
Qed.

End WithFormat.

Example formatUTC_instants :
  formatUTC 0 TimeFormat = "1970-01-01T00:00:00.000000000Z" ∧
  formatUTC (951782400 * 10 ^ 9 + 5) TimeFormat = "2000-02-29T00:00:00.000000005Z" ∧
  formatUTC (1500000000 * 10 ^ 9 + 123456789) TimeFormat
  = "2017-07-14T02:40:00.123456789Z".
Proof. by vm_compute. Qed.

Example delivery_line :
  printFired Xxhash.Sum64 formatUTC delivery ""
  = "ALERTS       2017-07-14T02:40:00.000000000Z http://localhost:9093/api/v1/alerts  "
    ++ hex (hashAlert Xxhash.Sum64 (alertOfLabels twoAlerts_first))
    ++ " " ++ hex (hashAlert Xxhash.Sum64 (alertOfLabels twoAlerts_second))
    ++ newline.
Proof. by vm_compute. Qed.

(** C8 as stated fails: the line written for the delivery is not the line
    with one space after the tag and none after the target. *)
Lemma printFired_not_specFiredLine :
  printFired Xxhash.Sum64 formatUTC delivery ""
  ≠ specFiredLine Xxhash.Sum64 formatUTC delivery.
Proof. vm_compute. discriminate. Qed.

End Report.

(** ** The receiver, the test driver and the command *)

Module Orchestrator.
Import Go Hashing Batcher Report.

(** [type WebhookData struct], as decoded from a request body; where
    decoding failed the fields not reached keep their zero values.  The
    alerts are pointers: an element of the array that is a JSON null is
    decoded to nil, [None] here. *)
Record WebhookData : Type := mkWebhookData {
  GroupKey : string;
  ExternalURL : string;
  Alerts : list (option Alert)
}.

(** [type WebhookReceiver struct]: the counter vector by label values, and
    the notification list. *)
Record WebhookReceiver : Type := mkWebhookReceiver {
  notificationsReceived : gmap (string * string * string) nat;
  notifications : list notification
}.

(** [NewWebhookReceiver] *)
Definition NewWebhookReceiver : WebhookReceiver := mkWebhookReceiver ∅ [].

(** [notificationList.Add] *)
Definition Add (nl : list notification) (n : notification) : list notification :=
  nl ++ [n].

(** [WebhookReceiver.Events] *)
Definition receiverEvents (wr : WebhookReceiver) : list Event :=
  Notified <$> notifications wr.

(** Modelled from the spec: [WebhookReceiver.ResetEvents], which
    [RunLoadTests] calls and which is not among the sources.  The
    specification gives the receiver "a reset operation that atomically
    empties the log (used between test cases)". *)
Definition ResetEvents (wr : WebhookReceiver) : WebhookReceiver :=
  mkWebhookReceiver (notificationsReceived wr) [].

(** [type LoadTestConfig struct], the fields read from the configuration. *)
Record LoadTestConfig : Type := mkLoadTestConfig {
  Name : string;
  Duration : Z;
  Goroutines : Z;
  BatchSize : Z;
  RotationInterval : Z;
  FireInterval : Z;
  DatasetFile : string
}.

(** [type LoadProducer struct], without the counter. *)
Record LoadProducer : Type := mkLoadProducer {
  alertmanagers : list string;
  alertProducer : AlertProducer;
  fireInterval : Z;
  eventStore : list alertsFiredEvent
}.

(** [NewLoadTest]: one producer for each [i] below [c.Goroutines]. *)
Definition NewLoadTest (c : LoadTestConfig) (ams : list string) : list LoadProducer :=
  (λ i, mkLoadProducer ams
          (mkAlertProducer (wrap (i * BatchSize c)) (BatchSize c) (RotationInterval c) 0)
          (FireInterval c) [])
  <$> seqZ 0 (Goroutines c).

(** [LoadTest.Events] *)
Definition loadTestEvents (lps : list LoadProducer) : list (list Event) :=
  (λ lp, Fired <$> eventStore lp) <$> lps.

(** What [RunLoadTests] does that can be seen from outside, in order. *)
Inductive step : Type :=
  | MkdirAll (path : string)
  | OpenFile (path : string) (ok : bool)
  | Open (path : string) (ok : bool)
  | Run (name : string) (producers : nat)
  | Write (path : string) (text : string)
  | Close (path : string)
  | Reset
  | Done.

(** The error of a failed [os.OpenFile] or [os.Open]. *)
Inductive error : Type := PathError (op path : string).

(** How the process ends: [os.Exit] with a status, a panic in a goroutine
    (status 2), or [Main] waiting in its [select] for good. *)
Inductive ending : Type :=
  | Exit (status : Z)
  | Crash
  | Waits.

(** *** One configured case in two worlds *)

(** The receiver after the one call of [oneRound] and the reset. *)
Definition NewWebhookReceiver_counted : WebhookReceiver :=
  mkWebhookReceiver
    {[ ("{}:{}", "http://localhost:9093", "b1a76bcdbb632f34") := 1%nat ]} [].

Definition ams : list string := ["http://localhost:9093/api/v1/alerts"].

(** A stand-in for [filepath.Join] of two elements, which it agrees with on
    elements like those of the cases below: both are clean relative paths,
    and [name] is neither empty nor a dot or a double dot. *)
Definition slashJoin (dir name : string) : string := dir +:+ "/" +:+ name.

Definition smoke : LoadTestConfig :=
  mkLoadTestConfig "smoke" 3000000000 1 2 3 1000000000 "dataset.txt".

(** A run in which every producer delivers once and the target calls the
    webhook once, half a second later. *)
Definition oneRound (c : LoadTestConfig) (lt : list LoadProducer) (d : Dataset)
  : outcome (list LoadProducer * list (WebhookData * Z)) :=
  Returns
    ((λ lp, mkLoadProducer (alertmanagers lp) (alertProducer lp) (fireInterval lp)
              [delivery]) <$> lt,
     [(mkWebhookData "{}:{}" "http://localhost:9093"
         (Some <$> (alertOfLabels <$> twoAlerts)),
       1500000000 * 10 ^ 9 + 5 * 10 ^ 8)]).

Section WithWorld.

(** [xxhash.Sum64] and [t.UTC().Format(layout)]. *)
Variable Sum64 : list byte → Z.
Variable Format : Z → string → string.

(** [filepath.Join] of package path/filepath, called with two elements. *)
Variable Join : string → string → string.

(** The files: whether the report at a path can be created, and the lines
    of the dataset at a path when it can be opened. *)
Variable createReport : string → bool.
Variable openDataset : string → option (list string).

(** [lt.Run()] and the wait after it: the producers as they are when the
    case is over, and the webhook calls that came in, each with the time
    it was handled; [Panics] when a delivery failed. *)
Variable run : LoadTestConfig → list LoadProducer → Dataset →
               outcome (list LoadProducer * list (WebhookData * Z)).

(** [alertHashes] on the alerts of a decoded body: [hashAlert] reads
    [a.Labels] of each and so panics on an alert that is nil. *)
Fixpoint alertHashesOf (a : list (option Alert)) (res : list Z) : outcome (list Z) :=
  match a with
  | [] => Returns res
  | None :: _ => Panics
  | Some x :: a => alertHashesOf a (res ++ [hashAlert Sum64 x])
  end.

(** The function that [WebhookReceiver.Handler] returns, on one decoded call
    handled at the instant [now]. *)
Definition Handler (wr : WebhookReceiver) (call : WebhookData * Z)
  : outcome WebhookReceiver :=
  let '(data, now) := call in
  alertHashes ← alertHashesOf (Alerts data) [];
  let hash := hashHashes alertHashes in
  let labels := (GroupKey data, ExternalURL data, hex hash) in
  Returns
    (mkWebhookReceiver
       (<[labels := S (default 0%nat (notificationsReceived wr !! labels))]>
          (notificationsReceived wr))
       (Add (notifications wr)
          (mkNotification now (ExternalURL data) (GroupKey data) hash alertHashes))).

(** The receiver after the server has served a call.  The server of
    [net/http] recovers a panic of a handler and goes on serving, so a call
    whose handler panics leaves the receiver as it was. *)
Definition served (wr : WebhookReceiver) (call : WebhookData * Z) : WebhookReceiver :=
  match Handler wr call with
  | Returns wr' => wr'
  | Panics => wr
  | OutOfFuel => wr
  end.

(** The notification the handler records for a call, none when it panics. *)
Definition recorded (call : WebhookData * Z) : option notification :=
  match alertHashesOf (Alerts call.1) [] with
  | Returns alertHashes =>
      Some (mkNotification call.2 (ExternalURL call.1) (GroupKey call.1)
              (hashHashes alertHashes) alertHashes)
  | Panics => None
  | OutOfFuel => None
  end.

(** Body of the loop of [RunLoadTests] for one configured case: what it
    did, the receiver after it, and [Returns None] when the loop goes on. *)
Definition testCase (ams : list string) (r : WebhookReceiver) (c : LoadTestConfig)
  : list step * WebhookReceiver * outcome (option error) :=
  let resultDirPath := Join "test_results" (Name c) in
  let reportFilePath := Join resultDirPath "report" in
  if negb (createReport reportFilePath)
  then ([MkdirAll resultDirPath; OpenFile reportFilePath false], r,
        Returns (Some (PathError "open" reportFilePath)))
  else
    match openDataset (DatasetFile c) with
    | None =>
        ([MkdirAll resultDirPath; OpenFile reportFilePath true;
          Open (DatasetFile c) false], r,
         Returns (Some (PathError "open" (DatasetFile c))))
    | Some lines =>
        let d := NewDataset lines in
        let lt := NewLoadTest c ams in
        let before := [MkdirAll resultDirPath; OpenFile reportFilePath true;
                       Open (DatasetFile c) true; Run (Name c) (length lt)] in
        match run c lt d with
        | Returns (lt, calls) =>
            let r := foldl served r calls in
            let alertsFiredEvents := loadTestEvents lt in
            let notificationsReceivedEvents := receiverEvents r in
            match Merge.mergeSortEvents Timestamp
                    (alertsFiredEvents ++ [notificationsReceivedEvents]) with
            | Returns events =>
                let text := foldl (λ out e, Print Sum64 Format e out) "" events in
                (before ++ [Write reportFilePath text; Close reportFilePath; Reset],
                 ResetEvents r, Returns None)
            | Panics => (before, r, Panics)
            | OutOfFuel => (before, r, OutOfFuel)
            end
        | Panics => (before, r, Panics)
        | OutOfFuel => (before, r, OutOfFuel)
        end
    end.

(** [RunLoadTests] *)
Fixpoint RunLoadTests (ams : list string) (r : WebhookReceiver)
    (configs : list LoadTestConfig)
  : list step * WebhookReceiver * outcome (option error) :=
  match configs with
  | [] => ([Done], r, Returns None)
  | c :: configs =>
      match testCase ams r c with
      | (steps, r, Returns None) =>
          let '(rest, r, result) := RunLoadTests ams r configs in
          (steps ++ rest, r, result)
      | stopped => stopped
      end
  end.

(** The command line and the surroundings of [Main]. *)
Record surroundings : Type := mkSurroundings {
  noload : bool;
  parseAlertmanagers : option (list string);
  readConfig : option (list byte);
  unmarshal : list byte → option (list LoadTestConfig);
  listen : bool;
  terminated : bool
}.

(** [Main]: the result of [RunLoadTests], started with [go], is dropped;
    after the listener is up [Main] waits for a signal or for [done], which
    [RunLoadTests] sends just before it returns nil.  [terminated] says
    that a signal comes in while [Main] waits.  The merge is given enough
    steps, so the last case does not occur. *)
Definition Main (w : surroundings) : ending :=
  match parseAlertmanagers w with
  | None => Exit 1
  | Some ams =>
      match readConfig w with
      | None => Exit 1
      | Some b =>
          match unmarshal w b with
          | None => Exit 1
          | Some config =>
              let tests :=
                if noload w then None
                else Some (RunLoadTests ams NewWebhookReceiver config) in
              if negb (listen w) then Exit 1
              else if terminated w then Exit 0
              else
                match tests with
                | None => Waits
                | Some (_, _, Returns None) => Exit 0
                | Some (_, _, Returns (Some _)) => Waits
                | Some (_, _, Panics) => Crash
                | Some (_, _, OutOfFuel) => Waits
                end
          end
      end
  end.

(** *** The receiver log *)

Lemma alertHashesOf_Some (alerts : list Alert) (res : list Z) :
  alertHashesOf (Some <$> alerts) res = Returns (res ++ (hashAlert Sum64 <$> alerts)).
Proof.
  revert res. induction alerts as [|a alerts IH]; intros res; simpl.
  - by rewrite app_nil_r.
  - rewrite IH. by rewrite <- app_assoc.
Qed.

Lemma alertHashesOf_Returns (a : list (option Alert)) (res hashes : list Z) :
  alertHashesOf a res = Returns hashes →
  ∃ alerts, a = Some <$> alerts ∧ hashes = res ++ (hashAlert Sum64 <$> alerts).
Proof.
  revert res. induction a as [|[x|] a IH]; intros res; simpl.
  - intros [= <-]. exists []. by rewrite app_nil_r.
  - intros (alerts & -> & ->)%IH. exists (x :: alerts). by rewrite <- app_assoc.
  - other_result.
Qed.

Lemma alertHashesOf_nil (a : list (option Alert)) (res : list Z) :
  None ∈ a → alertHashesOf a res = Panics.
Proof.
  revert res. induction a as [|[x|] a IH]; intros res Hin; simpl.
  - by apply elem_of_nil in Hin.
  - apply IH. by apply elem_of_cons in Hin as [?|?].
  - done.
Qed.

(** The log after one call. *)
Lemma served_log (wr : WebhookReceiver) (call : WebhookData * Z) :
  notifications (served wr call)
  = notifications wr ++ match recorded call with Some n => [n] | None => [] end.
Proof.
  destruct call as [data now]. unfold served, Handler, recorded. simpl.
  destruct (alertHashesOf (Alerts data) []); simpl; [done|by rewrite app_nil_r..].
Qed.

Lemma Handler_log (calls : list (WebhookData * Z)) (wr : WebhookReceiver) :
  notifications (foldl served wr calls) = notifications wr ++ omap recorded calls.
Proof.
  revert wr. induction calls as [|call calls IH]; intros wr; simpl.
  - by rewrite app_nil_r.
  - rewrite IH, served_log. destruct (recorded call); by rewrite <- app_assoc.
Qed.


(** A case whose report or dataset cannot be opened returns the error
    before its producers are started, and leaves the receiver as it was. *)
Lemma testCase_aborts ams r c :
  createReport (Join (Join "test_results" (Name c)) "report") = false
  ∨ openDataset (DatasetFile c) = None →
  ∃ steps err,
    testCase ams r c = (steps, r, Returns (Some err)) ∧
    (∀ name producers, ¬ (Run name producers ∈ steps)).
Proof.
  intros Hfail. unfold testCase.
  destruct (createReport _) eqn:Hreport; simpl.
  - destruct Hfail as [?|Hdata]; [done|]. rewrite Hdata.
    eexists _, _. split; [done|]. intros name n Hin.
    repeat (apply elem_of_cons in Hin as [?|Hin]; [done|]).
    by apply elem_of_nil in Hin.
  - eexists _, _. split; [done|]. intros name n Hin.
    repeat (apply elem_of_cons in Hin as [?|Hin]; [done|]).
    by apply elem_of_nil in Hin.
Qed.

(** After such a case [RunLoadTests] returns the error without sending on
    [done], whatever cases follow. *)
Lemma RunLoadTests_aborts ams r c configs :
  createReport (Join (Join "test_results" (Name c)) "report") = false
  ∨ openDataset (DatasetFile c) = None →
  ∃ steps err,
    RunLoadTests ams r (c :: configs) = (steps, r, Returns (Some err)) ∧
    ¬ (Done ∈ steps) ∧ (∀ name producers, ¬ (Run name producers ∈ steps)).
Proof.
  intros Hfail.
  destruct (testCase_aborts ams r c Hfail) as (steps & err & Hcase & Hrun).
  exists steps, err. simpl. rewrite Hcase. split; [done|]. split; [|done].
  revert Hcase. unfold testCase.
  destruct (createReport _); simpl.
  - destruct (openDataset _).
    + destruct (run _ _ _) as [[??]| |]; [|other_result|other_result].
      destruct (Merge.mergeSortEvents _ _); other_result.
    + intros [= <- _] Hin.
      repeat (apply elem_of_cons in Hin as [?|Hin]; [done|]).
      by apply elem_of_nil in Hin.
  - intros [= <- _] Hin.
    repeat (apply elem_of_cons in Hin as [?|Hin]; [done|]).
    by apply elem_of_nil in Hin.
Qed.

(** With the listener up and the tests enabled, [Main] does not exit with
    a status other than 0 when the first case cannot open its files. *)
Lemma Main_drops_error w ams b c configs :
  parseAlertmanagers w = Some ams →
  readConfig w = Some b →
  unmarshal w b = Some (c :: configs) →
  noload w = false → listen w = true →
  createReport (Join (Join "test_results" (Name c)) "report") = false
  ∨ openDataset (DatasetFile c) = None →
  Main w = if terminated w then Exit 0 else Waits.
Proof.
  intros Hams Hread Hconf Hload Hlisten Hfail.
  destruct (RunLoadTests_aborts ams NewWebhookReceiver c configs Hfail)
    as (steps & err & Hrun & _).
  unfold Main. rewrite Hams, Hread, Hconf, Hload, Hlisten, Hrun. done.
Qed.

(** *** The properties of the specification *)


End WithWorld.

(** The files are there. *)
Definition smokeCase : list step * WebhookReceiver * outcome (option error) :=
  testCase Xxhash.Sum64 formatUTC slashJoin (λ _, true) (λ _, Some tenLines) oneRound
    ams NewWebhookReceiver smoke.

(** The command with its listener up and the tests enabled, in a world
    where reports can be created and datasets are as [datasets] says. *)
Definition command (datasets : string → option (list string)) (terminated : bool)
  : ending :=
  Main Xxhash.Sum64 formatUTC slashJoin (λ _, true) datasets oneRound
    (mkSurroundings false (Some ams) (Some []) (λ _, Some [smoke]) true terminated).

Example smokeCase_report :
  smokeCase
  = ([MkdirAll "test_results/smoke"; OpenFile "test_results/smoke/report" true;
      Open "dataset.txt" true; Run "smoke" 1;
      Write "test_results/smoke/report"
        ("ALERTS       2017-07-14T02:40:00.000000000Z http://localhost:9093/api/v1/alerts  d98d1f86d4d6c49a 682a744b6fb5ebae"
         +:+ newline +:+
         ("NOTIFICATION 2017-07-14T02:40:00.500000000Z http://localhost:9093 {}:{} b1a76bcdbb632f34 d98d1f86d4d6c49a 682a744b6fb5ebae"
          +:+ newline));
      Close "test_results/smoke/report"; Reset],
     NewWebhookReceiver_counted, Returns None) ∧
  command (λ _, Some tenLines) false = Exit 0.
Proof. by vm_compute. Qed.

(** C7 fails on the code.  When the dataset of the case cannot be opened,
    [RunLoadTests] returns the error before any producer is started, but
    [Main] has dropped that result: it goes on waiting, and exits with
    status 0 when it is told to terminate.  The same holds when the report
    cannot be created. *)
Theorem open_error_not_surfaced :
  RunLoadTests Xxhash.Sum64 formatUTC slashJoin (λ _, true) (λ _, None) oneRound
    ams NewWebhookReceiver [smoke]
  = ([MkdirAll "test_results/smoke"; OpenFile "test_results/smoke/report" true;
      Open "dataset.txt" false],
     NewWebhookReceiver, Returns (Some (PathError "open" "dataset.txt"))) ∧
  command (λ _, None) false = Waits ∧
  command (λ _, None) true = Exit 0 ∧
  Main Xxhash.Sum64 formatUTC slashJoin (λ _, false) (λ _, Some tenLines) oneRound
    (mkSurroundings false (Some ams) (Some []) (λ _, Some [smoke]) true true)
  = Exit 0.
Proof. by vm_compute. Qed.


End Orchestrator.

(** ** The merge on arbitrary inputs *)

Module MergeFacts.
Import Go Merge.

Section WithEvent.

Context {Event : Type}.
Variable Timestamp : Event → Z.

(** The variables [mergeSortEvents] starts from. *)
Definition initial (e : list (list Event)) : vars :=
  mkVars e (replicate (length e) 0%nat) 0 [].

(** Every sequence that is not empty stands at one of its elements and is
    in ascending order of timestamps; the selected position is one of the
    sequences. *)
Definition standing (v : vars) : Prop :=
  Forall2 (λ k es, (es = [] ∨ (k < length es)%nat) ∧ StronglySorted (leT Timestamp) es)
    (indices v) (e v) ∧
  ((min v < length (e v))%nat ∨ e v = []).

(** The sequences that are not empty come first. *)
Definition emptiesLast (v : @vars Event) : Prop :=
  ∃ ne n, e v = ne ++ replicate n [] ∧ Forall (λ es, es ≠ []) ne ∧
          ((min v < length ne)%nat ∨ (ne = [] ∧ min v = 0%nat)).

(** *** More steps than needed *)

Lemma loop_more (fuel extra : nat) (v : vars) :
  loop Timestamp fuel v ≠ OutOfFuel →
  loop Timestamp (fuel + extra) v = loop Timestamp fuel v.
Proof.
  revert v. induction fuel as [|fuel IH]; intros v Hv.
  - simpl in *. destruct (e v) eqn:He; [|done]. destruct extra; simpl; by rewrite He.
  - simpl in *. destruct (e v); [done|].
    destruct (iteration Timestamp v) as [v'| |]; simpl in *; [by apply IH|done|done].
Qed.

(** *** No event is lost or made up *)

Lemma iteration_keeps v v' :
  length (indices v) = length (e v) →
  iteration Timestamp v = Returns v' →
  events v' ++ remaining v' ≡ₚ events v ++ remaining v.
Proof.
  intros Hlen Hit.
  destruct (iteration_split Timestamp v v' Hlen Hit)
    as (m & es & k & e1 & e2 & i1 & i2 & _ & He & Hi & Hl1 & Hl2 & Hev & Hcase).
  assert (Hl12 : length i1 = length e1) by lia.
  unfold remaining. rewrite He, Hi, remaining_middle by done.
  destruct Hcase as [(Hk & -> & -> & _)|(Hk & -> & -> & _)].
  - rewrite remaining_delete by done. rewrite Hev.
    destruct (es !! k) as [x|] eqn:Hx.
    + apply lookup_lt_Some in Hx as Hlt.
      rewrite (drop_S _ _ _ Hx), (drop_ge es (S k)) by lia.
      rewrite <- !app_assoc. simpl. f_equiv. apply Permutation_middle.
    + apply lookup_ge_None in Hx. by rewrite (drop_ge es k) by lia.
  - rewrite He, remaining_middle by done. rewrite Hev.
    destruct (es !! k) as [x|] eqn:Hx.
    + rewrite (drop_S _ _ _ Hx). rewrite <- !app_assoc. simpl.
      f_equiv. apply Permutation_middle.
    + apply lookup_ge_None in Hx. lia.
Qed.

Lemma remaining_done (v : @vars Event) : e v = [] → remaining v = [].
Proof. intros He. unfold remaining. by rewrite He, zip_with_nil_r. Qed.

Lemma loop_keeps (fuel : nat) (v : vars) out :
  length (indices v) = length (e v) →
  loop Timestamp fuel v = Returns out →
  out ≡ₚ events v ++ remaining v.
Proof.
  revert v. induction fuel as [|fuel IH]; intros v Hlen; simpl.
  - pose proof (remaining_done v) as Hdone.
    destruct (e v); [|other_result]. intros [= <-].
    by rewrite Hdone, app_nil_r.
  - pose proof (remaining_done v) as Hdone.
    assert (Hstep : ∀ v', iteration Timestamp v = Returns v' →
              length (indices v') = length (e v') ∧
              events v' ++ remaining v' ≡ₚ events v ++ remaining v).
    { intros v' Hit. split; [|by apply iteration_keeps].
      by apply (iteration_measure Timestamp v v' Hlen Hit). }
    destruct (e v).
    + intros [= <-]. by rewrite Hdone, app_nil_r.
    + destruct (iteration Timestamp v) as [v'| |]; simpl; [|other_result..].
      intros Hloop. destruct (Hstep v' eq_refl) as [Hlen' Hkeep].
      by rewrite (IH v' Hlen' Hloop).
Qed.

(** *** The selection step over sequences some of which are empty *)

Lemma scanStep_skips e indices min i k :
  e !! i = Some [] → indices !! i = Some k →
  scanStep Timestamp e indices min i = Returns min.
Proof.
  intros He Hk. unfold scanStep.
  rewrite (index_Some _ _ _ Hk). simpl. by rewrite (index_Some _ _ _ He).
Qed.

Lemma scan_prefix_skips e indices min k :
  (∀ i, (i < length e)%nat →
        ∃ es j, e !! i = Some es ∧ indices !! i = Some j ∧
                (es = [] ∨ (j < length es)%nat)) →
  is_Some (current e indices min) →
  (k ≤ length e)%nat →
  ∃ m, forRange (scanStep Timestamp e indices) (seq 0 k) min = Returns m ∧
       selected Timestamp e indices min k m.
Proof.
  intros Hcur [x0 Hmin]. induction k as [|k IH]; intros Hk.
  - exists min. split; [done|]. exists x0.
    split; [done|]. split; [lia|]. split; [|by left].
    intros y Hy. rewrite Hmin in Hy. injection Hy as ->. lia.
  - destruct IH as (m & Hrun & x & Hx & Hle & Hlemin & Hfirst); [lia|].
    rewrite seq_S, forRange_app, Hrun. simpl.
    destruct (Hcur k ltac:(lia)) as (es & j & He & Hj & Hes).
    destruct (decide (es = [])) as [->|Hne].
    + rewrite (scanStep_skips _ _ _ _ j He Hj). simpl.
      assert (Hnone : current e indices k = None).
      { unfold current. rewrite He. simpl. rewrite Hj. simpl. done. }
      exists m. split; [done|]. exists x. split; [done|].
      split; [|split; [done|]].
      * intros i y Hi Hy. destruct (decide (i = k)) as [->|Hik].
        -- rewrite Hnone in Hy. done.
        -- apply (Hle i y); [lia|done].
      * destruct Hfirst as [->|(Hmk & Hltmin & Hlt)]; [by left|right].
        split; [lia|]. done.
    + destruct Hes as [?|Hjlt]; [done|].
      destruct (lookup_lt_is_Some_2 es j Hjlt) as [c Hcj].
      assert (Hc : current e indices k = Some c).
      { unfold current. rewrite He. simpl. rewrite Hj. simpl. done. }
      rewrite (scanStep_current Timestamp _ _ _ _ c x Hc Hx). simpl.
      unfold Before. destruct (Z.ltb_spec (Timestamp c) (Timestamp x)) as [Hlt|Hge].
      * exists k. split; [done|]. exists c. split; [done|].
        split; [|split].
        -- intros i y Hi Hy. destruct (decide (i = k)) as [->|Hik].
           ++ rewrite Hc in Hy. injection Hy as ->. lia.
           ++ specialize (Hle i y ltac:(lia) Hy). lia.
        -- intros y Hy. specialize (Hlemin y Hy). lia.
        -- destruct (decide (k = min)) as [->|Hkm]; [by left|right].
           split; [lia|]. split.
           ++ intros y Hy. specialize (Hlemin y Hy). lia.
           ++ intros i y Hi Hy. specialize (Hle i y Hi Hy). lia.
      * exists m. split; [done|]. exists x. split; [done|].
        split; [|split; [done|]].
        -- intros i y Hi Hy. destruct (decide (i = k)) as [->|Hik].
           ++ rewrite Hc in Hy. injection Hy as ->. lia.
           ++ apply (Hle i y); [lia|done].
        -- destruct Hfirst as [->|(Hmk & Hltmin & Hlt)]; [by left|right].
           split; [lia|]. done.
Qed.

(** From an empty selected sequence the scan returns that sequence, or it
    panics. *)
Lemma scanStep_from_empty e indices min i m :
  e !! min = Some [] →
  scanStep Timestamp e indices min i = Returns m → m = min.
Proof.
  intros Hmin. unfold scanStep, index. rewrite Hmin.
  destruct (indices !! i) as [k|]; simpl; [|other_result].
  destruct (e !! i) as [[|x es]|]; simpl; [by intros [= <-]| |other_result].
  destruct ((x :: es) !! k); simpl; [|other_result].
  destruct (indices !! min); simpl; other_result.
Qed.

Lemma scan_from_empty e indices min m :
  e !! min = Some [] →
  scan Timestamp e indices min = Returns m → m = min.
Proof.
  intros Hmin. unfold scan. generalize (seq 0 (length e)).
  intros range. induction range as [|i range IH]; simpl.
  - by intros [= <-].
  - destruct (scanStep Timestamp e indices min i) as [m'| |] eqn:Hstep;
      simpl; [|other_result..].
    apply scanStep_from_empty in Hstep as ->; [|done]. exact IH.
Qed.

Lemma scan_all_empty e indices min :
  length indices = length e →
  Forall (λ es, es = []) e →
  scan Timestamp e indices min = Returns min.
Proof.
  intros Hlen Hall. unfold scan.
  assert (Hrange : Forall (λ i, (i < length e)%nat) (seq 0 (length e))).
  { apply Forall_forall. intros i Hi%elem_of_seq. lia. }
  induction Hrange as [|i range Hi _ IH]; simpl; [done|].
  destruct (lookup_lt_is_Some_2 e i Hi) as [es Hes].
  destruct (lookup_lt_is_Some_2 indices i ltac:(lia)) as [k Hk].
  assert (es = []) as ->.
  { by apply (proj1 (Forall_forall _ _) Hall), list_elem_of_lookup; exists i. }
  rewrite (scanStep_skips _ _ _ _ k Hes Hk). simpl. exact IH.
Qed.

(** *** One iteration over sequences some of which are empty *)

Lemma standing_lookup (idx : list nat) (es : list (list Event)) :
  Forall2 (λ k s, (s = [] ∨ (k < length s)%nat) ∧ StronglySorted (leT Timestamp) s)
    idx es →
  ∀ i, (i < length es)%nat →
       ∃ s j, es !! i = Some s ∧ idx !! i = Some j ∧ (s = [] ∨ (j < length s)%nat).
Proof.
  intros HF i Hi.
  destruct (lookup_lt_is_Some_2 es i Hi) as [s Hs].
  destruct (Forall2_lookup_r _ _ _ _ _ HF Hs) as (j & Hj & Hjs & _).
  by exists s, j.
Qed.

Lemma standing_bound (idx : list nat) (es : list (list Event)) x :
  Forall2 (λ k s, (s = [] ∨ (k < length s)%nat) ∧ StronglySorted (leT Timestamp) s)
    idx es →
  (∀ i y, current es idx i = Some y → Timestamp x ≤ Timestamp y) →
  Forall (leT Timestamp x) (mjoin (zip_with drop idx es)).
Proof.
  intros HF. induction HF as [|k s idx es [Hk Hs] HF IH]; intros Hcur; simpl.
  - constructor.
  - apply Forall_app. split.
    + destruct (decide (s = [])) as [->|Hne]; [by rewrite drop_nil|].
      destruct Hk as [?|Hk]; [done|].
      destruct (lookup_lt_is_Some_2 s k Hk) as [h Hh].
      rewrite <- (take_drop k s) in Hs. apply StronglySorted_app_1_r in Hs.
      rewrite (drop_S _ _ _ Hh) in Hs |- *.
      apply StronglySorted_inv in Hs as [_ Hs].
      assert (Hxh : leT Timestamp x h) by (apply (Hcur 0%nat); exact Hh).
      constructor; [done|].
      eapply Forall_impl; [exact Hs|]. intros y Hy. unfold leT in *. lia.
    + apply IH. intros i y Hy. apply (Hcur (S i)). exact Hy.
Qed.

(** An iteration that starts from a sequence with a current element emits
    the earliest of the current elements. *)
Lemma iteration_emits v :
  standing v → is_Some (current (e v) (indices v) (min v)) →
  ∃ v' x m s, iteration Timestamp v = Returns v' ∧ standing v' ∧
    events v' = events v ++ [x] ∧
    remaining v ≡ₚ x :: remaining v' ∧
    Forall (leT Timestamp x) (remaining v) ∧
    e v !! m = Some s ∧ s ≠ [] ∧
    ((e v' = e v ∧ min v' = m) ∨ (e v' = delete m (e v) ∧ min v' = 0%nat)).
Proof.
  intros [HF Hmin] Hcurmin.
  assert (Hlt : (min v < length (e v))%nat).
  { destruct Hcurmin as [x Hx]. apply current_Some in Hx as (s & _ & Hs & _).
    by apply lookup_lt_Some in Hs. }
  destruct (scan_prefix_skips (e v) (indices v) (min v) (length (e v))
              (standing_lookup _ _ HF) Hcurmin ltac:(lia))
    as (m & Hscan & x & Hx & Hle & _ & _).
  fold (scan Timestamp (e v) (indices v) (min v)) in Hscan.
  assert (Hle' : ∀ i y, current (e v) (indices v) i = Some y → Timestamp x ≤ Timestamp y).
  { intros i y Hy. apply (Hle i y); [|done].
    apply current_Some in Hy as (s & _ & Hs & _). by apply lookup_lt_Some in Hs. }
  destruct (current_Some _ _ _ _ Hx) as (es & k & He & Hk & Hes).
  pose proof (iteration_selected Timestamp v m es k Hscan He Hk) as Hit.
  rewrite Hes in Hit. cbv zeta in Hit.
  pose proof (Forall2_length _ _ _ HF) as Hlen.
  pose proof (standing_bound _ _ x HF Hle') as Hbound.
  apply lookup_lt_Some in He as Hm. apply lookup_lt_Some in Hk as Hm'.
  apply lookup_lt_Some in Hes as Hklt.
  pose proof (take_drop_middle _ _ _ He) as Hesplit.
  pose proof (take_drop_middle _ _ _ Hk) as Hisplit.
  assert (Hl1 : length (take m (indices v)) = length (take m (e v))).
  { rewrite !length_take. lia. }
  rewrite <- Hesplit, <- Hisplit in HF.
  apply Forall2_app_inv in HF as [HF1 HF2]; [|done].
  apply Forall2_cons in HF2 as [[_ Hsorted] HF2].
  assert (Hrem : remaining v
                 = mjoin (zip_with drop (take m (indices v)) (take m (e v)))
                   ++ (x :: drop (S k) es)
                   ++ mjoin (zip_with drop (drop (S m) (indices v)) (drop (S m) (e v)))).
  { unfold remaining. rewrite <- Hesplit, <- Hisplit at 1.
    rewrite remaining_middle by done. by rewrite (drop_S _ _ _ Hes). }
  assert (Hne : es ≠ []) by (intros ->; simpl in Hklt; lia).
  destruct (Nat.leb_spec (length es) (S k)) as [Hend|Hmore].
  - eexists _, x, m, es. split; [exact Hit|].
    split; [|split; [done|split; [|split; [done|split; [done|split; [done|by right]]]]]].
    + split; simpl.
      * rewrite !delete_take_drop. by apply Forall2_app.
      * destruct (delete m (e v)); [by right|left; simpl; lia].
    + rewrite Hrem. unfold remaining. simpl. rewrite !delete_take_drop.
      rewrite remaining_delete by done.
      rewrite (drop_ge es (S k)) by done. simpl.
      by rewrite <- Permutation_middle.
  - eexists _, x, m, es. split; [exact Hit|].
    split; [|split; [done|split; [|split; [done|split; [done|split; [done|by left]]]]]].
    + split; simpl; [|by left].
      rewrite insert_take_drop by done. rewrite <- Hesplit.
      apply Forall2_app; [done|]. apply Forall2_cons. split; [|done].
      split; [|done]. by right.
    + rewrite Hrem. unfold remaining. simpl.
      rewrite insert_take_drop by done.
      replace (zip_with drop (take m (indices v) ++ S k :: drop (S m) (indices v)) (e v))
        with (zip_with drop (take m (indices v) ++ S k :: drop (S m) (indices v))
                (take m (e v) ++ es :: drop (S m) (e v)))
        by (by rewrite Hesplit).
      rewrite remaining_middle by done.
      by rewrite <- Permutation_middle.
Qed.

(** An iteration that starts from an empty sequence and returns has
    dropped that sequence and emitted nothing. *)
Lemma iteration_drops_empty v v' :
  standing v → e v !! min v = Some [] →
  iteration Timestamp v = Returns v' →
  standing v' ∧ events v' = events v ∧ remaining v' = remaining v ∧
  e v' = delete (min v) (e v) ∧ min v' = 0%nat.
Proof.
  intros [HF Hmin] Hempty Hit.
  pose proof (Forall2_length _ _ _ HF) as Hlen.
  destruct (iteration_Returns Timestamp v v' Hit) as (m & es & k & Hscan & He & Hk).
  apply scan_from_empty in Hscan as Hm; [|done]. subst m.
  rewrite Hempty in He. injection He as <-.
  rewrite (iteration_selected Timestamp v (min v) [] k Hscan Hempty Hk) in Hit.
  simpl in Hit. injection Hit as <-. simpl.
  apply lookup_lt_Some in Hempty as Hm. apply lookup_lt_Some in Hk as Hm'.
  pose proof (take_drop_middle _ _ _ Hempty) as Hesplit.
  pose proof (take_drop_middle _ _ _ Hk) as Hisplit.
  assert (Hl1 : length (take (min v) (indices v)) = length (take (min v) (e v))).
  { rewrite !length_take. lia. }
  rewrite <- Hesplit, <- Hisplit in HF.
  apply Forall2_app_inv in HF as [HF1 HF2]; [|done].
  apply Forall2_cons in HF2 as [_ HF2].
  split; [|split; [done|split; [|done]]].
  - split; simpl.
    + rewrite !delete_take_drop. by apply Forall2_app.
    + destruct (delete (min v) (e v)); [by right|left; simpl; lia].
  - unfold remaining. simpl. rewrite !delete_take_drop.
    rewrite remaining_delete by done.
    rewrite <- Hesplit, <- Hisplit at 3.
    rewrite remaining_middle by done. by rewrite drop_nil.
Qed.

(** Under [standing] the selected sequence is empty or has a current
    element. *)
Lemma standing_min v :
  standing v → e v ≠ [] →
  e v !! min v = Some [] ∨ is_Some (current (e v) (indices v) (min v)).
Proof.
  intros [HF Hmin] Hne. destruct Hmin as [Hmin|]; [|done].
  destruct (standing_lookup _ _ HF (min v) Hmin) as (s & j & Hs & Hj & [->|Hjs]).
  - by left.
  - right. unfold current. rewrite Hs. simpl. rewrite Hj. simpl.
    by apply lookup_lt_is_Some_2.
Qed.

(** *** The merged sequence is in ascending order *)

Lemma loop_ascending (fuel : nat) (v : vars) out :
  standing v →
  loop Timestamp fuel v = Returns out →
  ∃ rest, out = events v ++ rest ∧ rest ≡ₚ remaining v ∧
          StronglySorted (leT Timestamp) rest.
Proof.
  revert v. induction fuel as [|fuel IH]; intros v Hst; simpl.
  - pose proof (remaining_done v) as Hdone.
    destruct (e v); [|other_result]. intros [= <-].
    exists []. rewrite Hdone, app_nil_r by done. split; [done|]. split; [done|constructor].
  - pose proof (remaining_done v) as Hdone.
    pose proof (standing_min v Hst) as Hmin.
    destruct (e v) as [|s e'] eqn:He.
    { intros [= <-]. exists []. rewrite Hdone, app_nil_r by done.
      split; [done|]. split; [done|constructor]. }
    rewrite <- He in *. clear Hdone.
    destruct Hmin as [Hempty|Hcur]; [by rewrite He| |].
    + destruct (iteration Timestamp v) as [v'| |] eqn:Hit; simpl; [|other_result..].
      intros Hloop.
      destruct (iteration_drops_empty v v' Hst Hempty Hit) as (Hst' & Hev & Hrem & _).
      destruct (IH v' Hst' Hloop) as (rest & -> & Hperm & Hsorted).
      exists rest. by rewrite <- Hev, <- Hrem.
    + destruct (iteration_emits v Hst Hcur)
        as (v' & x & m & s' & Hit & Hst' & Hev & Hperm & Hbound & _).
      rewrite Hit. simpl. intros Hloop.
      destruct (IH v' Hst' Hloop) as (rest & -> & Hrest & Hsorted).
      exists (x :: rest). split; [by rewrite Hev, <- app_assoc|].
      split; [by rewrite Hperm, Hrest|].
      constructor; [done|]. rewrite Hrest.
      rewrite Hperm in Hbound. by apply Forall_cons in Hbound as [_ ?].
Qed.

(** *** Sequences that are not empty followed by empty ones *)

Lemma emptiesLast_min v :
  emptiesLast v → standing v →
  ((e v = [] ∨ Forall (λ es, es = []) (e v)) ∧ min v = 0%nat)
  ∨ is_Some (current (e v) (indices v) (min v)).
Proof.
  intros (ne & n & He & Hne & Hmin) [HF _].
  destruct Hmin as [Hlt|[-> Hmin]].
  - right.
    destruct (standing_lookup _ _ HF (min v)) as (s & j & Hs & Hj & Hjs).
    { rewrite He, length_app. lia. }
    assert (s ≠ []) as Hs'.
    { rewrite He, lookup_app_l in Hs by done.
      by apply (proj1 (Forall_forall _ _) Hne), list_elem_of_lookup; exists (min v). }
    destruct Hjs as [?|Hjs]; [done|].
    unfold current. rewrite Hs. simpl. rewrite Hj. simpl.
    by apply lookup_lt_is_Some_2.
  - left. split; [|done]. right. rewrite He. simpl.
    apply Forall_forall. intros es Hes. by apply elem_of_replicate in Hes as [-> _].
Qed.

Lemma loop_emptiesLast (fuel : nat) (v : vars) :
  standing v → emptiesLast v → (measure v ≤ fuel)%nat →
  ∃ out, loop Timestamp fuel v = Returns (events v ++ out) ∧
         out ≡ₚ remaining v ∧ StronglySorted (leT Timestamp) out.
Proof.
  revert v. induction fuel as [|fuel IH]; intros v Hst Hshape Hm.
  - exists []. pose proof (remaining_done v) as Hdone. unfold measure in Hm.
    simpl. destruct (e v); simpl in *; [|lia].
    rewrite Hdone, app_nil_r by done. split; [done|]. split; [done|constructor].
  - destruct (decide (e v = [])) as [He|Hne].
    { exists []. rewrite (remaining_done v He), app_nil_r. simpl. rewrite He.
      split; [done|]. split; [done|constructor]. }
    pose proof (Forall2_length _ _ _ (proj1 Hst)) as Hlen.
    assert (Hloop : ∀ v', iteration Timestamp v = Returns v' →
              loop Timestamp (S fuel) v = loop Timestamp fuel v').
    { intros v' Hit. simpl. rewrite Hit. by destruct (e v). }
    destruct (emptiesLast_min v Hshape Hst) as [[[?|Hall] Hmin0]|Hcur]; [done| |].
    + (* only empty sequences are left: the first one is dropped *)
      assert (H0 : e v !! min v = Some []).
      { rewrite Hmin0. destruct (e v) as [|s e'] eqn:He; [done|].
        apply Forall_cons in Hall as [-> _]. done. }
      destruct (lookup_lt_is_Some_2 (indices v) (min v)) as [k Hk].
      { apply lookup_lt_Some in H0. lia. }
      pose proof (iteration_selected Timestamp v (min v) [] k
                    (scan_all_empty (e v) (indices v) (min v) Hlen Hall) H0 Hk) as Hit.
      simpl in Hit.
      destruct (iteration_drops_empty v _ Hst H0 Hit) as (Hst' & Hev & Hrem & He' & Hmin').
      destruct (iteration_measure Timestamp v _ Hlen Hit) as [_ Hm'].
      destruct (IH _ Hst') as (out & Hout & Hperm & Hsorted); [|lia|].
      { exists [], (length (e v) - 1)%nat. simpl in *.
        split; [|split; [constructor|by right]].
        rewrite Hmin0. destruct (e v) as [|s e'] eqn:He; [done|].
        apply Forall_cons in Hall as [_ Hall]. simpl. rewrite Nat.sub_0_r.
        clear -Hall. induction Hall as [|s e' -> _ IH]; [done|]. simpl. by rewrite <- IH. }
      exists out. rewrite (Hloop _ Hit), Hout. simpl. by rewrite <- Hrem.
    + destruct (iteration_emits v Hst Hcur)
        as (v' & x & m & s & Hit & Hst' & Hev & Hperm & Hbound & Hs & Hsne & Hcase).
      destruct (iteration_measure Timestamp v v' Hlen Hit) as [_ Hm'].
      destruct Hshape as (ne & n & He & Hnes & _).
      assert (Hmne : (m < length ne)%nat).
      { destruct (decide (m < length ne)%nat) as [|Hge]; [done|].
        rewrite He, lookup_app_r in Hs by lia.
        apply lookup_replicate in Hs as [-> _]. done. }
      destruct (IH v' Hst') as (out & Hout & Hrest & Hsorted); [|lia|].
      { destruct Hcase as [[He' Hmin']|[He' Hmin']].
        - exists ne, n. rewrite He', Hmin'. split; [done|]. split; [done|by left].
        - exists (delete m ne), n. rewrite He', Hmin', He.
          split.
          { rewrite !delete_take_drop, take_app_le, drop_app_le by lia.
            by rewrite <- app_assoc. }
          split; [by apply Forall_delete|].
          destruct (delete m ne); [by right|left; simpl; lia]. }
      exists (x :: out). rewrite (Hloop _ Hit), Hout, Hev, <- app_assoc.
      split; [done|]. split; [by rewrite Hperm, Hrest|].
      constructor; [done|]. rewrite Hrest.
      rewrite Hperm in Hbound. by apply Forall_cons in Hbound as [_ ?].
Qed.

(** *** Each sequence keeps its order *)

Lemma iteration_suffixes v v' (rest : list Event) :
  length (indices v) = length (e v) →
  iteration Timestamp v = Returns v' →
  Forall2 (λ k es, drop k es `sublist_of` rest) (indices v') (e v') →
  ∃ pre, events v' = events v ++ pre ∧
         Forall2 (λ k es, drop k es `sublist_of` pre ++ rest) (indices v) (e v).
Proof.
  intros Hlen Hit HF.
  destruct (iteration_split Timestamp v v' Hlen Hit)
    as (m & es & k & e1 & e2 & i1 & i2 & _ & He & Hi & Hl1 & Hl2 & Hev & Hcase).
  assert (Hl12 : length i1 = length e1) by lia.
  set (pre := match es !! k with Some x => [x] | None => [] end).
  exists pre.
  split; [by unfold pre; destruct (es !! k); rewrite Hev, ?app_nil_r|].
  assert (Hweak : ∀ idx s,
            Forall2 (λ k es, drop k es `sublist_of` rest) idx s →
            Forall2 (λ k es, drop k es `sublist_of` pre ++ rest) idx s).
  { intros idx s HF'. eapply Forall2_impl; [exact HF'|].
    intros j s' Hs'. by apply sublist_inserts_l. }
  rewrite He, Hi. unfold pre.
  destruct Hcase as [(Hk & He' & Hi' & _)|(Hk & He' & Hi' & _)];
    rewrite He', Hi' in HF.
  - apply Forall2_app_inv in HF as [HF1 HF2]; [|done].
    apply Forall2_app; [by apply Hweak|]. apply Forall2_cons. split; [|by apply Hweak].
    destruct (es !! k) as [x|] eqn:Hx.
    + rewrite (drop_S _ _ _ Hx), (drop_ge es (S k)) by lia.
      apply sublist_skip, sublist_nil_l.
    + apply lookup_ge_None in Hx. rewrite (drop_ge es k) by lia. apply sublist_nil_l.
  - rewrite He in HF.
    apply Forall2_app_inv in HF as [HF1 HF2]; [|done].
    apply Forall2_cons in HF2 as [Hes HF2].
    apply Forall2_app; [by apply Hweak|]. apply Forall2_cons. split; [|by apply Hweak].
    destruct (es !! k) as [x|] eqn:Hx.
    + rewrite (drop_S _ _ _ Hx). by apply sublist_skip.
    + apply lookup_ge_None in Hx. lia.
Qed.

Lemma loop_suffixes (fuel : nat) (v : vars) out :
  length (indices v) = length (e v) →
  loop Timestamp fuel v = Returns out →
  ∃ rest, out = events v ++ rest ∧
          Forall2 (λ k es, drop k es `sublist_of` rest) (indices v) (e v).
Proof.
  revert v. induction fuel as [|fuel IH]; intros v Hlen; simpl.
  - destruct (e v) eqn:He; [|other_result]. intros [= <-].
    exists []. rewrite app_nil_r. split; [done|].
    destruct (indices v); [constructor|done].
  - assert (Hstep : ∀ v', iteration Timestamp v = Returns v' →
              length (indices v') = length (e v') ∧
              ∀ rest, Forall2 (λ k es, drop k es `sublist_of` rest) (indices v') (e v') →
                ∃ pre, events v' = events v ++ pre ∧
                  Forall2 (λ k es, drop k es `sublist_of` pre ++ rest) (indices v) (e v)).
    { intros v' Hit. split; [by apply (iteration_measure Timestamp v v' Hlen Hit)|].
      intros rest. by apply iteration_suffixes. }
    destruct (e v) eqn:He.
    + intros [= <-]. exists []. rewrite app_nil_r. split; [done|].
      destruct (indices v); [constructor|done].
    + rewrite <- He in *.
      destruct (iteration Timestamp v) as [v'| |]; simpl; [|other_result..].
      intros Hloop. destruct (Hstep v' eq_refl) as [Hlen' Hsuf].
      destruct (IH v' Hlen' Hloop) as (rest & -> & HF).
      destruct (Hsuf rest HF) as (pre & -> & HF').
      exists (pre ++ rest). by rewrite <- app_assoc.
Qed.

(** *** What a merge that returns has returned *)

Lemma mergeSortEvents_keeps (e : list (list Event)) (out : list Event) :
  mergeSortEvents Timestamp e = Returns out → out ≡ₚ mjoin e.
Proof.
  intros Hret.
  apply loop_keeps in Hret; [|by simpl; rewrite length_replicate].
  by rewrite remaining_initial in Hret.
Qed.

Lemma mergeSortEvents_sublists (e : list (list Event)) (out : list Event) :
  mergeSortEvents Timestamp e = Returns out →
  Forall (λ es, es `sublist_of` out) e.
Proof.
  intros Hret.
  apply loop_suffixes in Hret as (rest & -> & HF); [|by simpl; rewrite length_replicate].
  simpl in *. clear -HF.
  induction e as [|es e IH]; [constructor|]. simpl in HF.
  apply Forall2_cons in HF as [Hes HF]. constructor; [done|by apply IH].
Qed.

Lemma mergeSortEvents_ascending (e : list (list Event)) (out : list Event) :
  Forall (StronglySorted (leT Timestamp)) e →
  mergeSortEvents Timestamp e = Returns out →
  StronglySorted (leT Timestamp) out.
Proof.
  intros Hsorted Hret.
  apply loop_ascending in Hret as (rest & -> & _ & Hrest); [done|].
  split; simpl.
  - apply Forall2_replicate_l; [done|].
    eapply Forall_impl; [exact Hsorted|]. intros es Hes. split; [|done].
    destruct es; [by left|right; simpl; lia].
  - destruct e; [by right|left; simpl; lia].
Qed.

Lemma mergeSortEvents_emptiesLast (ne : list (list Event)) (n : nat) :
  Forall (λ es, es ≠ [] ∧ StronglySorted (leT Timestamp) es) ne →
  ∃ out, mergeSortEvents Timestamp (ne ++ replicate n []) = Returns out ∧
         out ≡ₚ mjoin ne ∧ StronglySorted (leT Timestamp) out.
Proof.
  intros Hne. unfold mergeSortEvents.
  destruct (loop_emptiesLast (steps (ne ++ replicate n []))
              (mkVars (ne ++ replicate n [])
                 (replicate (length (ne ++ replicate n [])) 0%nat) 0 []))
    as (out & Hloop & Hperm & Hsorted).
  - split; simpl.
    + apply Forall2_replicate_l; [done|]. apply Forall_app. split.
      * eapply Forall_impl; [exact Hne|]. intros es [Hes Hs]. split; [|done].
        right. destruct es; [done|simpl; lia].
      * apply Forall_forall. intros es Hes. apply elem_of_replicate in Hes as [-> _].
        split; [by left|constructor].
    + destruct (ne ++ replicate n []); [by right|left; simpl; lia].
  - exists ne, n. simpl. split; [done|]. split.
    + eapply Forall_impl; [exact Hne|]. by intros es [Hes _].
    + destruct ne; [by right|left; simpl; lia].
  - by rewrite measure_initial.
  - exists out. split; [done|]. split; [|done].
    rewrite Hperm, remaining_initial, join_app.
    assert (Hnil : mjoin (replicate n (@nil Event)) = []).
    { clear. induction n as [|n IH]; [done|]. simpl. exact IH. }
    by rewrite Hnil, app_nil_r.
Qed.

(** *** Properties of the merge beyond the specification *)

(** X1.  Whatever the input, sorted or not and with or without empty sequences,
    a merge that returns has emitted every event of every sequence once and
    nothing else. *)
Theorem merge_keeps_every_event (e : list (list Event)) (out : list Event) :
  mergeSortEvents Timestamp e = Returns out →
  out ≡ₚ mjoin e ∧ length out = length (mjoin e).
Proof.
  intros Hret. pose proof (mergeSortEvents_keeps e out Hret) as Hperm.
  split; [done|]. by rewrite Hperm.
Qed.

(** X2.  Whatever the input, the events of each input sequence appear in the
    merged sequence in the order they have in that sequence. *)
Theorem merge_keeps_sequence_order (e : list (list Event)) (out : list Event) :
  mergeSortEvents Timestamp e = Returns out →
  Forall (λ es, es `sublist_of` out) e.
Proof. apply mergeSortEvents_sublists. Qed.

(** X3.  When every input sequence is in ascending order of timestamps, a merge
    that returns has returned an ascending sequence, also when some of the
    sequences are empty. *)
Theorem merge_ascending_when_it_returns (e : list (list Event)) (out : list Event) :
  Forall (StronglySorted (leT Timestamp)) e →
  mergeSortEvents Timestamp e = Returns out →
  StronglySorted (leT Timestamp) out.
Proof. apply mergeSortEvents_ascending. Qed.

(** X4.  Ascending sequences none of which is empty, followed by any number of
    empty sequences, are merged without a panic: the merge returns the events
    of the sequences in ascending order.  In particular the merge of empty
    sequences only, or of no sequence, returns no event. *)
Theorem merge_returns_when_empties_are_last (ne : list (list Event)) (n : nat) :
  Forall (λ es, es ≠ [] ∧ StronglySorted (leT Timestamp) es) ne →
  ∃ out, mergeSortEvents Timestamp (ne ++ replicate n []) = Returns out ∧
         out ≡ₚ mjoin ne ∧ StronglySorted (leT Timestamp) out.
Proof. apply mergeSortEvents_emptiesLast. Qed.

(** X5.  The loop of the merge ends on every input, with a result or a panic,
    after at most as many iterations as there are events and sequences: a
    run of the loop that is allowed more iterations than that ends as the
    merge does. *)
Theorem merge_terminates (e : list (list Event)) (fuel : nat) :
  (length (mjoin e) + length e ≤ fuel)%nat →
  loop Timestamp fuel (mkVars e (replicate (length e) 0%nat) 0 [])
  = mergeSortEvents Timestamp e ∧
  ((∃ out, mergeSortEvents Timestamp e = Returns out)
   ∨ mergeSortEvents Timestamp e = Panics).
Proof.
  intros Hfuel. pose proof (mergeSortEvents_fuel Timestamp e) as Hend. split.
  - unfold mergeSortEvents in *.
    replace fuel with (steps e + (fuel - steps e))%nat by (unfold steps; lia).
    by apply loop_more.
  - destruct (mergeSortEvents Timestamp e) as [out| |]; [left; by exists out|by right|done].
Qed.

End WithEvent.

(** A first sequence that is used up before the empty one comes first:
    the merge returns. *)
Definition lateThenEarly : list (list (Z * string)) :=
  [[(1, "A"%string)]; []; [(0, "B"%string)]].

Lemma merge_keeps_every_event_witness :
  mergeSortEvents fst lateThenEarly = Returns [(0, "B"%string); (1, "A"%string)] ∧
  [(0, "B"%string); (1, "A"%string)] ≡ₚ mjoin lateThenEarly ∧
  length [(0, "B"%string); (1, "A"%string)] = length (mjoin lateThenEarly).
Proof.
  assert (H : mergeSortEvents fst lateThenEarly
              = Returns [(0, "B"%string); (1, "A"%string)]) by reflexivity.
  split; [exact H|]. exact (merge_keeps_every_event fst lateThenEarly _ H).
Defined.

Lemma merge_keeps_sequence_order_witness :
  mergeSortEvents fst [streamA; streamB]
  = Returns [(1, "A"); (2, "B"); (3, "B"); (3, "A")]%string ∧
  Forall (λ es, es `sublist_of` [(1, "A"); (2, "B"); (3, "B"); (3, "A")]%string)
    [streamA; streamB].
Proof.
  assert (H : mergeSortEvents fst [streamA; streamB]
              = Returns [(1, "A"); (2, "B"); (3, "B"); (3, "A")]%string) by reflexivity.
  split; [exact H|]. exact (merge_keeps_sequence_order fst [streamA; streamB] _ H).
Defined.

Lemma merge_ascending_when_it_returns_witness :
  Forall (StronglySorted (leT fst)) lateThenEarly ∧
  mergeSortEvents fst lateThenEarly = Returns [(0, "B"%string); (1, "A"%string)] ∧
  StronglySorted (leT fst) [(0, "B"%string); (1, "A"%string)].
Proof.
  assert (H1 : Forall (StronglySorted (leT fst)) lateThenEarly).
  { repeat constructor. }
  assert (H2 : mergeSortEvents fst lateThenEarly
               = Returns [(0, "B"%string); (1, "A"%string)]) by reflexivity.
  split; [exact H1|]. split; [exact H2|].
  exact (merge_ascending_when_it_returns fst lateThenEarly _ H1 H2).
Defined.

Lemma merge_returns_when_empties_are_last_witness :
  Forall (λ es, es ≠ [] ∧ StronglySorted (leT fst) es) [streamA; streamB] ∧
  ∃ out, mergeSortEvents fst ([streamA; streamB] ++ replicate 1 []) = Returns out ∧
         out ≡ₚ mjoin [streamA; streamB] ∧ StronglySorted (leT fst) out.
Proof.
  assert (H : Forall (λ es, es ≠ [] ∧ StronglySorted (leT fst) es) [streamA; streamB]).
  { repeat constructor; unfold leT; simpl; try lia; discriminate. }
  split; [exact H|].
  exact (merge_returns_when_empties_are_last fst [streamA; streamB] 1 H).
Defined.

Lemma merge_terminates_witness :
  (length (mjoin [[]; streamB]) + length [[]; streamB] ≤ 10)%nat ∧
  loop fst 10 (mkVars [[]; streamB] (replicate (length [[]; streamB]) 0%nat) 0 [])
  = mergeSortEvents fst [[]; streamB] ∧
  ((∃ out, mergeSortEvents fst [[]; streamB] = Returns out)
   ∨ mergeSortEvents fst [[]; streamB] = Panics).
Proof.
  assert (H : (length (mjoin [[]; streamB]) + length [[]; streamB] ≤ 10)%nat)
    by (simpl; lia).
  split; [exact H|]. exact (merge_terminates fst [[]; streamB] 10 H).
Defined.

End MergeFacts.

(** ** The dataset and the batcher on arbitrary calls *)

Module BatcherFacts.
Import Go Hashing Batcher.

(** The window number [j] after the cursor [c], for the batch size [b]. *)
Definition nthWindow (materialized : list Labels) (c b j : Z) : list Alert :=
  window materialized (c + j * b) (c + j * b + b).

Section WithParser.

Variable parse : list byte → list Labels.
Variable grow : nat → nat → nat.

Lemma makeAlerts_ends (p : AlertProducer) (d : Dataset) :
  makeAlerts parse grow p d ≠ OutOfFuel.
Proof.
  unfold makeAlerts.
  destruct (Get parse grow d _ _) as [[d' effects] res] eqn:HGet.
  apply Get_result in HGet as [_ ->].
  unfold slice. destruct (_ && _); simpl; [|done].
  generalize (@nil Alert).
  generalize (take (Z.to_nat (wrap (index (rotated p) + batch (rotated p))
                              - index (rotated p)))
                (drop (Z.to_nat (index (rotated p)))
                   ((Some <$> dataset d') ++ replicate (spare d') None))).
  intros l. induction l as [|[labels|] l IH]; intros acc; simpl; [done| |done].
  specialize (IH (acc ++ [alertOfLabels labels])).
  destruct (alertsOf l (acc ++ [alertOfLabels labels])); simpl in *; done.
Qed.

(** *** Calls that do not rotate because the counter is past the interval *)

Lemma rotated_past (p : AlertProducer) :
  interval p < batchRepeated p → rotated p = p.
Proof.
  intros Hlt. unfold rotated.
  destruct (Z.eqb_spec (batchRepeated p) (interval p)); [lia|done].
Qed.

Lemma calls_Returns_past (n : nat) (p p' : AlertProducer) (d d' : Dataset) batches :
  inInt (index p) → inInt (batch p) → inInt (interval p) →
  interval p < batchRepeated p → batchRepeated p + Z.of_nat n < 2 ^ 63 →
  calls parse grow n p d = Returns (batches, p', d') →
  batches = replicate n (window (dataset d') (index p) (index p + batch p)) ∧
  index p' = index p ∧ batch p' = batch p ∧ interval p' = interval p ∧
  batchRepeated p' = batchRepeated p + Z.of_nat n ∧
  (∃ extra, dataset d' = dataset d ++ extra).
Proof.
  revert p d batches. induction n as [|n IH]; intros p d batches Hi Hb Hint Hrep Hn; simpl.
  - intros [= <- <- <-]. rewrite Z.add_0_r.
    repeat (split; [done|]). by exists []; rewrite app_nil_r.
  - destruct (makeAlerts parse grow p d) as [[[a p1] d1]| |] eqn:Hcall;
      simpl; [|other_result..].
    destruct (calls parse grow n p1 d1) as [[[bs p2] d2]| |] eqn:Hcalls;
      simpl; [|other_result..].
    intros [= <- <- <-].
    apply makeAlerts_Returns in Hcall as (Hc & Hb0 & Hmax & -> & Hin & -> & [ex1 Hex1]);
      [|done|done].
    rewrite (rotated_past p Hrep) in *.
    rewrite wrap_id in Hcalls by (unfold inInt in Hint; lia).
    apply IH in Hcalls as (-> & Hi2 & Hb2 & Hint2 & Hrep2 & [ex2 Hex2]);
      simpl; [|done|done|done|lia|lia].
    simpl in *. split; [|split; [done|split; [done|split; [done|split; [lia|]]]]].
    + f_equal. rewrite Hex2. symmetry. apply window_stable; [done|].
      destruct Hin; [by left|right; lia].
    + exists (ex1 ++ ex2). by rewrite Hex2, Hex1, <- app_assoc.
Qed.

(** *** The window of every call *)

Lemma calls_windows (n : nat) (p p' : AlertProducer) (d d' : Dataset) batches :
  inInt (index p) → inInt (batch p) →
  0 < interval p < 2 ^ 63 →
  0 ≤ batchRepeated p ≤ interval p →
  (batchRepeated p ≠ 0 → 0 ≤ index p ∧ 0 ≤ batch p ∧ index p + batch p < 2 ^ 63) →
  calls parse grow n p d = Returns (batches, p', d') →
  length batches = n ∧
  (∀ k : nat, (k < n)%nat →
     batches !! k
     = Some (nthWindow (dataset d') (index p) (batch p)
               ((batchRepeated p + Z.of_nat k) / interval p))) ∧
  (∃ extra, dataset d' = dataset d ++ extra) ∧
  (n ≠ 0%nat →
   index p' = index p + (batchRepeated p + Z.of_nat (n - 1)) / interval p * batch p ∧
   batchRepeated p' = (batchRepeated p + Z.of_nat (n - 1)) mod interval p + 1).
Proof.
  revert p d batches. induction n as [|n IH]; intros p d batches Hi Hb Hint Hrep Hserved; simpl.
  - intros [= <- <- <-]. split; [done|]. split; [intros k Hk; lia|].
    split; [by exists []; rewrite app_nil_r|done].
  - destruct (makeAlerts parse grow p d) as [[[a p1] d1]| |] eqn:Hcall;
      simpl; [|other_result..].
    destruct (calls parse grow n p1 d1) as [[[bs p2] d2]| |] eqn:Hcalls;
      simpl; [|other_result..].
    intros [= <- <- <-].
    apply makeAlerts_Returns in Hcall as (Hc & Hb0 & Hmax & -> & Hin & -> & [ex1 Hex1]);
      [|done|done].
    set (r := interval p) in *. set (j := batchRepeated p) in *.
    set (c := index p) in *. set (b := batch p) in *.
    assert (Hq : rotated p
                 = mkAlertProducer (c + (j / r) * b) b r (j mod r)
                   ∧ 0 ≤ j mod r < r ∧ 0 ≤ j / r).
    { unfold rotated. fold j r c b.
      destruct (Z.eqb_spec j r) as [Hjr|Hjr].
      - destruct Hserved as (? & ? & ?); [lia|].
        rewrite wrap_id by lia. rewrite Hjr, Z_div_same_full, Z_mod_same_full by lia.
        split; [f_equal; lia|lia].
      - rewrite Z.div_small, Z.mod_small by lia.
        split; [|lia]. destruct p. simpl in *. unfold c, b, r, j. f_equal. lia. }
    destruct Hq as (Hq & Hjm & Hjd). rewrite Hq in *. simpl in *.
    rewrite wrap_id in Hcalls by lia.
    pose proof Hcalls as Hcalls0.
    apply IH in Hcalls as (Hlen & Hwin & [ex2 Hex2] & Hlast); simpl;
      [|unfold inInt in *; lia|done|lia|lia|intros _; lia].
    cbn [index batch interval batchRepeated] in Hwin, Hlast.
    assert (Hdiv : ∀ t, 0 ≤ t → (j mod r + 1 + t) / r = (j + 1 + t) / r - j / r
                        ∧ (j mod r + 1 + t) mod r = (j + 1 + t) mod r).
    { intros t Ht.
      assert (Heq : j + 1 + t = j mod r + 1 + t + j / r * r)
        by (pose proof (Z.div_mod j r); lia).
      rewrite Heq, Z.div_add, Z.mod_add by lia. lia. }
    split; [by rewrite Hlen|]. split; [|split].
    + intros [|k] Hk; simpl.
      * f_equal. unfold nthWindow. rewrite Z.add_0_r, Hex2. symmetry.
        apply window_stable; [done|]. destruct Hin; [by left|right; lia].
      * rewrite (Hwin k) by lia. f_equal. unfold nthWindow.
        destruct (Hdiv (Z.of_nat k) ltac:(lia)) as [-> _].
        replace (j + Z.of_nat (S k)) with (j + 1 + Z.of_nat k) by lia.
        f_equal; ring.
    + exists (ex1 ++ ex2). by rewrite Hex2, Hex1, <- app_assoc.
    + intros _. rewrite Nat.sub_0_r. destruct n as [|n'].
      * simpl in Hcalls0. injection Hcalls0 as <- <- <-. simpl.
        rewrite !Z.add_0_r. done.
      * destruct (Hlast ltac:(done)) as [-> ->]. simpl. rewrite Nat.sub_0_r.
        destruct (Hdiv (Z.of_nat n') ltac:(lia)) as [-> ->].
        replace (j + Z.of_nat (S n')) with (j + 1 + Z.of_nat n') by lia.
        split; lia.
Qed.

(** Over a source with one label set per line a call materializes at most
    the label sets the source still holds. *)
Lemma Get_bounded (d d' : Dataset) (from to : Z) effects res :
  onePerLine parse (scanner d) →
  Get parse grow d from to = (d', effects, res) →
  (length (dataset d') ≤ length (dataset d) + length (scanner d))%nat.
Proof.
  intros Hparse HGet. pose proof (Get_conserves parse grow d from to) as Hcons.
  rewrite HGet in Hcons. destruct Hcons as (Hlines & Hinputs & Hdata & _).
  rewrite Hdata, Hinputs, Hlines, !length_app.
  destruct (to <=? _); simpl; [lia|]. rewrite app_nil_r.
  pose proof (Hparse 0%nat (length (linesRead effects))) as Hlen.
  rewrite drop_0, Hlines, take_app_length in Hlen. rewrite Hlen. lia.
Qed.

(** *** Calls that return *)

Lemma calls_return_past (n : nat) (p : AlertProducer) (d : Dataset) :
  interval p < batchRepeated p → 0 ≤ batchRepeated p →
  batchRepeated p + Z.of_nat n < 2 ^ 63 →
  onePerLine parse (scanner d) →
  0 ≤ index p → 0 ≤ batch p → index p + batch p < 2 ^ 63 →
  index p + batch p ≤ Z.of_nat (length (dataset d) + length (scanner d)) →
  ∃ batches p' d', calls parse grow n p d = Returns (batches, p', d').
Proof.
  revert p d. induction n as [|n IH]; intros p d Hpast Hrep Hn Hparse Hc Hb Hmax Havail.
  - by eexists _, _, _.
  - destruct (makeAlerts_repeats parse grow p d)
      as (d1 & Hcall & _ & Hparse1 & Hcons1 & _); [lia|done|done|done|done|done|lia|].
    destruct (IH (mkAlertProducer (index p) (batch p) (interval p) (batchRepeated p + 1)) d1)
      as (batches & p' & d' & Hcalls); simpl; [lia|lia|lia|done|done|done|done|lia|].
    simpl. rewrite Hcall. simpl. rewrite Hcalls. simpl. by eexists _, _, _.
Qed.

Lemma calls_return (n : nat) (p : AlertProducer) (d : Dataset) :
  0 < interval p < 2 ^ 63 → 0 ≤ batchRepeated p ≤ interval p →
  onePerLine parse (scanner d) → 0 ≤ index p → 0 ≤ batch p →
  (n ≠ 0%nat →
   index p + ((batchRepeated p + Z.of_nat n - 1) / interval p + 1) * batch p < 2 ^ 63 ∧
   index p + ((batchRepeated p + Z.of_nat n - 1) / interval p + 1) * batch p
   ≤ Z.of_nat (length (dataset d) + length (scanner d))) →
  ∃ batches p' d', calls parse grow n p d = Returns (batches, p', d').
Proof.
  revert p d. induction n as [|n IH]; intros p d Hint Hrep Hparse Hc Hb Hlast.
  - by eexists _, _, _.
  - destruct (Hlast ltac:(done)) as [Hmax Havail]. clear Hlast.
    set (r := interval p) in *. set (j := batchRepeated p) in *.
    set (c := index p) in *. set (b := batch p) in *.
    replace (j + Z.of_nat (S n) - 1) with (j + Z.of_nat n) in * by lia.
    assert (Hq : 0 ≤ (j + Z.of_nat n) / r) by (apply Z.div_pos; lia).
    destruct (decide (j = r)) as [Hjr|Hjr].
    + assert (Hdiv : (j + Z.of_nat n) / r = 1 + Z.of_nat n / r).
      { rewrite Hjr. replace (r + Z.of_nat n) with (1 * r + Z.of_nat n) by lia.
        apply Z.div_add_l. lia. }
      assert (Hq' : 0 ≤ Z.of_nat n / r) by (apply Z.div_pos; lia).
      rewrite Hdiv in *.
      destruct (makeAlerts_rotates parse grow p d)
        as (d1 & Hcall & _ & Hparse1 & Hcons1 & _); fold c b; [done|done|done|done|nia|nia|].
      destruct (IH (mkAlertProducer (c + b) b r 1) d1)
        as (batches & p' & d' & Hcalls); simpl; [lia|lia|done|lia|done| |].
      { intros _. replace (1 + Z.of_nat n - 1) with (Z.of_nat n) by lia.
        rewrite Hcons1. fold r. split; nia. }
      simpl. rewrite Hcall. simpl. fold c b r. rewrite Hcalls. simpl. by eexists _, _, _.
    + destruct (makeAlerts_repeats parse grow p d)
        as (d1 & Hcall & _ & Hparse1 & Hcons1 & _); fold c b j r;
        [done|done|done|done|nia|nia|lia|].
      destruct (IH (mkAlertProducer c b r (j + 1)) d1)
        as (batches & p' & d' & Hcalls); simpl; [lia|lia|done|done|done| |].
      { intros _. replace (j + 1 + Z.of_nat n - 1) with (j + Z.of_nat n) by lia.
        rewrite Hcons1. fold r. split; lia. }
      simpl. rewrite Hcall. simpl. fold c b r j. rewrite Hcalls. simpl. by eexists _, _, _.
Qed.

(** *** Properties of the dataset and the batcher beyond the specification *)

(** X6.  Whatever its arguments, a call of [Get] takes the lines it reads from
    the front of the source, in order, and leaves the others; it invokes the
    parser when [to] exceeds the materialized length and then only, once, on
    the bytes of just the lines it has read; and it appends the label sets
    of the parser to the materialized ones, which it never changes. *)
Theorem Get_conserves_lines (d : Dataset) (from to : Z) :
  let '(d', effects, res) := Get parse grow d from to in
  scanner d = linesRead effects ++ scanner d' ∧
  parserInputs effects
  = (if to <=? Z.of_nat (length (dataset d)) then [] else [rawBytes (linesRead effects)]) ∧
  dataset d' = dataset d ++ mjoin (parse <$> parserInputs effects) ∧
  (effects = [] ↔ to ≤ Z.of_nat (length (dataset d))).
Proof. apply Get_conserves. Qed.

(** X7.  A call of [makeAlerts] never returns a short batch: when it returns,
    it returns exactly [batch] alerts, those of the window at the cursor, and
    the window lies within the materialized label sets.  It panics when the
    batch size is negative, when the cursor is negative and when the end of
    the window is beyond the largest [int]. *)
Theorem makeAlerts_batch_is_full (p : AlertProducer) (d : Dataset) :
  inInt (index p) → inInt (batch p) →
  (∀ alerts p' d',
     makeAlerts parse grow p d = Returns (alerts, p', d') →
     Z.of_nat (length alerts) = batch p ∧
     index p' = index (rotated p) ∧
     alerts = window (dataset d') (index p') (index p' + batch p) ∧
     (batch p = 0 ∨ index p' + batch p ≤ Z.of_nat (length (dataset d')))) ∧
  (batch p < 0 ∨ index (rotated p) < 0 ∨ 2 ^ 63 ≤ index (rotated p) + batch p →
   makeAlerts parse grow p d = Panics).
Proof.
  intros Hi Hb.
  destruct (rotated_fields p Hi) as (_ & Hbq & _).
  split.
  - intros alerts p' d' Hcall.
    apply makeAlerts_Returns in Hcall as (Hc & Hb0 & Hmax & -> & Hin & -> & _);
      [|done|done].
    rewrite Hbq in *. simpl.
    split; [|split; [done|split; [done|destruct Hin; [by right|by left]]]].
    rewrite window_length; [lia|done|lia|]. destruct Hin; [by left|right; lia].
  - intros Hbad. pose proof (makeAlerts_ends p d) as Hends.
    destruct (makeAlerts parse grow p d) as [[[alerts p'] d']| |] eqn:Hcall; [|done|done].
    apply makeAlerts_Returns in Hcall as (Hc & Hb0 & Hmax & _); [|done|done].
    rewrite Hbq in *. lia.
Qed.

(** X8.  Over a source with one label set per line: when the window of a call
    holds at least one label set and ends beyond what the materialized label
    sets and the lines left in the source can supply, the call panics. *)
Theorem makeAlerts_panics_on_short_dataset (p : AlertProducer) (d : Dataset) :
  onePerLine parse (scanner d) →
  inInt (index p) → inInt (batch p) →
  0 < batch p →
  Z.of_nat (length (dataset d) + length (scanner d)) < index (rotated p) + batch p →
  makeAlerts parse grow p d = Panics.
Proof.
  intros Hparse Hi Hb Hpos Hshort.
  destruct (rotated_fields p Hi) as (_ & Hbq & _).
  pose proof (makeAlerts_ends p d) as Hends.
  destruct (makeAlerts parse grow p d) as [[[alerts p'] d']| |] eqn:Hcall; [|done|done].
  exfalso.
  destruct (makeAlerts_dataset _ _ _ _ _ _ _ Hcall) as (effects & res & HGet).
  apply (Get_bounded _ _ _ _ _ _ Hparse) in HGet.
  apply makeAlerts_Returns in Hcall as (_ & _ & _ & _ & Hin & _); [|done|done].
  rewrite Hbq in *. unfold Labels in *. lia.
Qed.

(** X9.  A batcher that has not served yet, with cursor [c], batch size [b]
    and rotation interval [r] > 0: of any number of calls that return, call
    number [k], counted from 0, has returned the alerts of the window
    [c + (k div r) b, c + (k div r) b + b), and after the last of [n] calls
    the cursor is at the window of that call.  Every batch holds [b] alerts;
    the label sets of the windows are those the dataset held before the
    calls, followed by what the parser returned for the lines the calls took
    from the front of the source; so with a parser that works line by line
    the windows are those of the label sets the dataset held and the label
    sets of the lines its source held, in order.  And [n] calls do return
    over a dataset that can supply the label sets up to the end of the
    window of the last of them. *)
Theorem makeAlerts_window_of_call (n : nat) (p : AlertProducer) (d : Dataset) :
  batchRepeated p = 0 → 0 < interval p →
  inInt (index p) → inInt (batch p) → inInt (interval p) →
  (∀ batches p' d',
     calls parse grow n p d = Returns (batches, p', d') →
     length batches = n ∧
     (∀ k : nat, (k < n)%nat →
        batches !! k
        = Some (nthWindow (dataset d') (index p) (batch p) (Z.of_nat k / interval p))) ∧
     (n ≠ 0%nat →
      index p' = index p + Z.of_nat (n - 1) / interval p * batch p ∧
      batchRepeated p' = Z.of_nat (n - 1) mod interval p + 1) ∧
     drawn parse d d' ∧
     Forall (λ alerts, Z.of_nat (length alerts) = batch p) batches ∧
     (∀ f, lineWise parse f (scanner d) →
        ∀ k : nat, (k < n)%nat →
          batches !! k
          = Some (nthWindow (supply f d) (index p) (batch p)
                    (Z.of_nat k / interval p)))) ∧
  (onePerLine parse (scanner d) → 0 ≤ index p → 0 ≤ batch p →
   (n ≠ 0%nat →
    index p + (Z.of_nat (n - 1) / interval p + 1) * batch p < 2 ^ 63 ∧
    index p + (Z.of_nat (n - 1) / interval p + 1) * batch p
    ≤ Z.of_nat (length (dataset d) + length (scanner d))) →
   ∃ batches p' d', calls parse grow n p d = Returns (batches, p', d')).
Proof.
  intros Hrep Hpos Hi Hb Hint. split.
  - intros batches p' d' Hcalls.
    pose proof (calls_drawn _ _ _ _ _ _ _ _ Hcalls) as Hdrawn.
    pose proof (calls_lengths _ _ _ _ _ _ _ _ Hi Hb Hcalls) as Hfull.
    apply calls_windows in Hcalls as (Hlen & Hwin & _ & Hlast);
      [|done|done|unfold inInt in Hint; lia|lia|lia].
    rewrite Hrep in *. split; [done|].
    assert (Hwin' : ∀ k : nat, (k < n)%nat →
              batches !! k
              = Some (nthWindow (dataset d') (index p) (batch p)
                        (Z.of_nat k / interval p))).
    { intros k Hk. by rewrite (Hwin k Hk). }
    split; [done|]. split; [done|]. split; [done|]. split; [done|].
    intros f Hf k Hk. rewrite (Hwin' k Hk). f_equal. unfold nthWindow.
    apply (window_supply parse f d d'); [done|done|].
    apply (Forall_lookup_1 _ _ _ _ Hfull (Hwin' k Hk)).
  - intros Hparse Hc Hb0 Hlast.
    apply calls_return; [unfold inInt in Hint; lia|lia|done|done|done|].
    intros Hn. rewrite Hrep.
    replace (0 + Z.of_nat n - 1) with (Z.of_nat (n - 1)) by lia. by apply Hlast.
Qed.

(** X10.  A batcher that has not served yet and whose rotation interval is 0
    rotates in its first call and then no more: all of fewer than 2^63 calls
    return the alerts of the second window.  With a negative interval it does
    not rotate at all.  Every batch holds [batch] alerts; the label sets of
    the window are those the dataset held before the calls, followed by what
    the parser returned for the lines the calls took from the front of the
    source; so with a parser that works line by line the window is that of
    the label sets the dataset held and the label sets of the lines its
    source held, in order.  And the calls do return over a dataset that can
    supply the label sets up to the end of that window. *)
Theorem makeAlerts_without_interval (n : nat) (p : AlertProducer) (d : Dataset) :
  batchRepeated p = 0 → interval p ≤ 0 →
  inInt (index p) → inInt (batch p) → inInt (interval p) →
  Z.of_nat n < 2 ^ 63 →
  let c := if interval p =? 0 then index p + batch p else index p in
  (∀ batches p' d',
     calls parse grow n p d = Returns (batches, p', d') →
     batches = replicate n (window (dataset d') c (c + batch p)) ∧
     (n ≠ 0%nat → index p' = c ∧ batchRepeated p' = Z.of_nat n) ∧
     drawn parse d d' ∧
     Forall (λ alerts, Z.of_nat (length alerts) = batch p) batches ∧
     (∀ f, lineWise parse f (scanner d) →
        batches = replicate n (window (supply f d) c (c + batch p)))) ∧
  (onePerLine parse (scanner d) → 0 ≤ index p → 0 ≤ batch p →
   c + batch p < 2 ^ 63 →
   c + batch p ≤ Z.of_nat (length (dataset d) + length (scanner d)) →
   ∃ batches p' d', calls parse grow n p d = Returns (batches, p', d')).
Proof.
  intros Hrep Hint0 Hi Hb Hint Hn c. split.
  - intros batches p' d' Hcalls.
    pose proof (calls_drawn _ _ _ _ _ _ _ _ Hcalls) as Hdrawn.
    pose proof (calls_lengths _ _ _ _ _ _ _ _ Hi Hb Hcalls) as Hfull.
    assert (Hserved : batches = replicate n (window (dataset d') c (c + batch p)) ∧
                      (n ≠ 0%nat → index p' = c ∧ batchRepeated p' = Z.of_nat n)).
    { unfold c. clear Hdrawn Hfull c.
      destruct (Z.eqb_spec (interval p) 0) as [Hzero|Hneg].
      - destruct n as [|n]; simpl in Hcalls.
        { injection Hcalls as <- <- <-. done. }
        destruct (makeAlerts parse grow p d) as [[[a p1] d1]| |] eqn:Hcall;
          simpl in Hcalls; [|discriminate Hcalls..].
        destruct (calls parse grow n p1 d1) as [[[bs p2] d2]| |] eqn:Hrest;
          simpl in Hcalls; [|discriminate Hcalls..].
        injection Hcalls as <- <- <-.
        apply makeAlerts_Returns in Hcall
          as (Hc & Hb0 & Hmax & -> & Hin & -> & [ex1 Hex1]); [|done|done].
        assert (Hq : rotated p = mkAlertProducer (index p + batch p) (batch p) 0 0).
        { revert Hc Hb0 Hmax. unfold rotated. rewrite Hrep, Hzero. simpl.
          intros Hc Hb0 Hmax.
          destruct (wrap_add (index p) (batch p) Hi Hb)
            as [[_ Hw]|[[Hsum Hw]|[Hsum Hw]]]; rewrite Hw in *; [done| |];
            unfold inInt in *; lia. }
        rewrite Hq in *. cbn [index batch interval batchRepeated] in *.
        rewrite wrap_id in Hrest by lia.
        apply calls_Returns_past in Hrest as (-> & Hi2 & _ & _ & Hrep2 & [ex2 Hex2]);
          cbn [index batch interval batchRepeated];
          [|unfold inInt in *; lia|done|unfold inInt; lia|lia|lia].
        simpl in *. split; [|intros _; split; [done|lia]].
        f_equal. rewrite Hex2. symmetry. apply window_stable; [done|].
        destruct Hin; [by left|right; lia].
      - apply calls_Returns_past in Hcalls as (-> & Hi2 & _ & _ & Hrep2 & _);
          [|done|done|done|lia|lia].
        split; [done|]. intros _. split; [done|lia]. }
    destruct Hserved as [Hserved Hcursor].
    split; [done|]. split; [done|]. split; [done|]. split; [done|].
    intros f Hf. rewrite Hserved at 1.
    apply (replicate_window_supply parse f d d' n c (batch p) batches Hf Hdrawn Hfull).
    by rewrite <- Hserved.
  - intros Hparse Hc Hb0 Hmax Havail. unfold c in *. clear c.
    destruct (Z.eqb_spec (interval p) 0) as [Hzero|Hneg].
    + destruct n as [|n]; [by eexists _, _, _|].
      destruct (makeAlerts_rotates parse grow p d)
        as (d1 & Hcall & _ & Hparse1 & Hcons1 & _); [lia|done|done|done|lia|lia|].
      destruct (calls_return_past n
                  (mkAlertProducer (index p + batch p) (batch p) (interval p) 1) d1)
        as (batches & p' & d' & Hcalls); simpl; [lia|lia|lia|done|lia|done|lia|lia|].
      simpl. rewrite Hcall. simpl. rewrite Hcalls. simpl. by eexists _, _, _.
    + apply calls_return_past; [lia|lia|lia|done|done|done|done|done].
Qed.

End WithParser.

(** A batcher whose window ends beyond the ten lines, and one without a
    rotation interval. *)
Definition pastTheEnd : AlertProducer := mkAlertProducer 8 5 3 0.
Definition noInterval : AlertProducer := mkAlertProducer 0 5 0 0.

Lemma makeAlerts_batch_is_full_witness :
  inInt (index fiveByThree) ∧ inInt (batch fiveByThree) ∧
  (∀ alerts p' d',
     makeAlerts bareMetrics doubling fiveByThree (NewDataset tenLines)
     = Returns (alerts, p', d') →
     Z.of_nat (length alerts) = batch fiveByThree ∧
     index p' = index (rotated fiveByThree) ∧
     alerts = window (dataset d') (index p') (index p' + batch fiveByThree) ∧
     (batch fiveByThree = 0
      ∨ index p' + batch fiveByThree ≤ Z.of_nat (length (dataset d')))) ∧
  (batch fiveByThree < 0 ∨ index (rotated fiveByThree) < 0
   ∨ 2 ^ 63 ≤ index (rotated fiveByThree) + batch fiveByThree →
   makeAlerts bareMetrics doubling fiveByThree (NewDataset tenLines) = Panics).
Proof.
  assert (H1 : inInt (index fiveByThree)) by (unfold inInt; simpl; lia).
  assert (H2 : inInt (batch fiveByThree)) by (unfold inInt; simpl; lia).
  split; [exact H1|]. split; [exact H2|].
  exact (makeAlerts_batch_is_full bareMetrics doubling fiveByThree
           (NewDataset tenLines) H1 H2).
Defined.

Lemma makeAlerts_panics_on_short_dataset_witness :
  onePerLine bareMetrics (scanner (NewDataset tenLines)) ∧
  inInt (index pastTheEnd) ∧ inInt (batch pastTheEnd) ∧
  0 < batch pastTheEnd ∧
  Z.of_nat (length (dataset (NewDataset tenLines)) + length (scanner (NewDataset tenLines)))
  < index (rotated pastTheEnd) + batch pastTheEnd ∧
  makeAlerts bareMetrics doubling pastTheEnd (NewDataset tenLines) = Panics.
Proof.
  assert (H1 : onePerLine bareMetrics (scanner (NewDataset tenLines))).
  { apply bareMetrics_onePerLine, tenLines_noLineFeed. }
  assert (H2 : inInt (index pastTheEnd)) by (unfold inInt; simpl; lia).
  assert (H3 : inInt (batch pastTheEnd)) by (unfold inInt; simpl; lia).
  assert (H4 : 0 < batch pastTheEnd) by (simpl; lia).
  assert (H5 : Z.of_nat (length (dataset (NewDataset tenLines))
                         + length (scanner (NewDataset tenLines)))
               < index (rotated pastTheEnd) + batch pastTheEnd) by (simpl; lia).
  repeat (split; [assumption|]).
  exact (makeAlerts_panics_on_short_dataset bareMetrics doubling pastTheEnd
           (NewDataset tenLines) H1 H2 H3 H4 H5).
Defined.

Lemma makeAlerts_window_of_call_witness :
  batchRepeated fiveByThree = 0 ∧ 0 < interval fiveByThree ∧
  inInt (index fiveByThree) ∧ inInt (batch fiveByThree) ∧ inInt (interval fiveByThree) ∧
  (∀ batches p' d',
     calls bareMetrics doubling 6 fiveByThree (NewDataset tenLines)
     = Returns (batches, p', d') →
     length batches = 6%nat ∧
     (∀ k : nat, (k < 6)%nat →
        batches !! k
        = Some (nthWindow (dataset d') (index fiveByThree) (batch fiveByThree)
                  (Z.of_nat k / interval fiveByThree))) ∧
     (6%nat ≠ 0%nat →
      index p' = index fiveByThree
                 + Z.of_nat (6 - 1) / interval fiveByThree * batch fiveByThree ∧
      batchRepeated p' = Z.of_nat (6 - 1) mod interval fiveByThree + 1) ∧
     drawn bareMetrics (NewDataset tenLines) d' ∧
     Forall (λ alerts, Z.of_nat (length alerts) = batch fiveByThree) batches ∧
     (∀ f, lineWise bareMetrics f (scanner (NewDataset tenLines)) →
        ∀ k : nat, (k < 6)%nat →
          batches !! k
          = Some (nthWindow (supply f (NewDataset tenLines)) (index fiveByThree)
                    (batch fiveByThree) (Z.of_nat k / interval fiveByThree)))) ∧
  (onePerLine bareMetrics (scanner (NewDataset tenLines)) →
   0 ≤ index fiveByThree → 0 ≤ batch fiveByThree →
   (6%nat ≠ 0%nat →
    index fiveByThree
    + (Z.of_nat (6 - 1) / interval fiveByThree + 1) * batch fiveByThree < 2 ^ 63 ∧
    index fiveByThree
    + (Z.of_nat (6 - 1) / interval fiveByThree + 1) * batch fiveByThree
    ≤ Z.of_nat (length (dataset (NewDataset tenLines))
                + length (scanner (NewDataset tenLines)))) →
   ∃ batches p' d',
     calls bareMetrics doubling 6 fiveByThree (NewDataset tenLines)
     = Returns (batches, p', d')).
Proof.
  assert (H1 : batchRepeated fiveByThree = 0) by reflexivity.
  assert (H2 : 0 < interval fiveByThree) by (simpl; lia).
  assert (H3 : inInt (index fiveByThree)) by (unfold inInt; simpl; lia).
  assert (H4 : inInt (batch fiveByThree)) by (unfold inInt; simpl; lia).
  assert (H5 : inInt (interval fiveByThree)) by (unfold inInt; simpl; lia).
  repeat (split; [assumption|]).
  exact (makeAlerts_window_of_call bareMetrics doubling 6 fiveByThree
           (NewDataset tenLines) H1 H2 H3 H4 H5).
Defined.

Lemma makeAlerts_without_interval_witness :
  batchRepeated noInterval = 0 ∧ interval noInterval ≤ 0 ∧
  inInt (index noInterval) ∧ inInt (batch noInterval) ∧ inInt (interval noInterval) ∧
  Z.of_nat 4 < 2 ^ 63 ∧
  (∀ batches p' d',
     calls bareMetrics doubling 4 noInterval (NewDataset tenLines)
     = Returns (batches, p', d') →
     batches = replicate 4 (window (dataset d') 5 (5 + 5)) ∧
     (4%nat ≠ 0%nat → index p' = 5 ∧ batchRepeated p' = Z.of_nat 4) ∧
     drawn bareMetrics (NewDataset tenLines) d' ∧
     Forall (λ alerts, Z.of_nat (length alerts) = batch noInterval) batches ∧
     (∀ f, lineWise bareMetrics f (scanner (NewDataset tenLines)) →
        batches = replicate 4 (window (supply f (NewDataset tenLines)) 5 (5 + 5)))) ∧
  (onePerLine bareMetrics (scanner (NewDataset tenLines)) →
   0 ≤ index noInterval → 0 ≤ batch noInterval →
   5 + batch noInterval < 2 ^ 63 →
   5 + batch noInterval
   ≤ Z.of_nat (length (dataset (NewDataset tenLines))
               + length (scanner (NewDataset tenLines))) →
   ∃ batches p' d',
     calls bareMetrics doubling 4 noInterval (NewDataset tenLines)
     = Returns (batches, p', d')).
Proof.
  assert (H1 : batchRepeated noInterval = 0) by reflexivity.
  assert (H2 : interval noInterval ≤ 0) by (simpl; lia).
  assert (H3 : inInt (index noInterval)) by (unfold inInt; simpl; lia).
  assert (H4 : inInt (batch noInterval)) by (unfold inInt; simpl; lia).
  assert (H5 : inInt (interval noInterval)) by (unfold inInt; simpl; lia).
  assert (H6 : Z.of_nat 4 < 2 ^ 63) by (simpl; lia).
  repeat (split; [assumption|]).
  exact (makeAlerts_without_interval bareMetrics doubling 4 noInterval
           (NewDataset tenLines) H1 H2 H3 H4 H5 H6).
Defined.

(** The calls of both examples return: six calls of the batcher of the
    specification, and four calls of the batcher without an interval, which
    all return the samples m5 to m9. *)
Example calls_of_the_examples_return :
  (∃ res, calls bareMetrics doubling 6 fiveByThree (NewDataset tenLines) = Returns res) ∧
  match calls bareMetrics doubling 4 noInterval (NewDataset tenLines) with
  | Returns (batches, p', d') =>
      fmap (λ a : Alert, Hashing.Labels a !! "__name__"%string) <$> batches
      = replicate 4 (Some <$> drop 5 tenLines)
  | _ => False
  end.
Proof. split; [by eexists; vm_compute|by vm_compute]. Qed.

End BatcherFacts.

(** ** The pool of hash buffers (receive.go) *)

Module Pool.
Import Hashing.

(** A [[]byte] value: the array it points into, from the first element of
    the slice up to its capacity, and its length. *)
Record buffer : Type := mkBuffer {
  array : list byte;
  len : nat
}.

(** The elements of the slice. *)
Definition contents (b : buffer) : list byte := take (len b) (array b).

(** [make([]byte, 0, 1024)] *)
Definition make_0_1024 : buffer := mkBuffer (replicate 1024 x00) 0.

(** [hashBuffers.Get()] on a pool without a [New] function: one of the
    values put into the pool and not taken since, which leaves the pool, or
    nil.  Which of them is up to the runtime, as is dropping pooled values;
    [pick] is its choice. *)
Definition poolGet (hashBuffers : list buffer) (pick : option nat)
  : option buffer * list buffer :=
  match pick with
  | Some i =>
      match hashBuffers !! i with
      | Some b => (Some b, delete i hashBuffers)
      | None => (None, hashBuffers)
      end
  | None => (None, hashBuffers)
  end.

(** [getHashBuffer] *)
Definition getHashBuffer (hashBuffers : list buffer) (pick : option nat)
  : buffer * list buffer :=
  let '(b, hashBuffers) := poolGet hashBuffers pick in
  match b with
  | None => (make_0_1024, hashBuffers)
  | Some b => (b, hashBuffers)
  end.

(** [putHashBuffer]: [b = b[:0]] and [hashBuffers.Put(b)]. *)
Definition putHashBuffer (hashBuffers : list buffer) (b : buffer) : list buffer :=
  let b := mkBuffer (array b) 0 in
  hashBuffers ++ [b].

(** Every buffer in the pool has length 0. *)
Definition reset (hashBuffers : list buffer) : Prop :=
  Forall (λ b, len b = 0%nat) hashBuffers.

Section WithRuntime.

(** [xxhash.Sum64], and the capacity [append] leaves beyond the new length
    when it moves a slice of the given capacity to hold the given length. *)
Variable Sum64 : list byte → Z.
Variable grow : nat → nat → nat.

(** [append(b, new...)]: in place, over what the array holds beyond the
    length, when the capacity suffices; into a new array otherwise. *)
Definition append (b : buffer) (new : list byte) : buffer :=
  let n := (len b + length new)%nat in
  if (n <=? length (array b))%nat
  then mkBuffer (take (len b) (array b) ++ new ++ drop n (array b)) n
  else mkBuffer (take (len b) (array b) ++ new
                 ++ replicate (grow (length (array b)) n) x00) n.

(** Body of the second loop of [hashAlert], on a buffer. *)
Definition appendLabel (a : Alert) (b : buffer) (ln : string) : buffer :=
  let b := append b (bytesOf ln) in
  let b := append b [sep] in
  let b := append b (bytesOf (labelValue a ln)) in
  append b [sep].

(** [hashAlert] with the pool it takes its buffer from and puts it back
    into: the hash and the pool after the call. *)
Definition hashAlert (hashBuffers : list buffer) (pick : option nat) (a : Alert)
  : Z * list buffer :=
  let '(b, hashBuffers) := getHashBuffer hashBuffers pick in
  let names := foldl (λ names ln, names ++ [ln]) [] (rangeLabels a) in
  let names := sortStrings names in
  let b := foldl (appendLabel a) b names in
  let hash := Sum64 (contents b) in
  let hashBuffers := putHashBuffer hashBuffers b in
  (hash, hashBuffers).

(** [alertHashes] with the pool; [picks] are the choices of the runtime in
    the calls of [hashAlert], nil where the list ends. *)
Fixpoint alertHashes (hashBuffers : list buffer) (picks : list (option nat))
    (a : list Alert) (res : list Z) : list Z * list buffer :=
  match a with
  | [] => (res, hashBuffers)
  | x :: a =>
      let '(hash, hashBuffers) := hashAlert hashBuffers (mjoin (head picks)) x in
      alertHashes hashBuffers (tail picks) a (res ++ [hash])
  end.

(** *** Appending to a buffer *)

Lemma append_contents (b : buffer) (new : list byte) :
  (len b ≤ length (array b))%nat →
  contents (append b new) = contents b ++ new ∧
  (len (append b new) ≤ length (array (append b new)))%nat.
Proof.
  intros Hwf. unfold append, contents.
  assert (Hlen : length (take (len b) (array b)) = len b) by (rewrite length_take; lia).
  destruct (Nat.leb_spec (len b + length new) (length (array b))) as [Hfit|Hmove]; simpl.
  - split.
    + rewrite app_assoc, take_app_length'; [done|]. rewrite length_app. lia.
    + rewrite !length_app, length_drop. lia.
  - split.
    + rewrite app_assoc, take_app_length'; [done|]. rewrite length_app. lia.
    + rewrite !length_app. lia.
Qed.

Lemma appendLabel_contents (a : Alert) (b : buffer) (ln : string) :
  (len b ≤ length (array b))%nat →
  contents (appendLabel a b ln) = Hashing.appendLabel a (contents b) ln ∧
  (len (appendLabel a b ln) ≤ length (array (appendLabel a b ln)))%nat.
Proof.
  intros Hwf. unfold appendLabel, Hashing.appendLabel. cbv zeta.
  destruct (append_contents b (bytesOf ln) Hwf) as [H1 Hwf1].
  destruct (append_contents _ [sep] Hwf1) as [H2 Hwf2].
  destruct (append_contents _ (bytesOf (labelValue a ln)) Hwf2) as [H3 Hwf3].
  destruct (append_contents _ [sep] Hwf3) as [H4 Hwf4].
  split; [|done]. by rewrite H4, H3, H2, H1.
Qed.

Lemma appendLabels_contents (a : Alert) (names : list string) (b : buffer) :
  (len b ≤ length (array b))%nat →
  contents (foldl (appendLabel a) b names)
  = foldl (Hashing.appendLabel a) (contents b) names.
Proof.
  revert b. induction names as [|ln names IH]; intros b Hwf; simpl; [done|].
  destruct (appendLabel_contents a b ln Hwf) as [Hc Hwf'].
  by rewrite IH, Hc.
Qed.

(** *** Taking a buffer and putting it back *)

Lemma getHashBuffer_reset (hashBuffers : list buffer) (pick : option nat) :
  reset hashBuffers →
  len (getHashBuffer hashBuffers pick).1 = 0%nat ∧
  reset (getHashBuffer hashBuffers pick).2.
Proof.
  intros Hreset. unfold getHashBuffer, poolGet.
  destruct pick as [i|]; [|done].
  destruct (hashBuffers !! i) as [b|] eqn:Hb; [|done]. simpl. split.
  - by apply (Forall_lookup_1 _ _ _ _ Hreset Hb).
  - by apply Forall_delete.
Qed.

Lemma hashAlert_reset (hashBuffers : list buffer) (pick : option nat) (a : Alert) :
  reset hashBuffers →
  (hashAlert hashBuffers pick a).1 = Hashing.hashAlert Sum64 a ∧
  reset (hashAlert hashBuffers pick a).2.
Proof.
  intros Hreset. unfold hashAlert.
  destruct (getHashBuffer_reset hashBuffers pick Hreset) as [Hlen Hrest].
  destruct (getHashBuffer hashBuffers pick) as [b rest]. simpl in *. split.
  - rewrite appendLabels_contents by lia.
    unfold contents at 1. by rewrite Hlen.
  - unfold putHashBuffer. apply Forall_app. split; [done|]. by constructor.
Qed.

Lemma alertHashes_reset (hashBuffers : list buffer) (picks : list (option nat))
    (a : list Alert) (res : list Z) :
  reset hashBuffers →
  (alertHashes hashBuffers picks a res).1 = res ++ (Hashing.hashAlert Sum64 <$> a) ∧
  reset (alertHashes hashBuffers picks a res).2.
Proof.
  revert hashBuffers picks res.
  induction a as [|x a IH]; intros hashBuffers picks res Hreset; simpl.
  - by rewrite app_nil_r.
  - destruct (hashAlert_reset hashBuffers (mjoin (head picks)) x Hreset) as [Hhash Hrest].
    destruct (hashAlert hashBuffers (mjoin (head picks)) x) as [hash rest].
    simpl in *. subst hash.
    destruct (IH rest (tail picks) (res ++ [Hashing.hashAlert Sum64 x]) Hrest)
      as [-> Hreset']. split; [|done]. by rewrite <- app_assoc.
Qed.

(** *** Property of the pool beyond the specification *)

(** X11.  What a buffer taken from the pool holds from earlier hashes never
    enters a hash.  Whichever pooled buffers the runtime hands out, the
    hashes computed with the pool, starting from the empty pool of the
    program, are those of [alertHashes]; and every buffer in the pool has
    length 0 after every call, its array still holding the bytes of the
    alert hashed last. *)
Theorem pooled_buffers_do_not_leak (picks : list (option nat)) (a : list Alert) :
  (alertHashes [] picks a []).1 = Hashing.alertHashes Sum64 a ∧
  reset (alertHashes [] picks a []).2 ∧
  (∀ hashBuffers pick x,
     reset hashBuffers →
     (hashAlert hashBuffers pick x).1 = Hashing.hashAlert Sum64 x ∧
     reset (hashAlert hashBuffers pick x).2).
Proof.
  destruct (alertHashes_reset [] picks a []) as [Hhashes Hreset]; [constructor|].
  split; [by rewrite Hhashes, alertHashes_map|]. split; [done|].
  intros hashBuffers pick x. apply hashAlert_reset.
Qed.

End WithRuntime.

(** Two alerts hashed with the same buffer: the second hash is taken over
    the bytes of the second alert alone, and the array of the pooled buffer
    still begins with them. *)
Example pooled_buffer_reused :
  let '(hashes, hashBuffers) :=
    alertHashes Xxhash.Sum64 Batcher.doubling [] [None; Some 0%nat]
      (alertOfLabels <$> twoAlerts) [] in
  hashes = Hashing.alertHashes Xxhash.Sum64 (alertOfLabels <$> twoAlerts) ∧
  (λ b, (len b, take 15 (array b))) <$> hashBuffers
  = [(0%nat, bytesOf "alertname" ++ [sep] ++ bytesOf "Down" ++ [sep])].
Proof. by vm_compute. Qed.

End Pool.

(** ** The bytes that are hashed, and the fold of the hashes *)

Module HashingFacts.
Import Hashing.

(** The contents of the buffer that [hashAlert] passes to [xxhash.Sum64]. *)
Definition hashedBytes (a : Alert) : list byte :=
  let names := foldl (λ names ln, names ++ [ln]) [] (rangeLabels a) in
  let names := sortStrings names in
  foldl (appendLabel a) [] names.

(** No label name and no label value of the alert holds the byte [sep]. *)
Definition sepFree (a : Alert) : Prop :=
  map_Forall (λ ln lv, ¬ (sep ∈ bytesOf ln) ∧ ¬ (sep ∈ bytesOf lv)) (Labels a).

(** An alert with one label whose value holds [sep] twice, and an alert
    with two labels. *)
Definition oneLabel : Alert :=
  mkAlert {[ "a"%string :=
             String "b" (String (ascii_of_byte sep)
               (String "c" (String (ascii_of_byte sep) "d"))) ]}.

Definition twoLabels : Alert :=
  mkAlert (<[ "a"%string := "b"%string ]> {[ "c"%string := "d"%string ]}).

(** *** Reading the pairs back from the bytes *)

Lemma bytesOf_inj (s t : string) : bytesOf s = bytesOf t → s = t.
Proof.
  intros Heq. rewrite <- (string_of_list_byte_of_string s).
  rewrite <- (string_of_list_byte_of_string t). unfold bytesOf in Heq. by rewrite Heq.
Qed.

Lemma field_unique (x y r r' : list byte) :
  sep ∉ x → sep ∉ y → x ++ sep :: r = y ++ sep :: r' → x = y ∧ r = r'.
Proof.
  revert y. induction x as [|c x IH]; intros [|c' y] Hx Hy; simpl.
  - by intros [= ->].
  - intros [= <- _]. exfalso. apply Hy. left.
  - intros [= -> _]. exfalso. apply Hx. left.
  - intros [= -> Heq]. apply not_elem_of_cons in Hx as [_ Hx].
    apply not_elem_of_cons in Hy as [_ Hy].
    destruct (IH y Hx Hy Heq) as [-> ->]. done.
Qed.

Lemma pairs_unique (l1 l2 : list (string * string)) :
  Forall (λ p, ¬ (sep ∈ bytesOf p.1) ∧ ¬ (sep ∈ bytesOf p.2)) l1 →
  Forall (λ p, ¬ (sep ∈ bytesOf p.1) ∧ ¬ (sep ∈ bytesOf p.2)) l2 →
  mjoin (pairBytes <$> l1) = mjoin (pairBytes <$> l2) → l1 = l2.
Proof.
  intros H1. revert l2. induction H1 as [|[k v] l1 [Hk Hv] _ IH]; intros l2 H2.
  - destruct H2 as [|[k' v'] l2 _ _]; [done|]. csimpl. unfold pairBytes at 1. simpl.
    intros Heq. symmetry in Heq. apply app_eq_nil in Heq as [Heq _].
    apply app_eq_nil in Heq as [_ Heq]. done.
  - destruct H2 as [|[k' v'] l2 [Hk' Hv'] H2]; csimpl.
    + unfold pairBytes at 1. simpl. intros Heq.
      apply app_eq_nil in Heq as [Heq _]. apply app_eq_nil in Heq as [_ Heq]. done.
    + unfold pairBytes. simpl in *. rewrite <- !app_assoc. simpl. rewrite <- !app_assoc.
      simpl. intros Heq.
      apply field_unique in Heq as [Hkk Heq]; [|done|done].
      apply field_unique in Heq as [Hvv Heq]; [|done|done].
      apply bytesOf_inj in Hkk as ->. apply bytesOf_inj in Hvv as ->.
      f_equal. by apply IH.
Qed.

Lemma hashedBytes_pairs (a : Alert) :
  ∃ pairs : list (string * string),
    pairs ≡ₚ map_to_list (Labels a) ∧
    hashedBytes a = mjoin (pairBytes <$> pairs).
Proof.
  exists ((λ ln, (ln, labelValue a ln)) <$> sortStrings (rangeLabels a)). split.
  - rewrite sortStrings_perm. unfold rangeLabels, labelValue.
    rewrite pairs_of_keys; [done|]. intros k v. apply elem_of_map_to_list.
  - unfold hashedBytes. rewrite (collect_names [] (rangeLabels a)). simpl.
    rewrite appendLabel_fold. simpl. by rewrite <- list_fmap_compose.
Qed.

Lemma sepFree_pairs (a : Alert) (pairs : list (string * string)) :
  sepFree a → pairs ≡ₚ map_to_list (Labels a) →
  Forall (λ p, ¬ (sep ∈ bytesOf p.1) ∧ ¬ (sep ∈ bytesOf p.2)) pairs.
Proof.
  intros Hfree Hperm. rewrite Hperm. apply Forall_forall.
  intros [k v] Hin%elem_of_map_to_list. by apply (Hfree k v).
Qed.

(** The two alerts [oneLabel] and [twoLabels] have the same hashed bytes. *)
Lemma oneLabel_twoLabels_collide :
  oneLabel ≠ twoLabels ∧ hashedBytes oneLabel = hashedBytes twoLabels.
Proof.
  split; [|by vm_compute].
  intros Heq. apply (f_equal (λ a, Labels a !! "c"%string)) in Heq.
  vm_compute in Heq. discriminate Heq.
Qed.

(** *** Properties of the hashing beyond the specification *)

(** X12.  The hash of an alert is [Sum64] of [hashedBytes].  Alerts none of whose
    label names and values holds the separator byte 0xff (no text in UTF-8
    does) have the same hashed bytes only when they have the same labels, so
    two different such alerts get the same hash only where [Sum64] itself
    collides.  Where a value holds the separator this fails: there are two
    different alerts with the same hashed bytes, and so with the same hash
    whatever [Sum64] is. *)
Theorem hashed_bytes_identify_the_labels (a1 a2 : Alert) :
  sepFree a1 → sepFree a2 →
  (∀ Sum64, hashAlert Sum64 a1 = Sum64 (hashedBytes a1)) ∧
  (hashedBytes a1 = hashedBytes a2 ↔ a1 = a2) ∧
  (∃ b1 b2, b1 ≠ b2 ∧ ∀ Sum64, hashAlert Sum64 b1 = hashAlert Sum64 b2).
Proof.
  intros Hfree1 Hfree2. split; [done|]. split.
  - split; [|by intros ->].
    destruct (hashedBytes_pairs a1) as (l1 & Hl1 & ->).
    destruct (hashedBytes_pairs a2) as (l2 & Hl2 & ->).
    intros Heq. apply pairs_unique in Heq;
      [|exact (sepFree_pairs a1 l1 Hfree1 Hl1)|exact (sepFree_pairs a2 l2 Hfree2 Hl2)].
    destruct a1 as [m1], a2 as [m2]. simpl in *. f_equal.
    apply map_to_list_inj. by rewrite <- Hl1, <- Hl2, Heq.
  - destruct oneLabel_twoLabels_collide as [Hne Hbytes].
    exists oneLabel, twoLabels. split; [done|]. intros Sum64.
    change (Sum64 (hashedBytes oneLabel) = Sum64 (hashedBytes twoLabels)).
    by rewrite Hbytes.
Qed.

Section WithSum64.

Variable Sum64 : list byte → Z.

(** X13.  The fingerprint of two alert lists one after the other is the XOR of
    their fingerprints, and the same for lists of hashes; so two more
    occurrences of an alert, wherever they stand, leave the fingerprint as it
    is, and the fingerprint tells apart at most which alerts occur an odd
    number of times. *)
Theorem fingerprint_of_concatenation (A B : list Alert) (x : Alert) (h1 h2 : list Z) :
  hashAlerts Sum64 (A ++ B) = Z.lxor (hashAlerts Sum64 A) (hashAlerts Sum64 B) ∧
  hashHashes (h1 ++ h2) = Z.lxor (hashHashes h1) (hashHashes h2) ∧
  alertHashes Sum64 (A ++ B) = alertHashes Sum64 A ++ alertHashes Sum64 B ∧
  (∀ C, C ≡ₚ x :: x :: A → hashAlerts Sum64 C = hashAlerts Sum64 A).
Proof.
  split; [|split; [apply hashHashes_app|split]].
  - rewrite !hashAlerts_hashHashes, !alertHashes_map, fmap_app. apply hashHashes_app.
  - by rewrite !alertHashes_map, fmap_app.
  - intros C HC. rewrite (hashAlerts_perm Sum64 C _ HC).
    rewrite !hashAlerts_hashHashes, !alertHashes_map. csimpl.
    rewrite !hashHashes_foldr. simpl.
    by rewrite <- Z.lxor_assoc, Z.lxor_nilpotent, Z.lxor_0_l.
Qed.

End WithSum64.

Lemma sepFree_alertOfLabels (ls : list Label) :
  Forall (λ l, ¬ (sep ∈ bytesOf (Name l)) ∧ ¬ (sep ∈ bytesOf (Value l))) ls →
  NoDup (Name <$> ls) → sepFree (alertOfLabels ls).
Proof.
  intros Hls Hnd k v Hkv.
  apply (insertLabels_lookup ls ∅ k v Hnd) in Hkv as [Hin|[_ Hkv]]; [|done].
  by apply (proj1 (Forall_forall _ _) Hls) in Hin.
Qed.

Lemma twoAlerts_sepFree : Forall (λ ls, sepFree (alertOfLabels ls)) twoAlerts.
Proof.
  assert (Hbytes : ∀ s, forallb (λ x, negb (Byte.eqb x sep)) (bytesOf s) = true →
                        ¬ (sep ∈ bytesOf s)).
  { intros s Hs Hin%list_elem_of_In.
    apply (proj1 (forallb_forall _ _) Hs) in Hin.
    by rewrite (Byte.byte_dec_lb (x:=sep) (y:=sep) eq_refl) in Hin. }
  apply Forall_cons. split; [|apply Forall_cons; split; [|constructor]].
  - apply sepFree_alertOfLabels; [|apply (bool_decide_unpack _); by vm_compute].
    repeat (apply Forall_cons; split; [split; apply Hbytes; by vm_compute|]).
    constructor.
  - apply sepFree_alertOfLabels; [|apply (bool_decide_unpack _); by vm_compute].
    repeat (apply Forall_cons; split; [split; apply Hbytes; by vm_compute|]).
    constructor.
Qed.

Lemma hashed_bytes_identify_the_labels_witness :
  sepFree (alertOfLabels twoAlerts_first) ∧ sepFree (alertOfLabels twoAlerts_second) ∧
  (∀ Sum64, hashAlert Sum64 (alertOfLabels twoAlerts_first)
            = Sum64 (hashedBytes (alertOfLabels twoAlerts_first))) ∧
  (hashedBytes (alertOfLabels twoAlerts_first) = hashedBytes (alertOfLabels twoAlerts_second)
   ↔ alertOfLabels twoAlerts_first = alertOfLabels twoAlerts_second) ∧
  (∃ b1 b2, b1 ≠ b2 ∧ ∀ Sum64, hashAlert Sum64 b1 = hashAlert Sum64 b2).
Proof.
  pose proof twoAlerts_sepFree as Hfree.
  apply Forall_cons in Hfree as [H1 Hfree]. apply Forall_cons in Hfree as [H2 _].
  split; [exact H1|]. split; [exact H2|].
  exact (hashed_bytes_identify_the_labels _ _ H1 H2).
Defined.

End HashingFacts.

(** ** The report lines of both kinds of event *)

Module ReportFacts.
Import Hashing Report.

Local Open Scope string_scope.

Section WithFormat.

Variable Sum64 : list byte → Z.
Variable Format : Z → string → string.

(** The line of an event: what [Print] writes to an empty writer. *)
Definition line (ev : Event) : string := Print Sum64 Format ev "".

(** The loop of [RunLoadTests] that prints the merged events. *)
Definition printAll (events : list Event) (out : string) : string :=
  foldl (λ out e, Print Sum64 Format e out) out events.

Lemma printNotification_appends (n : notification) (out : string) :
  printNotification Format n out
  = out ++ "NOTIFICATION " ++ Format (n_timestamp n) TimeFormat ++ " "
    ++ n_alertmanager n ++ " " ++ groupKey n ++ " "
    ++ hex (notificationHash n)
    ++ String.concat "" ((λ h, " " ++ hex h) <$> n_alerts n)
    ++ newline.
Proof.
  unfold printNotification, Fprint, Fprintf_x.
  rewrite Fprintf_sp_x_fold. cbn [String.concat]. by rewrite !append_assoc.
Qed.

Lemma printFired_appends (e : alertsFiredEvent) (out : string) :
  printFired Sum64 Format e out = out ++ printFired Sum64 Format e "".
Proof.
  unfold printFired, Fprint. rewrite !Fprintf_sp_x_fold.
  cbn [String.concat]. by rewrite !append_assoc.
Qed.

Lemma Print_appends (ev : Event) (out : string) :
  Print Sum64 Format ev out = out ++ line ev.
Proof.
  unfold line. destruct ev as [e|n]; simpl.
  - apply printFired_appends.
  - by rewrite !printNotification_appends.
Qed.

Lemma printAll_lines (events : list Event) (out : string) :
  printAll events out = out ++ String.concat "" (line <$> events).
Proof.
  unfold printAll. revert out. induction events as [|e events IH]; intros out.
  - simpl. by rewrite append_nil_r.
  - cbn [foldl]. rewrite IH, Print_appends, fmap_cons, concat_cons.
    by rewrite append_assoc.
Qed.

(** *** Properties of the report beyond the specification *)

(** X14.  The line of a notification is the tag [NOTIFICATION] and one space,
    the UTC timestamp in the layout [TimeFormat], one space, the origin, one
    space, the group key, one space, the notification hash in hexadecimal,
    then the hash of each alert in hexadecimal after one space, and a line
    feed. *)
Theorem printNotification_line (n : notification) (out : string) :
  printNotification Format n out
  = out ++ "NOTIFICATION" ++ " "
    ++ Format (n_timestamp n) TimeFormat ++ " "
    ++ n_alertmanager n ++ " "
    ++ groupKey n ++ " "
    ++ hex (notificationHash n)
    ++ String.concat "" ((λ h, " " ++ hex h) <$> n_alerts n)
    ++ newline.
Proof. apply printNotification_appends. Qed.

(** X15.  [Print] only appends, and what it appends for an event does not depend
    on what was written before: the text of a report is the lines of its
    events one after the other, in the order of the merged sequence. *)
Theorem report_is_its_lines (events : list Event) (ev : Event) (out : string) :
  Print Sum64 Format ev out = out ++ line ev ∧
  printAll events out = out ++ String.concat "" (line <$> events) ∧
  printAll (events ++ [ev]) out = printAll events out ++ line ev.
Proof.
  split; [apply Print_appends|]. split; [apply printAll_lines|].
  unfold printAll. rewrite foldl_app. simpl. apply Print_appends.
Qed.

End WithFormat.

Example hex_renderings :
  hex 0xb1a76bcdbb632f34 = "b1a76bcdbb632f34" ∧ hex 255 = "ff" ∧ hex 4096 = "1000".
Proof. by vm_compute. Qed.

End ReportFacts.

(** ** The load producers (load test driver) *)

Module Producer.
Import Go Hashing Batcher Report Orchestrator.

(** What the producers of a process share besides the dataset: the
    requests posted so far, oldest first, the counter vector [alertsFired] by
    label values, and the number of readings taken of the clock. *)
Record world : Type := mkWorld {
  posted : list (string * list byte);
  alertsFired : gmap (string * string) nat;
  readings : nat
}.

(** [fmt.Sprintf("%d", n)] *)
Definition Sprintf_d (n : Z) : string :=
  DecimalString.NilZero.string_of_int (Z.to_int n).

(** [WithLabelValues(lvs...).Inc()] on a counter vector. *)
Definition Inc {K : Type} `{Countable K} (c : gmap K nat) (lvs : K) : gmap K nat :=
  <[lvs := S (default 0%nat (c !! lvs))]> c.

(** The instants of the events of a producer. *)
Definition instants (lp : LoadProducer) : list Z := timestamp <$> eventStore lp.

(** The deliveries a producer has recorded: target and batch of each event. *)
Definition deliveries (lp : LoadProducer) : list (string * list Alert) :=
  (λ e, (alertmanager e, alerts e)) <$> eventStore lp.

(** The deliveries of [n] ticks of a producer with the batcher [ap] and the
    targets [ams], over the materialized label sets: tick number [k],
    counted from 0, delivers to every target the window that many rotations
    after the cursor as the counter of the batcher says. *)
Definition ticks (materialized : list Labels) (ap : AlertProducer) (ams : list string)
    (n : nat) : list (string * list Alert) :=
  mjoin ((λ k : nat,
            (λ am, (am, BatcherFacts.nthWindow materialized (index ap) (batch ap)
                          ((batchRepeated ap + Z.of_nat k) / interval ap))) <$> ams)
         <$> seq 0 n).

(** A batcher between two calls: its fields are [int] values, its interval
    is positive, its counter has not passed the interval, and it has served
    its window if the counter says so. *)
Definition between (ap : AlertProducer) : Prop :=
  inInt (index ap) ∧ inInt (batch ap) ∧ 0 < interval ap < 2 ^ 63 ∧
  0 ≤ batchRepeated ap ≤ interval ap ∧
  (batchRepeated ap ≠ 0 → 0 ≤ index ap ∧ 0 ≤ batch ap ∧ index ap + batch ap < 2 ^ 63).

(** A producer whose batcher is between two calls and has the batch size
    [b], and whose events each hold [b] alerts. *)
Definition fullBatches (b : Z) (p : LoadProducer) : Prop :=
  between (alertProducer p) ∧ batch (alertProducer p) = b ∧
  Forall (λ e, Z.of_nat (length (alerts e)) = b) (eventStore p).

Section WithWorld.

(** The parser of the dataset and the growth of [append], as for [Get]. *)
Variable parse : list byte → list Labels.
Variable grow : nat → nat → nat.

(** [json.NewEncoder(b).Encode(alerts)] followed by [b.Bytes()]. *)
Variable Encode : list Alert → list byte.

(** [http.Post(am, "application/json", body)] as request number [n] of the
    process: the status code of the response, or no response and an error. *)
Variable Post : nat → string → list byte → option Z.

(** [time.Now()], as reading number [n] of the clock of the process. *)
Variable Now : nat → Z.

(** Body of the loop of [fireAlerts] over the targets. *)
Definition deliver (alerts : list Alert) (jsonBlob : list byte)
    (s : list alertsFiredEvent * world) (am : string)
  : outcome (list alertsFiredEvent * world) :=
  let '(eventStore, w) := s in
  let buf := jsonBlob in
  match Post (length (posted w)) am buf with
  | None => Panics
  | Some StatusCode =>
      Returns (eventStore ++ [mkFired am alerts (Now (readings w))],
               mkWorld (posted w ++ [(am, buf)])
                 (Inc (alertsFired w) (am, Sprintf_d StatusCode))
                 (S (readings w)))
  end.

(** [for _, am := range p.alertmanagers] with a body that may panic. *)
Fixpoint rangeOver {S A : Type} (body : S → A → outcome S) (l : list A) (s : S)
  : outcome S :=
  match l with
  | [] => Returns s
  | x :: l => s ← body s x; rangeOver body l s
  end.

(** [LoadProducer.fireAlerts], on the dataset the producers share. *)
Definition fireAlerts (p : LoadProducer) (d : Dataset) (w : world)
  : outcome (LoadProducer * Dataset * world) :=
  '(alerts, ap, d) ← makeAlerts parse grow (alertProducer p) d;
  let jsonBlob := Encode alerts in
  '(eventStore, w) ← rangeOver (deliver alerts jsonBlob) (alertmanagers p)
                        (eventStore p, w);
  Returns (mkLoadProducer (alertmanagers p) ap (fireInterval p) eventStore, d, w).

(** The loops of [LoadProducer.Run] of the producers of a [LoadTest], which
    run side by side, each in its goroutine, and call [fireAlerts] for every
    tick of their ticker until the stop channel is closed: [schedule] lists
    the ticks handled, in the order in which they are handled, each by the
    number of its producer. *)
Fixpoint scheduled (schedule : list nat) (lps : list LoadProducer) (d : Dataset)
    (w : world) : outcome (list LoadProducer * Dataset * world) :=
  match schedule with
  | [] => Returns (lps, d, w)
  | i :: schedule =>
      match lps !! i with
      | None => scheduled schedule lps d w
      | Some p =>
          '(p, d, w) ← fireAlerts p d w;
          scheduled schedule (<[i := p]> lps) d w
      end
  end.

(** [LoadTest.Run]: the goroutines are started, each creating its ticker
    with [time.NewTicker], which panics on an interval that is not positive,
    and run until the context of the test is done. *)
Definition runLoadTest (schedule : list nat) (lps : list LoadProducer) (d : Dataset)
    (w : world) : outcome (list LoadProducer * Dataset * world) :=
  if bool_decide (Exists (λ p, fireInterval p ≤ 0) lps) then Panics
  else scheduled schedule lps d w.

(** The clock does not run backwards. *)
Definition monotone : Prop := ∀ i j : nat, (i ≤ j)%nat → Now i ≤ Now j.

(** The instants of the events are ascending, none later than the next
    reading of the clock. *)
Definition ascendingUpTo (w : world) (l : list Z) : Prop :=
  StronglySorted Z.le l ∧ Forall (λ t, t ≤ Now (readings w)) l.

(** *** One call of [fireAlerts] *)

Lemma rangeOver_deliver (alerts : list Alert) (jsonBlob : list byte)
    (ams : list string) (es es' : list alertsFiredEvent) (w w' : world) :
  rangeOver (deliver alerts jsonBlob) ams (es, w) = Returns (es', w') →
  es' = es ++ imap (λ i am, mkFired am alerts (Now (readings w + i))) ams ∧
  posted w' = posted w ++ ((λ am, (am, jsonBlob)) <$> ams) ∧
  readings w' = (readings w + length ams)%nat ∧
  (∀ i am, ams !! i = Some am →
           is_Some (Post (length (posted w) + i) am jsonBlob)).
Proof.
  revert es w. induction ams as [|am ams IH]; intros es w; simpl.
  - intros [= <- <-]. rewrite !app_nil_r, Nat.add_0_r.
    repeat (split; [done|]). intros i am Hi. done.
  - destruct (Post (length (posted w)) am jsonBlob) as [code|] eqn:Hpost;
      simpl; [|other_result].
    intros Hrest. apply IH in Hrest as (-> & -> & -> & Hposts). simpl.
    rewrite <- !app_assoc, Nat.add_0_r. simpl.
    split; [|split; [done|split; [lia|]]].
    + do 2 f_equal. apply imap_ext. intros i x _. simpl. do 2 f_equal. lia.
    + intros [|i] x Hx; simpl in Hx.
      * injection Hx as <-. rewrite Nat.add_0_r. by rewrite Hpost.
      * specialize (Hposts i x Hx). simpl in Hposts.
        rewrite length_app in Hposts. simpl in Hposts.
        by replace (length (posted w) + S i)%nat
             with (length (posted w) + 1 + i)%nat by lia.
Qed.

Lemma rangeOver_deliver_ends (alerts : list Alert) (jsonBlob : list byte)
    (ams : list string) (s : list alertsFiredEvent * world) :
  rangeOver (deliver alerts jsonBlob) ams s ≠ OutOfFuel.
Proof.
  revert s. induction ams as [|am ams IH]; intros [es w]; simpl; [done|].
  destruct (Post _ _ _); simpl; [apply IH|done].
Qed.

Lemma fireAlerts_Returns (p p' : LoadProducer) (d d' : Dataset) (w w' : world) :
  fireAlerts p d w = Returns (p', d', w') →
  ∃ alerts,
    makeAlerts parse grow (alertProducer p) d = Returns (alerts, alertProducer p', d') ∧
    eventStore p'
    = eventStore p ++ imap (λ i am, mkFired am alerts (Now (readings w + i)))
                        (alertmanagers p) ∧
    posted w' = posted w ++ ((λ am, (am, Encode alerts)) <$> alertmanagers p) ∧
    readings w' = (readings w + length (alertmanagers p))%nat ∧
    alertmanagers p' = alertmanagers p ∧ fireInterval p' = fireInterval p ∧
    (∀ i am, alertmanagers p !! i = Some am →
             is_Some (Post (length (posted w) + i) am (Encode alerts))).
Proof.
  unfold fireAlerts.
  destruct (makeAlerts parse grow (alertProducer p) d) as [[[alerts ap] d1]| |];
    simpl; [|other_result..].
  destruct (rangeOver _ _ _) as [[es w1]| |] eqn:Hrange; simpl; [|other_result..].
  intros [= <- <- <-]. simpl.
  apply rangeOver_deliver in Hrange as (-> & -> & -> & Hposts).
  by exists alerts.
Qed.

Lemma fireAlerts_ends (p : LoadProducer) (d : Dataset) (w : world) :
  fireAlerts p d w ≠ OutOfFuel.
Proof.
  unfold fireAlerts.
  pose proof (BatcherFacts.makeAlerts_ends parse grow (alertProducer p) d) as Hends.
  destruct (makeAlerts parse grow (alertProducer p) d) as [[[alerts ap] d1]| |];
    simpl; [|done|done].
  pose proof (rangeOver_deliver_ends alerts (Encode alerts) (alertmanagers p)
                (eventStore p, w)) as Hrange.
  destruct (rangeOver _ _ _) as [[es w1]| |]; done.
Qed.

(** *** The instants of the events *)

Lemma ascendingUpTo_later (w w' : world) (l : list Z) :
  monotone → (readings w ≤ readings w')%nat →
  ascendingUpTo w l → ascendingUpTo w' l.
Proof.
  intros Hmono Hle [Hsorted Hbound]. split; [done|].
  eapply Forall_impl; [exact Hbound|]. intros t Ht. simpl in Ht.
  specialize (Hmono _ _ Hle). lia.
Qed.

Lemma ascendingUpTo_readings (w : world) (k n : nat) (l : list Z) (ams : list string)
    (alerts : list Alert) :
  monotone → k = readings w →
  ascendingUpTo w l →
  ascendingUpTo (mkWorld (posted w) (alertsFired w) (k + length ams))
    (l ++ (timestamp <$> imap (λ i am, mkFired am alerts (Now (k + i))) ams)).
Proof.
  intros Hmono ->. revert w l. induction ams as [|am ams IH]; intros w l Hasc; simpl.
  - rewrite app_nil_r, Nat.add_0_r. by destruct w.
  - destruct Hasc as [Hsorted Hbound].
    specialize (IH (mkWorld (posted w) (alertsFired w) (S (readings w)))
                  (l ++ [Now (readings w)])).
    simpl in IH. rewrite <- app_assoc in IH. simpl in IH.
    rewrite Nat.add_0_r.
    replace (readings w + S (length ams))%nat with (S (readings w) + length ams)%nat by lia.
    erewrite (imap_ext _ (λ i am, mkFired am alerts (Now (S (readings w) + i))));
      [apply IH|].
    + split.
      * apply StronglySorted_app_2; [|done|repeat constructor].
        intros x1 x2 Hx1 ->%list_elem_of_singleton.
        by apply (proj1 (Forall_forall _ _) Hbound).
      * apply Forall_app. split.
        -- eapply Forall_impl; [exact Hbound|]. intros t Ht. simpl in *.
           specialize (Hmono (readings w) (S (readings w)) ltac:(lia)). lia.
        -- constructor; [|constructor]. simpl. apply Hmono. lia.
    + intros i x _. simpl. do 2 f_equal. lia.
Qed.

Lemma fireAlerts_ascending (p p' : LoadProducer) (d d' : Dataset) (w w' : world) :
  monotone →
  fireAlerts p d w = Returns (p', d', w') →
  ascendingUpTo w (instants p) →
  ascendingUpTo w' (instants p') ∧ (readings w ≤ readings w')%nat.
Proof.
  intros Hmono Hfire Hasc.
  apply fireAlerts_Returns in Hfire as (alerts & _ & Hes & _ & Hr & _).
  split; [|lia]. unfold instants. rewrite Hes, fmap_app.
  pose proof (ascendingUpTo_readings w (readings w) 0 _ (alertmanagers p) alerts
                Hmono eq_refl Hasc) as H.
  destruct H as [Hsorted Hbound]. split; [done|].
  simpl in Hbound. by rewrite Hr.
Qed.

Lemma scheduled_ascending (schedule : list nat) (lps lps' : list LoadProducer)
    (d d' : Dataset) (w w' : world) :
  monotone →
  Forall (λ lp, ascendingUpTo w (instants lp)) lps →
  scheduled schedule lps d w = Returns (lps', d', w') →
  Forall (λ lp, ascendingUpTo w' (instants lp)) lps' ∧ length lps' = length lps.
Proof.
  intros Hmono. revert lps d w.
  induction schedule as [|i schedule IH]; intros lps d w Hall; simpl.
  - by intros [= <- <- <-].
  - destruct (lps !! i) as [p|] eqn:Hp; [|by apply IH].
    destruct (fireAlerts p d w) as [[[p1 d1] w1]| |] eqn:Hfire; simpl; [|other_result..].
    intros Hrest.
    destruct (fireAlerts_ascending p p1 d d1 w w1 Hmono Hfire) as [Hp1 Hle].
    { by apply (Forall_lookup_1 _ _ _ _ Hall Hp). }
    apply IH in Hrest as [Hall' Hlen].
    + split; [done|]. by rewrite Hlen, length_insert.
    + apply Forall_insert; [|done].
      eapply Forall_impl; [exact Hall|]. intros lp Hlp.
      by apply (ascendingUpTo_later w w1).
Qed.

(** *** The windows of the deliveries *)

Lemma makeAlerts_between (ap ap' : AlertProducer) (d d' : Dataset) alerts :
  between ap →
  makeAlerts parse grow ap d = Returns (alerts, ap', d') →
  between ap' ∧
  (∃ extra, dataset d' = dataset d ++ extra) ∧
  (∀ extra, alerts = BatcherFacts.nthWindow (dataset d' ++ extra) (index ap) (batch ap)
                       (batchRepeated ap / interval ap)) ∧
  (∀ D ams n, ticks D ap ams (S n)
              = ((λ am, (am, BatcherFacts.nthWindow D (index ap) (batch ap)
                               (batchRepeated ap / interval ap))) <$> ams)
                ++ ticks D ap' ams n).
Proof.
  intros (Hi & Hb & Hint & Hrep & Hserved) Hcall.
  apply makeAlerts_Returns in Hcall as (Hc & Hb0 & Hmax & -> & Hin & -> & Hext);
    [|done|done].
  set (r := interval ap) in *. set (j := batchRepeated ap) in *.
  set (c := index ap) in *. set (b := batch ap) in *.
  assert (Hq : rotated ap
               = mkAlertProducer (c + (j / r) * b) b r (j mod r)
                 ∧ 0 ≤ j mod r < r ∧ 0 ≤ j / r).
  { unfold rotated. fold j r c b.
    destruct (Z.eqb_spec j r) as [Hjr|Hjr].
    - destruct Hserved as (? & ? & ?); [lia|].
      rewrite wrap_id by lia. rewrite Hjr, Z_div_same_full, Z_mod_same_full by lia.
      split; [f_equal; lia|lia].
    - rewrite Z.div_small, Z.mod_small by lia.
      split; [|lia]. destruct ap. simpl in *. unfold c, b, r, j. f_equal. lia. }
  destruct Hq as (Hq & Hjm & Hjd). rewrite Hq in *.
  cbn [index batch interval batchRepeated] in *.
  rewrite wrap_id by lia.
  assert (Hdiv : ∀ t, 0 ≤ t → (j mod r + 1 + t) / r = (j + 1 + t) / r - j / r).
  { intros t Ht.
    assert (Heq : j + 1 + t = j mod r + 1 + t + j / r * r)
      by (pose proof (Z.div_mod j r); lia).
    rewrite Heq, Z.div_add by lia. lia. }
  split; [|split; [done|split]].
  - unfold between, inInt in *. cbn [index batch interval batchRepeated]. lia.
  - intros extra. unfold BatcherFacts.nthWindow. symmetry.
    apply window_stable; [done|]. destruct Hin; [by left|right; lia].
  - intros D ams n. unfold ticks. cbn [index batch interval batchRepeated].
    rewrite <- cons_seq, fmap_cons. simpl. rewrite Z.add_0_r. fold c b j r. f_equal.
    rewrite <- fmap_S_seq, <- list_fmap_compose. f_equal.
    apply list_fmap_ext. intros _ k _. simpl. apply list_fmap_ext. intros _ am _.
    f_equal. unfold BatcherFacts.nthWindow.
    rewrite (Hdiv (Z.of_nat k)) by lia.
    replace (j + Z.of_nat (S k)) with (j + 1 + Z.of_nat k) by lia.
    f_equal; ring.
Qed.

(** A call that returns has made a batch of [batch] alerts from what it
    drew from the source. *)
Lemma makeAlerts_full (ap ap' : AlertProducer) (d d' : Dataset) alerts :
  inInt (index ap) → inInt (batch ap) →
  makeAlerts parse grow ap d = Returns (alerts, ap', d') →
  Z.of_nat (length alerts) = batch ap ∧ batch ap' = batch ap ∧ drawn parse d d'.
Proof.
  intros Hi Hb Hcall. split; [|split; [|by eapply makeAlerts_drawn]].
  - assert (Hcalls : calls parse grow 1 ap d = Returns ([alerts], ap', d')).
    { simpl. by rewrite Hcall. }
    apply calls_lengths in Hcalls; [|done|done]. by apply Forall_inv in Hcalls.
  - destruct (rotated_fields ap Hi) as (_ & Hbq & _).
    by apply makeAlerts_Returns in Hcall as (_ & _ & _ & _ & _ & -> & _).
Qed.

Lemma scheduled_full (b : Z) (schedule : list nat) (lps lps' : list LoadProducer)
    (d d' : Dataset) (w w' : world) :
  Forall (fullBatches b) lps →
  scheduled schedule lps d w = Returns (lps', d', w') →
  drawn parse d d' ∧ Forall (fullBatches b) lps'.
Proof.
  revert lps d w. induction schedule as [|i0 schedule IH]; intros lps d w Hall; simpl.
  - intros [= <- <- <-]. split; [apply drawn_refl|done].
  - destruct (lps !! i0) as [p0|] eqn:Hp0; [|by apply IH].
    destruct (fireAlerts p0 d w) as [[[p1 d1] w1]| |] eqn:Hfire; simpl; [|other_result..].
    intros Hrest.
    destruct (Forall_lookup_1 _ _ _ _ Hall Hp0) as (Hbetween & Hbatch & Hfull).
    apply fireAlerts_Returns in Hfire as (alerts & Hcall & Hes & _ & _ & _ & _ & _).
    destruct (makeAlerts_between _ _ _ _ _ Hbetween Hcall) as (Hbetween1 & _).
    destruct (makeAlerts_full _ _ _ _ _ (proj1 Hbetween) (proj1 (proj2 Hbetween)) Hcall)
      as (Hlen & Hbatch1 & Hdrawn1).
    apply IH in Hrest as [Hdrawn2 Hall2].
    + split; [by apply (drawn_trans parse d d1 d')|done].
    + apply Forall_insert; [done|]. split; [done|]. split; [congruence|].
      rewrite Hes. apply Forall_app. split; [done|].
      apply Forall_forall. intros e (k & am & -> & _)%elem_of_lookup_imap. simpl. lia.
Qed.

Lemma deliveries_imap (alerts : list Alert) (ams : list string) (k : nat) :
  (λ e, (alertmanager e, Report.alerts e))
  <$> imap (λ i am, mkFired am alerts (Now (k + i))) ams
  = (λ am, (am, alerts)) <$> ams.
Proof.
  revert k. induction ams as [|am ams IH]; intros k; [done|].
  rewrite imap_cons, !fmap_cons. f_equal. rewrite <- (IH (S k)). f_equal.
  apply imap_ext. intros i x _. simpl. do 2 f_equal. lia.
Qed.

Lemma scheduled_ticks (schedule : list nat) (lps lps' : list LoadProducer)
    (d d' : Dataset) (w w' : world) :
  Forall (λ p, between (alertProducer p)) lps →
  scheduled schedule lps d w = Returns (lps', d', w') →
  (∃ extra, dataset d' = dataset d ++ extra) ∧
  ∀ i p, lps !! i = Some p →
    ∃ p', lps' !! i = Some p' ∧ alertmanagers p' = alertmanagers p ∧
      deliveries p'
      = deliveries p
        ++ ticks (dataset d') (alertProducer p) (alertmanagers p)
             (length (filter (λ j, j = i) schedule)).
Proof.
  revert lps d w. induction schedule as [|i0 schedule IH]; intros lps d w Hall; simpl.
  - intros [= <- <- <-]. split; [by exists []; rewrite app_nil_r|].
    intros i p Hp. exists p. split; [done|]. split; [done|].
    unfold ticks. simpl. by rewrite app_nil_r.
  - destruct (lps !! i0) as [p0|] eqn:Hp0.
    2: { intros Hrest. destruct (IH lps d w Hall Hrest) as [Hext Hrun].
         split; [done|]. intros i p Hp.
         rewrite filter_cons_False by (intros ->; congruence). by apply Hrun. }
    destruct (fireAlerts p0 d w) as [[[p1 d1] w1]| |] eqn:Hfire; simpl; [|other_result..].
    intros Hrest.
    apply fireAlerts_Returns in Hfire
      as (alerts & Hcall & Hes & _ & _ & Hams & _ & _).
    destruct (makeAlerts_between _ _ _ _ _ (Forall_lookup_1 _ _ _ _ Hall Hp0) Hcall)
      as (Hbetween & [ex1 Hex1] & Halerts & Hticks).
    apply IH in Hrest as [[ex2 Hex2] Hrun].
    2: { apply Forall_insert; done. }
    split; [exists (ex1 ++ ex2); by rewrite Hex2, Hex1, <- app_assoc|].
    intros i p Hp. destruct (decide (i = i0)) as [->|Hne].
    + rewrite Hp0 in Hp. injection Hp as <-.
      destruct (Hrun i0 p1) as (p' & Hp' & Hams' & Hdel).
      { apply list_lookup_insert_eq. by apply lookup_lt_Some in Hp0. }
      exists p'. split; [done|]. split; [congruence|].
      rewrite Hdel, filter_cons_True by done. cbn [length].
      rewrite Hticks, Hams, app_assoc. f_equal.
      unfold deliveries. rewrite Hes, fmap_app. f_equal.
      rewrite deliveries_imap. by rewrite (Halerts ex2), <- Hex2.
    + destruct (Hrun i p) as (p' & Hp' & Hams' & Hdel).
      { by rewrite list_lookup_insert_ne. }
      exists p'. rewrite filter_cons_False by done. done.
Qed.

Lemma instants_ascending (es : list alertsFiredEvent) :
  StronglySorted Z.le (timestamp <$> es) →
  StronglySorted (Merge.leT Timestamp) (Fired <$> es).
Proof.
  induction es as [|e es IH]; intros Hs; [constructor|].
  change (StronglySorted Z.le (timestamp e :: (timestamp <$> es))) in Hs.
  apply StronglySorted_inv in Hs as [Hs Hall].
  change (StronglySorted (Merge.leT Timestamp) (Fired e :: (Fired <$> es))).
  constructor; [by apply IH|].
  apply Forall_forall. intros x [e' [-> He']]%list_elem_of_fmap.
  apply (proj1 (Forall_forall _ _) Hall). apply list_elem_of_fmap. by exists e'.
Qed.

Lemma runLoadTest_ascending (schedule : list nat) (c : LoadTestConfig)
    (ams : list string) (lines : list string) (w w' : world)
    (lps' : list LoadProducer) (d' : Dataset) :
  monotone →
  runLoadTest schedule (NewLoadTest c ams) (NewDataset lines) w = Returns (lps', d', w') →
  Forall (StronglySorted (Merge.leT Timestamp)) (loadTestEvents lps') ∧
  length lps' = Z.to_nat (Goroutines c) ∧
  (0 < Goroutines c → 0 < FireInterval c).
Proof.
  intros Hmono. unfold runLoadTest.
  destruct (bool_decide _) eqn:Hticker; [other_result|].
  apply bool_decide_eq_false in Hticker.
  intros Hrun. apply scheduled_ascending in Hrun as [Hall Hlen]; [|done|].
  - split; [|split].
    + unfold loadTestEvents. apply Forall_fmap.
      eapply Forall_impl; [exact Hall|]. intros lp [Hs _]. by apply instants_ascending.
    + rewrite Hlen. unfold NewLoadTest. by rewrite length_fmap, length_seqZ.
    + intros Hpos. destruct (Z.lt_ge_cases 0 (FireInterval c)) as [?|Hbad]; [done|].
      exfalso. apply Hticker. unfold NewLoadTest.
      apply Exists_exists.
      exists (mkLoadProducer ams
                (mkAlertProducer (wrap (0 * BatchSize c)) (BatchSize c)
                   (RotationInterval c) 0) (FireInterval c) []).
      split; [|simpl; lia]. apply list_elem_of_fmap. exists 0. split; [done|].
      apply elem_of_seqZ. lia.
  - unfold NewLoadTest. apply Forall_fmap, Forall_forall. intros i _.
    split; [constructor|constructor].
Qed.

(** *** Properties of the producers *)

(** X16.  A call of [fireAlerts] that returns has made one batch of alerts and
    posted it, in one and the same encoding, to every target in the order of
    the target list, recording for each an event with that batch and the
    reading of the clock taken after the response.  It panics when the
    batcher panics and when a post fails; it does not skip a target. *)
Theorem fireAlerts_records_every_delivery (p : LoadProducer) (d : Dataset) (w : world) :
  (∀ p' d' w',
     fireAlerts p d w = Returns (p', d', w') →
     ∃ alerts,
       makeAlerts parse grow (alertProducer p) d
       = Returns (alerts, alertProducer p', d') ∧
       eventStore p'
       = eventStore p ++ imap (λ i am, mkFired am alerts (Now (readings w + i)))
                           (alertmanagers p) ∧
       posted w' = posted w ++ ((λ am, (am, Encode alerts)) <$> alertmanagers p) ∧
       readings w' = (readings w + length (alertmanagers p))%nat ∧
       alertmanagers p' = alertmanagers p ∧ fireInterval p' = fireInterval p) ∧
  (∀ alerts ap d1 i am,
     makeAlerts parse grow (alertProducer p) d = Returns (alerts, ap, d1) →
     alertmanagers p !! i = Some am →
     Post (length (posted w) + i) am (Encode alerts) = None →
     fireAlerts p d w = Panics) ∧
  (makeAlerts parse grow (alertProducer p) d = Panics → fireAlerts p d w = Panics).
Proof.
  split; [|split].
  - intros p' d' w' Hfire.
    apply fireAlerts_Returns in Hfire as (alerts & ? & ? & ? & ? & ? & ? & _).
    by exists alerts.
  - intros alerts ap d1 i am Hcall Ham Hpost.
    pose proof (fireAlerts_ends p d w) as Hends.
    destruct (fireAlerts p d w) as [[[p' d'] w']| |] eqn:Hfire; [|done|done].
    apply fireAlerts_Returns in Hfire as (alerts' & Hcall' & _ & _ & _ & _ & _ & Hposts).
    rewrite Hcall in Hcall'. injection Hcall' as <- _ _.
    destruct (Hposts i am Ham) as [code Hcode]. congruence.
  - intros Hcall. unfold fireAlerts. by rewrite Hcall.
Qed.

(** X17.  With a clock that does not run backwards, the events that each
    producer of a load test has recorded when the test is over are in
    ascending order of their timestamps, whatever the order in which the
    producers have handled their ticks: the sequences that [RunLoadTests]
    hands to the merge for the producers are ascending.  A test that is
    over without a panic has as many producers as [Goroutines] says, and a
    positive fire interval when it has a producer. *)
Theorem producers_events_are_ascending (schedule : list nat) (c : LoadTestConfig)
    (ams : list string) (lines : list string) (w w' : world)
    (lps' : list LoadProducer) (d' : Dataset) :
  monotone →
  runLoadTest schedule (NewLoadTest c ams) (NewDataset lines) w = Returns (lps', d', w') →
  Forall (StronglySorted (Merge.leT Timestamp)) (loadTestEvents lps') ∧
  length lps' = Z.to_nat (Goroutines c) ∧
  (0 < Goroutines c → 0 < FireInterval c).
Proof. apply runLoadTest_ascending. Qed.

(** X18.  In a load test that is over without a panic, with a rotation interval
    [r] > 0: tick number [k] of producer number [i], counted from 0, has
    delivered to every target, in the order of the target list, the alerts of
    the window [k div r] batch sizes after the first window of the producer,
    whatever the order in which the producers have handled their ticks; the
    events of a producer record just these deliveries, in order.  Every
    batch delivered holds [BatchSize] alerts; the label sets of the windows
    are what the parser returned for the lines the producers took from the
    front of the dataset file, run by run; so with a parser that works line
    by line the windows are those of the label sets of the lines of the
    file, in order. *)
Theorem deliveries_follow_the_windows (schedule : list nat) (c : LoadTestConfig)
    (ams : list string) (lines : list string) (w w' : world)
    (lps' : list LoadProducer) (d' : Dataset) :
  inInt (BatchSize c) → 0 < RotationInterval c < 2 ^ 63 →
  runLoadTest schedule (NewLoadTest c ams) (NewDataset lines) w = Returns (lps', d', w') →
  drawn parse (NewDataset lines) d' ∧
  ∀ i : nat, Z.of_nat i < Goroutines c →
    ∃ p', lps' !! i = Some p' ∧
      deliveries p'
      = mjoin ((λ k : nat,
                  (λ am, (am, BatcherFacts.nthWindow (dataset d')
                                (wrap (Z.of_nat i * BatchSize c)) (BatchSize c)
                                (Z.of_nat k / RotationInterval c))) <$> ams)
               <$> seq 0 (length (filter (λ j, j = i) schedule))) ∧
      Forall (λ e, Z.of_nat (length (alerts e)) = BatchSize c) (eventStore p') ∧
      (∀ f, lineWise parse f lines →
         deliveries p'
         = mjoin ((λ k : nat,
                     (λ am, (am, BatcherFacts.nthWindow (f <$> lines)
                                   (wrap (Z.of_nat i * BatchSize c)) (BatchSize c)
                                   (Z.of_nat k / RotationInterval c))) <$> ams)
                  <$> seq 0 (length (filter (λ j, j = i) schedule)))).
Proof.
  intros Hb Hr. unfold runLoadTest.
  destruct (bool_decide _); [other_result|].
  intros Hrun.
  assert (Hnew : Forall (fullBatches (BatchSize c)) (NewLoadTest c ams)).
  { unfold NewLoadTest. apply Forall_fmap, Forall_forall. intros k _.
    split; [|split; [done|constructor]].
    unfold between. simpl. split; [apply wrap_inInt|]. split; [done|].
    split; [done|]. split; [lia|done]. }
  destruct (scheduled_full _ _ _ _ _ _ _ _ Hnew Hrun) as [Hdrawn Hfull].
  split; [done|]. intros i Hi.
  apply scheduled_ticks in Hrun as [_ Hrun].
  2: { eapply Forall_impl; [exact Hnew|]. by intros p [? _]. }
  destruct (Hrun i (mkLoadProducer ams
                      (mkAlertProducer (wrap (Z.of_nat i * BatchSize c)) (BatchSize c)
                         (RotationInterval c) 0) (FireInterval c) []))
    as (p' & Hp' & _ & Hdel).
  { unfold NewLoadTest. rewrite list_lookup_fmap.
    rewrite (proj2 (lookup_seqZ 0 (Goroutines c) i (Z.of_nat i))) by lia. done. }
  destruct (Forall_lookup_1 _ _ _ _ Hfull Hp') as (_ & _ & Hlens).
  assert (Hdel' : deliveries p'
            = mjoin ((λ k : nat,
                        (λ am, (am, BatcherFacts.nthWindow (dataset d')
                                      (wrap (Z.of_nat i * BatchSize c)) (BatchSize c)
                                      (Z.of_nat k / RotationInterval c))) <$> ams)
                     <$> seq 0 (length (filter (λ j, j = i) schedule)))).
  { rewrite Hdel. unfold deliveries, ticks. simpl. f_equal. }
  exists p'. split; [done|]. split; [done|]. split; [done|].
  intros f Hf. rewrite Hdel'. f_equal. apply list_fmap_ext. intros j k Hk.
  destruct ams as [|am0 ams0] eqn:Hams; [done|]. rewrite <- Hams in *.
  apply list_fmap_ext. intros _ am _. f_equal. unfold BatcherFacts.nthWindow.
  change (f <$> lines) with (supply f (NewDataset lines)).
  apply (window_supply parse f (NewDataset lines) d'); [done|done|].
  assert (Hin : (am0, BatcherFacts.nthWindow (dataset d')
                        (wrap (Z.of_nat i * BatchSize c)) (BatchSize c)
                        (Z.of_nat k / RotationInterval c)) ∈ deliveries p').
  { rewrite Hdel'. apply list_elem_of_join.
    exists ((λ am, (am, BatcherFacts.nthWindow (dataset d')
                          (wrap (Z.of_nat i * BatchSize c)) (BatchSize c)
                          (Z.of_nat k / RotationInterval c))) <$> ams).
    split.
    - apply (list_elem_of_fmap_2
               (λ am, (am, BatcherFacts.nthWindow (dataset d')
                             (wrap (Z.of_nat i * BatchSize c)) (BatchSize c)
                             (Z.of_nat k / RotationInterval c)))).
      rewrite Hams. left.
    - apply list_elem_of_lookup_2 in Hk.
      by apply (list_elem_of_fmap_2
                  (λ k : nat,
                     (λ am, (am, BatcherFacts.nthWindow (dataset d')
                                   (wrap (Z.of_nat i * BatchSize c)) (BatchSize c)
                                   (Z.of_nat k / RotationInterval c))) <$> ams)). }
  unfold deliveries in Hin. apply list_elem_of_fmap in Hin as (e & [= _ He] & Hin).
  apply (proj1 (Forall_forall _ _) Hlens) in Hin.
  unfold BatcherFacts.nthWindow in He. by rewrite He.
Qed.

End WithWorld.

(** A world in which every post is answered with status 200 and the clock
    advances by one with every reading. *)
Definition answered (n : nat) (am : string) (body : list byte) : option Z := Some 200.
Definition counting (n : nat) : Z := Z.of_nat n.
Definition noBytes (alerts : list Alert) : list byte := [].

Lemma producers_events_are_ascending_witness :
  monotone counting ∧
  ∃ lps' d' w',
    runLoadTest bareMetrics doubling noBytes answered counting [0%nat; 0%nat]
      (NewLoadTest smoke ams) (NewDataset tenLines) (mkWorld [] ∅ 0)
    = Returns (lps', d', w') ∧
    Forall (StronglySorted (Merge.leT Timestamp)) (loadTestEvents lps') ∧
    length lps' = Z.to_nat (Goroutines smoke) ∧
    (0 < Goroutines smoke → 0 < FireInterval smoke).
Proof.
  assert (H1 : monotone counting) by (intros i j Hij; unfold counting; lia).
  split; [exact H1|].
  destruct (runLoadTest bareMetrics doubling noBytes answered counting [0%nat; 0%nat]
              (NewLoadTest smoke ams) (NewDataset tenLines) (mkWorld [] ∅ 0))
    as [[[lps' d'] w']| |] eqn:H2;
    [|vm_compute in H2; discriminate H2..].
  exists lps', d', w'. split; [reflexivity|].
  exact (producers_events_are_ascending bareMetrics doubling noBytes answered counting
           [0%nat; 0%nat] smoke ams tenLines (mkWorld [] ∅ 0) w' lps' d' H1 H2).
Defined.

Lemma deliveries_follow_the_windows_witness :
  inInt (BatchSize smoke) ∧ 0 < RotationInterval smoke < 2 ^ 63 ∧
  ∃ lps' d' w',
    runLoadTest bareMetrics doubling noBytes answered counting
      [0%nat; 0%nat; 0%nat; 0%nat]
      (NewLoadTest smoke ams) (NewDataset tenLines) (mkWorld [] ∅ 0)
    = Returns (lps', d', w') ∧
    drawn bareMetrics (NewDataset tenLines) d' ∧
    ∀ i : nat, Z.of_nat i < Goroutines smoke →
      ∃ p', lps' !! i = Some p' ∧
        deliveries p'
        = mjoin ((λ k : nat,
                    (λ am, (am, BatcherFacts.nthWindow (dataset d')
                                  (wrap (Z.of_nat i * BatchSize smoke)) (BatchSize smoke)
                                  (Z.of_nat k / RotationInterval smoke))) <$> ams)
                 <$> seq 0 (length (filter (λ j, j = i) [0%nat; 0%nat; 0%nat; 0%nat]))) ∧
        Forall (λ e, Z.of_nat (length (alerts e)) = BatchSize smoke) (eventStore p') ∧
        (∀ f, lineWise bareMetrics f tenLines →
           deliveries p'
           = mjoin ((λ k : nat,
                       (λ am, (am, BatcherFacts.nthWindow (f <$> tenLines)
                                     (wrap (Z.of_nat i * BatchSize smoke))
                                     (BatchSize smoke)
                                     (Z.of_nat k / RotationInterval smoke))) <$> ams)
                    <$> seq 0 (length (filter (λ j, j = i)
                                         [0%nat; 0%nat; 0%nat; 0%nat])))).
Proof.
  assert (H1 : inInt (BatchSize smoke)) by (unfold inInt; simpl; lia).
  assert (H2 : 0 < RotationInterval smoke < 2 ^ 63) by (simpl; lia).
  split; [exact H1|]. split; [exact H2|].
  destruct (runLoadTest bareMetrics doubling noBytes answered counting
              [0%nat; 0%nat; 0%nat; 0%nat]
              (NewLoadTest smoke ams) (NewDataset tenLines) (mkWorld [] ∅ 0))
    as [[[lps' d'] w']| |] eqn:H3;
    [|vm_compute in H3; discriminate H3..].
  exists lps', d', w'. split; [reflexivity|].
  exact (deliveries_follow_the_windows bareMetrics doubling noBytes answered counting
           [0%nat; 0%nat; 0%nat; 0%nat] smoke ams tenLines (mkWorld [] ∅ 0) w' lps' d'
           H1 H2 H3).
Defined.

(** Two ticks of the one producer of the case [smoke]: two events, one
    second apart on the counting clock, and two requests counted. *)
Example smoke_two_ticks :
  match runLoadTest bareMetrics doubling noBytes answered counting [0%nat; 0%nat]
          (NewLoadTest smoke ams) (NewDataset tenLines) (mkWorld [] ∅ 0) with
  | Returns (lps', d', w') =>
      (instants <$> lps') = [[0; 1]] ∧
      alertsFired w' !! ("http://localhost:9093/api/v1/alerts", "200")%string
      = Some 2%nat ∧
      length (posted w') = 2%nat ∧ length (dataset d') = 2%nat
  | _ => False
  end.
Proof. by vm_compute. Qed.

End Producer.

(** ** The receiver, the producers of a test and the driver on any run *)

Module DriverFacts.
Import Go Hashing Batcher Report Orchestrator.

(** The first window of a producer, over the materialized label sets. *)
Definition firstWindow (materialized : list Labels) (lp : LoadProducer) : list Alert :=
  window materialized (index (alertProducer lp))
    (index (alertProducer lp) + batch (alertProducer lp)).

(** The names of the cases whose producers were started, in order. *)
Definition started (steps : list step) : list string :=
  omap (λ s, match s with Run name _ => Some name | _ => None end) steps.

(** The reports written, in order. *)
Definition written (steps : list step) : list (string * string) :=
  omap (λ s, match s with Write path text => Some (path, text) | _ => None end) steps.

(** *** The report file *)

(** The first [n] bytes of [s], and what is left of [s] after them. *)
Fixpoint takeString (n : nat) (s : string) : string :=
  match n, s with
  | S n, String x s => String x (takeString n s)
  | _, _ => EmptyString
  end.

Fixpoint dropString (n : nat) (s : string) : string :=
  match n, s with
  | S n, String _ s => dropString n s
  | _, _ => s
  end.

(** A write of [s] to a file at the offset [off], which is not beyond its
    end: the bytes from the offset on are replaced as far as [s] goes, and
    the file is extended if [s] goes beyond its end. *)
Definition writeAt (file : string) (off : nat) (s : string) : string :=
  takeString off file +:+ s +:+ dropString (off + String.length s) file.

(** The writes of [chunks], one after the other, from the offset [off] on:
    the file and the offset after them. *)
Definition writeAll (file : string) (off : nat) (chunks : list string) : string * nat :=
  foldl (λ '(file, off) s, (writeAt file off s, (off + String.length s)%nat))
    (file, off) chunks.

(** The content of a file that held [old] after [text] has been written to
    it from its start. *)
Definition overwritten (old text : string) : string :=
  text +:+ dropString (String.length text) old.

(** What a step of [RunLoadTests] does to the files, which are given by
    their content under their path.  [os.OpenFile] with the flags
    [O_RDWR|O_CREATE] creates an empty file where there is none and leaves
    a file that is there as it is, with the offset at its start: the flags
    [O_TRUNC] and [O_APPEND] are not given.  The writes of the [Print]
    calls of a case then go to the file one after the other from its
    start, which comes to one write of their text there
    ([writeAll_from_start] below). *)
Definition perform (fs : gmap string string) (s : step) : gmap string string :=
  match s with
  | OpenFile path true => <[path := default EmptyString (fs !! path)]> fs
  | Write path text => <[path := writeAt (default EmptyString (fs !! path)) 0 text]> fs
  | _ => fs
  end.

Lemma length_append (a b : string) :
  String.length (a +:+ b) = (String.length a + String.length b)%nat.
Proof.
  induction a as [|x a IH]; [done|].
  change (S (String.length (a +:+ b)) = S (String.length a + String.length b)).
  by rewrite IH.
Qed.

Lemma takeString_append (a b : string) : takeString (String.length a) (a +:+ b) = a.
Proof.
  induction a as [|x a IH]; [by destruct b|].
  change (String x (takeString (String.length a) (a +:+ b)) = String x a).
  by rewrite IH.
Qed.

Lemma dropString_append (a b : string) (n : nat) :
  dropString (String.length a + n) (a +:+ b) = dropString n b.
Proof.
  induction a as [|x a IH]; [done|].
  change (dropString (String.length a + n) (a +:+ b) = dropString n b). exact IH.
Qed.

Lemma dropString_dropString (n m : nat) (s : string) :
  dropString n (dropString m s) = dropString (m + n) s.
Proof.
  revert s. induction m as [|m IH]; intros s; [done|].
  destruct s as [|x s]; [by destruct n|]. apply IH.
Qed.



(** Writing [s] where the writes of [out] from the start have ended is
    writing [out] and [s] from the start. *)
Lemma writeAt_overwritten (old out s : string) :
  writeAt (overwritten old out) (String.length out) s = overwritten old (out +:+ s).
Proof.
  unfold writeAt, overwritten.
  rewrite takeString_append, dropString_append, dropString_dropString, length_append.
  by rewrite Report.append_assoc.
Qed.

Lemma writeAll_overwritten (old out : string) (chunks : list string) :
  writeAll (overwritten old out) (String.length out) chunks
  = (overwritten old (out +:+ String.concat EmptyString chunks),
     String.length (out +:+ String.concat EmptyString chunks)).
Proof.
  revert out. induction chunks as [|s chunks IH]; intros out.
  - simpl. by rewrite Report.append_nil_r.
  - unfold writeAll in *. cbn [foldl]. rewrite writeAt_overwritten, <- length_append, IH.
    by rewrite Report.concat_cons, Report.append_assoc.
Qed.


(** Writes that go to a file one after the other from its start come to one
    write of their concatenation. *)
Lemma writeAll_from_start (old : string) (chunks : list string) :
  writeAll old 0 chunks
  = (writeAt old 0 (String.concat EmptyString chunks),
     String.length (String.concat EmptyString chunks)).
Proof. apply (writeAll_overwritten old EmptyString chunks). Qed.



Section WithSum64.

Variable Sum64 : list byte → Z.

(** The label values under which the handler counts a call, none when it
    panics. *)
Definition labelValues (call : WebhookData * Z) : option (string * string * string) :=
  match alertHashesOf Sum64 (Alerts call.1) [] with
  | Returns alertHashes =>
      Some (GroupKey call.1, ExternalURL call.1, hex (hashHashes alertHashes))
  | Panics => None
  | OutOfFuel => None
  end.

(** *** The handler *)

Lemma Handler_counts (calls : list (WebhookData * Z)) (wr : WebhookReceiver)
    (lvs : string * string * string) :
  default 0%nat (notificationsReceived (foldl (served Sum64) wr calls) !! lvs)
  = (default 0%nat (notificationsReceived wr !! lvs)
     + length (filter (λ call, labelValues call = Some lvs) calls))%nat.
Proof.
  revert wr. induction calls as [|[data now] calls IH]; intros wr.
  - simpl. lia.
  - cbn [foldl]. rewrite IH, filter_cons.
    assert (Hone : default 0%nat (notificationsReceived (served Sum64 wr (data, now)) !! lvs)
                   = (default 0%nat (notificationsReceived wr !! lvs)
                      + if decide (labelValues (data, now) = Some lvs) then 1 else 0)%nat).
    { unfold served, Handler, labelValues. simpl.
      destruct (alertHashesOf Sum64 (Alerts data) []) as [hashes| |]; simpl.
      - destruct (decide (Some _ = Some lvs)) as [[= <-]|Hne].
        + rewrite lookup_insert_eq. simpl. lia.
        + rewrite lookup_insert_ne by congruence. lia.
      - destruct (decide (None = Some lvs)); [done|lia].
      - destruct (decide (None = Some lvs)); [done|lia]. }
    rewrite Hone. destruct (decide (labelValues (data, now) = Some lvs)); simpl; lia.
Qed.

Lemma Handler_appends (calls : list (WebhookData * Z)) (wr : WebhookReceiver) :
  notifications (foldl (served Sum64) wr calls)
  = notifications wr ++ omap (recorded Sum64) calls.
Proof. apply Handler_log. Qed.

(** *** Properties of the receiver and of [NewLoadTest] *)

(** X19.  The handler records every call whose decoded alerts are all there:
    the notifications of these calls are appended to the log in the order in
    which the calls are handled, each with the instant of its call and the
    hashes of its alerts in order; the counter of the label values of such a
    call goes up by one with each such call and by nothing else; and the
    notification hash of every notification recorded is the XOR of the alert
    hashes recorded with it.  A call one of whose alerts is nil, as a JSON
    null is decoded, makes the handler panic in [hashAlert] before anything
    is counted or recorded, and the receiver stays as it was. *)
Theorem Handler_records_every_call (calls : list (WebhookData * Z)) (wr : WebhookReceiver) :
  notifications (foldl (served Sum64) wr calls)
  = notifications wr ++ omap (recorded Sum64) calls ∧
  (∀ lvs,
     default 0%nat (notificationsReceived (foldl (served Sum64) wr calls) !! lvs)
     = (default 0%nat (notificationsReceived wr !! lvs)
        + length (filter (λ call, labelValues call = Some lvs) calls))%nat) ∧
  Forall (λ n, notificationHash n = hashHashes (n_alerts n))
    (omap (recorded Sum64) calls) ∧
  (∀ call alerts,
     Alerts call.1 = Some <$> alerts →
     (∃ wr', Handler Sum64 wr call = Returns wr') ∧
     recorded Sum64 call
     = Some (mkNotification call.2 (ExternalURL call.1) (GroupKey call.1)
               (hashHashes (hashAlert Sum64 <$> alerts)) (hashAlert Sum64 <$> alerts)) ∧
     labelValues call
     = Some (GroupKey call.1, ExternalURL call.1,
             hex (hashHashes (hashAlert Sum64 <$> alerts)))) ∧
  (∀ call,
     None ∈ Alerts call.1 →
     Handler Sum64 wr call = Panics ∧ served Sum64 wr call = wr ∧
     recorded Sum64 call = None ∧ labelValues call = None).
Proof.
  split; [apply Handler_appends|]. split; [intros lvs; apply Handler_counts|].
  split; [|split].
  - apply Forall_forall. intros n (call & _ & Hn)%list_elem_of_omap.
    unfold recorded in Hn.
    destruct (alertHashesOf Sum64 (Alerts call.1) []); [|done..].
    by injection Hn as <-.
  - intros [data now] alerts Hall. simpl in Hall.
    unfold Handler, recorded, labelValues. simpl.
    rewrite Hall, alertHashesOf_Some. simpl. split; [by eexists|done].
  - intros [data now] Hnil. simpl in Hnil.
    unfold served, Handler, recorded, labelValues. simpl.
    by rewrite (alertHashesOf_nil Sum64 _ _ Hnil).
Qed.

End WithSum64.

(** X20.  [NewLoadTest] makes one producer for each number from 0 below
    [Goroutines], none when that is not positive; producer [i] has the
    targets and the fire interval of the test, no event, and a batcher that
    has not served yet with its cursor at [i * BatchSize].  So the first
    windows of the producers, taken together in the order of the producers,
    are the first [Goroutines * BatchSize] label sets of the dataset, each
    in one window. *)
Theorem NewLoadTest_first_windows (c : LoadTestConfig) (ams : list string)
    (materialized : list Labels) :
  0 ≤ BatchSize c →
  Goroutines c * BatchSize c ≤ Z.of_nat (length materialized) →
  Goroutines c * BatchSize c < 2 ^ 63 →
  length (NewLoadTest c ams) = Z.to_nat (Goroutines c) ∧
  (∀ (i : nat) lp,
     NewLoadTest c ams !! i = Some lp →
     lp = mkLoadProducer ams
            (mkAlertProducer (Z.of_nat i * BatchSize c) (BatchSize c)
               (RotationInterval c) 0)
            (FireInterval c) []) ∧
  mjoin (firstWindow materialized <$> NewLoadTest c ams)
  = alertOfLabels <$> take (Z.to_nat (Goroutines c * BatchSize c)) materialized.
Proof.
  intros Hb Hlen Hmax.
  assert (Hwrap : ∀ i : Z, 0 ≤ i < Goroutines c → wrap (i * BatchSize c) = i * BatchSize c).
  { intros i Hi. apply wrap_id. nia. }
  split; [|split].
  - unfold NewLoadTest. by rewrite length_fmap, length_seqZ.
  - intros i lp. unfold NewLoadTest. rewrite list_lookup_fmap.
    destruct (seqZ 0 (Goroutines c) !! i) as [k|] eqn:Hk; [|done].
    apply lookup_seqZ in Hk as [-> Hi]. simpl. intros [= <-].
    rewrite Hwrap by lia. by rewrite Z.add_0_l.
  - unfold NewLoadTest. rewrite <- list_fmap_compose.
    destruct (Z.le_gt_cases (Goroutines c) 0) as [Hnone|Hsome].
    { rewrite seqZ_nil by done. simpl.
      replace (Z.to_nat (Goroutines c * BatchSize c)) with 0%nat by nia. done. }
    rewrite <- (Z2Nat.id (Goroutines c)) in Hwrap, Hlen |- * by lia.
    induction (Z.to_nat (Goroutines c)) as [|n IH]; [done|].
    rewrite seqZ_S, fmap_app, join_app, IH by (try intros i Hi; try apply Hwrap; nia).
    simpl. rewrite app_nil_r. unfold firstWindow. simpl.
    rewrite Hwrap by lia. unfold window. rewrite <- fmap_app. f_equal.
    replace (Z.to_nat (Z.of_nat (S n) * BatchSize c))
      with (Z.to_nat (Z.of_nat n * BatchSize c) + Z.to_nat (BatchSize c))%nat by nia.
    rewrite Z.add_0_l.
    replace (Z.to_nat (Z.of_nat n * BatchSize c + BatchSize c - Z.of_nat n * BatchSize c))
      with (Z.to_nat (BatchSize c)) by lia.
    by rewrite take_take_drop.
Qed.

Section WithWorld.

Variable Sum64 : list byte → Z.
Variable Format : Z → string → string.
Variable Join : string → string → string.
Variable createReport : string → bool.
Variable openDataset : string → option (list string).
Variable run : LoadTestConfig → list LoadProducer → Dataset →
               outcome (list LoadProducer * list (WebhookData * Z)).

(** *** The steps of a case *)

Lemma testCase_steps ams r c :
  let '(steps, r', result) :=
    testCase Sum64 Format Join createReport openDataset run ams r c in
  ¬ (Done ∈ steps) ∧
  (result = Returns None → started steps = [Name c]) ∧
  (started steps = [] ∨ started steps = [Name c]).
Proof.
  unfold testCase.
  destruct (createReport _); simpl.
  2: { split; [|split; [done|by left]]. intros Hin.
       repeat (apply elem_of_cons in Hin as [?|Hin]; [done|]).
       by apply elem_of_nil in Hin. }
  destruct (openDataset _) as [lines|].
  2: { split; [|split; [done|by left]]. intros Hin.
       repeat (apply elem_of_cons in Hin as [?|Hin]; [done|]).
       by apply elem_of_nil in Hin. }
  assert (Hbefore : ∀ path1 path2 path3 name (n : nat),
            ¬ (Done ∈ [MkdirAll path1; OpenFile path2 true; Open path3 true; Run name n])).
  { intros ????? Hin.
    repeat (apply elem_of_cons in Hin as [?|Hin]; [done|]).
    by apply elem_of_nil in Hin. }
  destruct (run _ _ _) as [[lt calls]| |]; [|by split; [apply Hbefore|split; [|right]]..].
  destruct (Merge.mergeSortEvents _ _) as [events| |];
    [|by split; [apply Hbefore|split; [|right]]..].
  split; [|split; [done|by right]]. intros Hin.
  repeat (apply elem_of_cons in Hin as [?|Hin]; [done|]).
  by apply elem_of_nil in Hin.
Qed.

Lemma RunLoadTests_steps ams r configs :
  let '(steps, r', result) :=
    RunLoadTests Sum64 Format Join createReport openDataset run ams r configs in
  (result = Returns None → last steps = Some Done ∧ started steps = Name <$> configs) ∧
  (result ≠ Returns None → ¬ (Done ∈ steps)) ∧
  started steps `prefix_of` (Name <$> configs).
Proof.
  revert r. induction configs as [|c configs IH]; intros r; simpl.
  - split; [done|]. split; [done|]. done.
  - pose proof (testCase_steps ams r c) as Hcase.
    destruct (testCase Sum64 Format Join createReport openDataset run ams r c)
      as [[steps r1] result].
    destruct Hcase as (Hdone & Hstarted & Hsome).
    assert (Hstop : result ≠ Returns None →
              (result = Returns None →
               last steps = Some Done ∧ started steps = Name c :: (Name <$> configs)) ∧
              (result ≠ Returns None → ¬ (Done ∈ steps)) ∧
              started steps `prefix_of` Name c :: (Name <$> configs)).
    { intros Hne. split; [done|]. split; [done|].
      destruct Hsome as [->| ->]; [apply prefix_nil|].
      by apply (prefix_app [Name c] [] (Name <$> configs)), prefix_nil. }
    destruct result as [[err|]| |]; [by apply Hstop| |by apply Hstop..].
    specialize (IH r1).
    destruct (RunLoadTests Sum64 Format Join createReport openDataset run ams r1 configs)
      as [[rest r2] result].
    destruct IH as (Hall & Hnone & Hprefix).
    unfold started in *. rewrite omap_app, (Hstarted eq_refl).
    split; [|split].
    + intros Hres. destruct (Hall Hres) as [Hlast ->]. split; [|done].
      by rewrite last_app, Hlast.
    + intros Hres Hin. apply elem_of_app in Hin as [?|?]; [done|by apply Hnone].
    + by apply (prefix_app [Name c]).
Qed.

(** *** Properties of the driver beyond the specification *)

(** X21.  [RunLoadTests] starts the cases in the order of the configuration, each
    at most once and none after a case that did not complete.  It sends on
    [done] exactly when it returns nil, that is when every case has
    completed, and then as the last thing it does; after an error or a panic
    nothing is sent. *)
Theorem done_is_sent_when_every_case_completed (ams : list string) (r : WebhookReceiver)
    (configs : list LoadTestConfig) :
  let '(steps, r', result) :=
    RunLoadTests Sum64 Format Join createReport openDataset run ams r configs in
  (result = Returns None ↔ Done ∈ steps) ∧
  (Done ∈ steps → last steps = Some Done ∧ started steps = Name <$> configs) ∧
  started steps `prefix_of` (Name <$> configs).
Proof.
  pose proof (RunLoadTests_steps ams r configs) as Hsteps.
  destruct (RunLoadTests Sum64 Format Join createReport openDataset run ams r configs)
    as [[steps r'] result].
  destruct Hsteps as (Hall & Hnone & Hprefix).
  assert (Hiff : result = Returns None ↔ Done ∈ steps).
  { split.
    - intros Hres. destruct (Hall Hres) as [Hlast _].
      apply last_Some in Hlast as [l' ->]. apply elem_of_app. right. left.
    - intros Hin. destruct result as [[err|]| |]; [|done|..];
        exfalso; by apply Hnone in Hin. }
  split; [done|]. split; [|done]. intros Hin. by apply Hall, Hiff.
Qed.



(** X23.  [Main] returns 1 for a failure at its start and for nothing else: when
    an alertmanager address cannot be parsed, when the configuration cannot
    be read or cannot be decoded, and when the listener cannot be set up.  An
    error or a panic of the load tests never gives status 1, and with
    [-noload] the exit status does not depend on the configured cases. *)
Theorem Main_exit_status (w : surroundings) :
  (Main Sum64 Format Join createReport openDataset run w = Exit 1
   ↔ parseAlertmanagers w = None ∨ readConfig w = None
     ∨ (∃ b, readConfig w = Some b ∧ unmarshal w b = None) ∨ listen w = false) ∧
  (∀ status, Main Sum64 Format Join createReport openDataset run w = Exit status →
             status = 0 ∨ status = 1) ∧
  (noload w = true →
   Main Sum64 Format Join createReport openDataset run w = Exit 1
   ∨ Main Sum64 Format Join createReport openDataset run w
     = if terminated w then Exit 0 else Waits).
Proof.
  unfold Main.
  destruct (parseAlertmanagers w) as [targets|].
  2: { split; [split; [by left|done]|]. split; [intros ? [= <-]; by right|by left]. }
  destruct (readConfig w) as [b|].
  2: { split; [split; [by right; left|done]|]. split; [intros ? [= <-]; by right|by left]. }
  destruct (unmarshal w b) as [config|] eqn:Hconf.
  2: { split; [split; [by right; right; left; exists b|done]|].
       split; [intros ? [= <-]; by right|by left]. }
  destruct (listen w); simpl.
  2: { split; [split; [by right; right; right|done]|].
       split; [intros ? [= <-]; by right|by left]. }
  split; [|split].
  - split.
    + destruct (terminated w); [done|]. destruct (noload w); [done|].
      destruct (RunLoadTests _ _ _ _ _ _ _ _ _) as [[? ?] [[?|]| |]]; done.
    + intros [?|[?|[(b' & [= <-] & Hb')|?]]]; [done|done|congruence|done].
  - intros status. destruct (terminated w); [intros [= <-]; by left|].
    destruct (noload w); [done|].
    destruct (RunLoadTests _ _ _ _ _ _ _ _ _) as [[? ?] [[?|]| |]]; try done.
    intros [= <-]. by left.
  - intros ->. right. by destruct (terminated w).
Qed.

End WithWorld.

Lemma NewLoadTest_first_windows_witness :
  0 ≤ BatchSize smoke ∧
  Goroutines smoke * BatchSize smoke
  ≤ Z.of_nat (length (bareMetrics (rawBytes tenLines))) ∧
  Goroutines smoke * BatchSize smoke < 2 ^ 63 ∧
  length (NewLoadTest smoke ams) = Z.to_nat (Goroutines smoke) ∧
  (∀ (i : nat) lp,
     NewLoadTest smoke ams !! i = Some lp →
     lp = mkLoadProducer ams
            (mkAlertProducer (Z.of_nat i * BatchSize smoke) (BatchSize smoke)
               (RotationInterval smoke) 0)
            (FireInterval smoke) []) ∧
  mjoin (firstWindow (bareMetrics (rawBytes tenLines)) <$> NewLoadTest smoke ams)
  = alertOfLabels <$> take (Z.to_nat (Goroutines smoke * BatchSize smoke))
                        (bareMetrics (rawBytes tenLines)).
Proof.
  assert (H1 : 0 ≤ BatchSize smoke) by (simpl; lia).
  assert (H2 : Goroutines smoke * BatchSize smoke
               ≤ Z.of_nat (length (bareMetrics (rawBytes tenLines)))) by (vm_compute; discriminate).
  assert (H3 : Goroutines smoke * BatchSize smoke < 2 ^ 63) by (simpl; lia).
  repeat (split; [assumption|]).
  exact (NewLoadTest_first_windows smoke ams (bareMetrics (rawBytes tenLines)) H1 H2 H3).
Defined.


(** A report that is written over a longer one keeps the end of that one:
    after a line of six bytes is written over a file of ten bytes, the last
    four bytes of the file are still there. *)
Example stale_tail :
  foldl perform {[ "report"%string := "0123456789"%string ]}
    [OpenFile "report" true; Write "report" "ALERTS"; Close "report"]
  !! "report"%string
  = Some "ALERTS6789"%string ∧
  writeAll "0123456789" 0 ["ALE"; "RTS"]%string = ("ALERTS6789"%string, 6%nat).
Proof. by vm_compute. Qed.

End DriverFacts.

(** ** A case from its producers to its report *)

Module EndToEnd.
Import Go Hashing Batcher Report Orchestrator Producer.

Section WithWorld.

Variable parse : list byte → list Labels.
Variable grow : nat → nat → nat.
Variable Encode : list Alert → list byte.
Variable Post : nat → string → list byte → option Z.
Variable Now : nat → Z.
Variable Sum64 : list byte → Z.
Variable Format : Z → string → string.
Variable Join : string → string → string.
Variable createReport : string → bool.
Variable openDataset : string → option (list string).

(** [lt.Run()] and the wait after it in a world where the producers handle
    their ticks as [schedule] says and the webhook is called as [calls]
    says. *)
Definition runIn (schedule : list nat) (calls : list (WebhookData * Z)) (w : world)
    (c : LoadTestConfig) (lps : list LoadProducer) (d : Dataset)
  : outcome (list LoadProducer * list (WebhookData * Z)) :=
  '(lps, _, _) ← runLoadTest parse grow Encode Post Now schedule lps d w;
  Returns (lps, calls).

Lemma notified_ascending (ns : list notification) :
  StronglySorted Z.le (n_timestamp <$> ns) →
  StronglySorted (Merge.leT Timestamp) (Notified <$> ns).
Proof.
  induction ns as [|n ns IH]; intros Hs; [constructor|].
  change (StronglySorted Z.le (n_timestamp n :: (n_timestamp <$> ns))) in Hs.
  apply StronglySorted_inv in Hs as [Hs Hall].
  change (StronglySorted (Merge.leT Timestamp) (Notified n :: (Notified <$> ns))).
  constructor; [by apply IH|].
  apply Forall_forall. intros x [n' [-> Hn']]%list_elem_of_fmap.
  apply (proj1 (Forall_forall _ _) Hall). apply list_elem_of_fmap. by exists n'.
Qed.

(** X24.  With a clock that does not run backwards, a case whose files can be
    opened, whose producers have each recorded an event by the time the test
    is over, and whose webhook calls are handled in the order of their
    instants completes, whether or not any notification has come in: the
    merge does not panic, and the report written holds the lines of all the
    events of the producers and of all notifications, in ascending order of
    their timestamps. *)
Theorem case_completes_when_every_producer_has_fired (schedule : list nat)
    (calls : list (WebhookData * Z)) (w w' : world) (c : LoadTestConfig)
    (ams : list string) (lines : list string) (lps' : list LoadProducer) (d' : Dataset) :
  monotone Now →
  createReport (Join (Join "test_results" (Name c)) "report") = true →
  openDataset (DatasetFile c) = Some lines →
  runLoadTest parse grow Encode Post Now schedule (NewLoadTest c ams) (NewDataset lines) w
  = Returns (lps', d', w') →
  Forall (λ lp, eventStore lp ≠ []) lps' →
  StronglySorted Z.le (snd <$> calls) →
  ∃ steps r' events,
    testCase Sum64 Format Join createReport openDataset (runIn schedule calls w)
      ams NewWebhookReceiver c
    = (steps, r', Returns None) ∧
    DriverFacts.written steps
    = [(Join (Join "test_results" (Name c)) "report",
        String.concat "" (ReportFacts.line Sum64 Format <$> events))] ∧
    events ≡ₚ mjoin (loadTestEvents lps') ++ (Notified <$> omap (recorded Sum64) calls) ∧
    StronglySorted (Merge.leT Timestamp) events.
Proof.
  intros Hmono Hreport Hopen Hrun Hfired Hcalls.
  destruct (runLoadTest_ascending parse grow Encode Post Now schedule c ams lines
              w w' lps' d' Hmono Hrun) as (Hsorted & _ & _).
  assert (Hnotified : StronglySorted (Merge.leT Timestamp)
                        (Notified <$> omap (recorded Sum64) calls)).
  { apply notified_ascending. clear -Hcalls.
    induction calls as [|[data now] calls IH]; [constructor|].
    change (StronglySorted Z.le (now :: (snd <$> calls))) in Hcalls.
    apply StronglySorted_inv in Hcalls as [Hs Hall]. specialize (IH Hs).
    simpl. unfold recorded at 1. simpl.
    destruct (alertHashesOf Sum64 (Alerts data) []); [|done..].
    change (StronglySorted Z.le (now :: (n_timestamp <$> omap (recorded Sum64) calls))).
    constructor; [done|].
    apply Forall_forall. intros t (n & -> & (call & Hcall & Hn)%list_elem_of_omap)%list_elem_of_fmap.
    assert (Ht : n_timestamp n = call.2).
    { unfold recorded in Hn.
      destruct (alertHashesOf Sum64 (Alerts call.1) []); [|done..].
      by injection Hn as <-. }
    rewrite Ht. apply (proj1 (Forall_forall _ _) Hall).
    by apply list_elem_of_fmap_2. }
  assert (Hne : Forall (λ es, es ≠ [] ∧ StronglySorted (Merge.leT Timestamp) es)
                  (loadTestEvents lps')).
  { unfold loadTestEvents in *. rewrite Forall_fmap in Hsorted |- *.
    apply Forall_forall. intros lp Hlp. split.
    - apply (proj1 (Forall_forall _ _) Hfired) in Hlp.
      destruct (eventStore lp); [done|discriminate].
    - by apply (proj1 (Forall_forall _ _) Hsorted). }
  assert (Hmerge : ∃ events,
            Merge.mergeSortEvents Timestamp
              (loadTestEvents lps'
               ++ [receiverEvents (foldl (served Sum64) NewWebhookReceiver calls)])
            = Returns events ∧
            events ≡ₚ mjoin (loadTestEvents lps')
                      ++ (Notified <$> omap (recorded Sum64) calls) ∧
            StronglySorted (Merge.leT Timestamp) events).
  { unfold receiverEvents. rewrite DriverFacts.Handler_appends. simpl.
    destruct (omap (recorded Sum64) calls) as [|n ns] eqn:Hns.
    - destruct (MergeFacts.mergeSortEvents_emptiesLast Timestamp
                  (loadTestEvents lps') 1 Hne) as (events & Hret & Hperm & Hs).
      exists events. simpl in *. by rewrite app_nil_r.
    - destruct (MergeFacts.mergeSortEvents_emptiesLast Timestamp
                  (loadTestEvents lps' ++ [Notified <$> n :: ns])
                  0) as (events & Hret & Hperm & Hs).
      { apply Forall_app. split; [done|]. constructor; [|constructor].
        split; [discriminate|done]. }
      exists events. simpl in Hret. rewrite app_nil_r in Hret.
      split; [done|]. split; [|done].
      rewrite Hperm, join_app. simpl. by rewrite app_nil_r. }
  destruct Hmerge as (events & Hret & Hperm & Hs).
  eexists _, _, events. split; [|split; [|done]].
  - unfold testCase. rewrite Hreport, Hopen. simpl.
    unfold runIn at 1. rewrite Hrun. simpl. rewrite Hret. reflexivity.
  - unfold DriverFacts.written. simpl. do 2 f_equal.
    pose proof (ReportFacts.printAll_lines Sum64 Format events "") as Hlines.
    unfold ReportFacts.printAll in Hlines. by rewrite Hlines.
Qed.

End WithWorld.

Lemma case_completes_when_every_producer_has_fired_witness :
  monotone counting ∧
  (λ _ : string, true) (slashJoin (slashJoin "test_results" (Name smoke)) "report") = true ∧
  (λ _ : string, Some tenLines) (DatasetFile smoke) = Some tenLines ∧
  StronglySorted Z.le (snd <$> @nil (WebhookData * Z)) ∧
  ∃ lps' d' w',
    runLoadTest bareMetrics doubling noBytes answered counting [0%nat; 0%nat]
      (NewLoadTest smoke ams) (NewDataset tenLines) (mkWorld [] ∅ 0)
    = Returns (lps', d', w') ∧
    Forall (λ lp, eventStore lp ≠ []) lps' ∧
    ∃ steps r' events,
      testCase Xxhash.Sum64 formatUTC slashJoin (λ _, true) (λ _, Some tenLines)
        (runIn bareMetrics doubling noBytes answered counting [0%nat; 0%nat] []
           (mkWorld [] ∅ 0))
        ams NewWebhookReceiver smoke
      = (steps, r', Returns None) ∧
      DriverFacts.written steps
      = [(slashJoin (slashJoin "test_results" (Name smoke)) "report",
          String.concat "" (ReportFacts.line Xxhash.Sum64 formatUTC <$> events))] ∧
      events ≡ₚ mjoin (loadTestEvents lps')
                ++ (Notified <$> omap (recorded Xxhash.Sum64) []) ∧
      StronglySorted (Merge.leT Timestamp) events.
Proof.
  assert (H1 : monotone counting) by (intros i j Hij; unfold counting; lia).
  assert (H2 : (λ _ : string, true) (slashJoin (slashJoin "test_results" (Name smoke)) "report")
               = true) by reflexivity.
  assert (H3 : (λ _ : string, Some tenLines) (DatasetFile smoke) = Some tenLines)
    by reflexivity.
  assert (H6 : StronglySorted Z.le (snd <$> @nil (WebhookData * Z))) by constructor.
  repeat (split; [assumption|]).
  destruct (runLoadTest bareMetrics doubling noBytes answered counting [0%nat; 0%nat]
              (NewLoadTest smoke ams) (NewDataset tenLines) (mkWorld [] ∅ 0))
    as [[[lps' d'] w']| |] eqn:H4;
    [|vm_compute in H4; discriminate H4..].
  assert (H5 : Forall (λ lp, eventStore lp ≠ []) lps').
  { vm_compute in H4. injection H4 as <- _ _. repeat constructor. discriminate. }
  exists lps', d', w'. split; [reflexivity|]. split; [exact H5|].
  exact (case_completes_when_every_producer_has_fired bareMetrics doubling noBytes
           answered counting Xxhash.Sum64 formatUTC slashJoin (λ _, true) (λ _, Some tenLines)
           [0%nat; 0%nat] [] (mkWorld [] ∅ 0) w' smoke ams tenLines lps' d'
           H1 H2 H3 H4 H5 H6).
Defined.

End EndToEnd.

(** ** The targets named on the command line (command entry point) *)

Module Flags.

Local Open Scope string_scope.

(** [strings.Split(s, sep)] for a separator [sep] of one byte: the pieces
    of [s] between the separators, one more than there are separators. *)
Fixpoint Split (s : string) (sep : ascii) : list string :=
  match s with
  | "" => [""]
  | String c s =>
      if Ascii.eqb c sep then "" :: Split s sep
      else match Split s sep with
           | [] => [String c ""]
           | piece :: pieces => String c piece :: pieces
           end
  end.

(** [strings.TrimRight(s, cutset)] for a cutset of one byte [c]. *)
Fixpoint TrimRight (s : string) (c : ascii) : string :=
  match s with
  | "" => ""
  | String x s =>
      match TrimRight s c with
      | "" => if Ascii.eqb x c then "" else String x ""
      | t => String x t
      end
  end.

(** The number of bytes [c] in [s]. *)
Fixpoint count (c : ascii) (s : string) : nat :=
  match s with
  | "" => 0
  | String x s => (if Ascii.eqb x c then 1 else 0) + count c s
  end.

(** [path.Join(u.Path, "api/v1/alerts")] where it is called, with [u.Path]
    empty: [Join] drops the empty element, and the one that is left is a
    clean path. *)
Definition Join_empty_api_v1_alerts : string := "api/v1/alerts".


Section WithURL.

(** A [*url.URL]: its field [Path] and its other fields. *)
Variable Rest : Type.

Record URL : Type := mkURL { Path : string; rest : Rest }.

(** [url.Parse] and [URL.String]. *)
Variable Parse : string → option URL.
Variable URLString : URL → string.

(** Body of the loop of [Main] over the addresses, after [url.Parse]. *)
Definition withDefaultPath (u : URL) : URL :=
  let u := mkURL (TrimRight (Path u) "/") (rest u) in
  if String.eqb (Path u) "" then mkURL Join_empty_api_v1_alerts (rest u) else u.

(** The loop of [Main] over [strings.Split( *ams, ",")]: the list
    [alertmanagers], or nothing when [Main] returns 1 from the loop. *)
Fixpoint rangeAddresses (addresses : list string) (alertmanagers : list string)
  : option (list string) :=
  match addresses with
  | [] => Some alertmanagers
  | am :: addresses =>
      match Parse am with
      | None => None
      | Some u =>
          let u := withDefaultPath u in
          rangeAddresses addresses (alertmanagers ++ [URLString u])
      end
  end.

Definition alertmanagersOf (ams : string) : option (list string) :=
  rangeAddresses (Split ams ",") [].

(** *** Splitting and trimming *)



Lemma Split_nonempty (s : string) (sep : ascii) : Split s sep ≠ [].
Proof.
  induction s as [|c s IH]; simpl; [done|].
  destruct (Ascii.eqb c sep); [done|]. by destruct (Split s sep).
Qed.



Lemma Split_pieces (s : string) (sep : ascii) :
  Forall (λ piece, count sep piece = 0%nat) (Split s sep).
Proof.
  induction s as [|c s IH]; simpl; [by repeat constructor|].
  pose proof (Split_nonempty s sep) as Hne.
  destruct (Ascii.eqb c sep) eqn:Hc; [by constructor|].
  destruct (Split s sep) as [|piece pieces]; [done|].
  apply Forall_cons in IH as [Hpiece Hpieces].
  constructor; [|done]. simpl. by rewrite Hc.
Qed.






(** *** Property of the command line beyond the specification *)


End WithURL.

(** A stand-in for [url.Parse] and [URL.String] that takes the whole
    address for the path. *)
Example alertmanagers_examples :
  Split "" "," = [""] ∧
  Split "http://a:9093/,http://b:9093" "," = ["http://a:9093/"; "http://b:9093"] ∧
  TrimRight "/api//" "/" = "/api" ∧ TrimRight "///" "/" = "" ∧
  alertmanagersOf unit (λ am, Some (mkURL unit am ())) (Path unit) ""
  = Some ["api/v1/alerts"] ∧
  alertmanagersOf unit (λ am, Some (mkURL unit am ())) (Path unit) "a/,b"
  = Some ["a"; "b"].
Proof. by vm_compute. Qed.

End Flags.
